(** * TravelWise: the fetch cache hook and the destination matcher

    A shallow embedding of [src/utils/destinationMatcher.js] (the
    MatchEngine) and of the [useFetch] hook (the FetchCache), with the
    properties their specification states about them.

    Modelling conventions.
    - A JavaScript string is a [string]: a sequence of 8-bit code units,
      read as Latin-1.  [toLowerCase] and [trim] act on that range as the
      ECMAScript functions do.
    - Array indices, lengths and edit distances are [nat].
    - A similarity score is an exact rational ([Q]).  The source computes
      [1 - d / m] in double precision; for the small integers [d <= m] at
      hand, the order and the equality of two such values, and their
      comparison with [1], agree with the exact ones.
    - The module-scoped [cache] (a JS [Map]) is a [gmap string CacheEntry]. *)

From Stdlib Require Import QArith Lqa Ascii String.
From stdpp Require Import gmap strings list fin_maps pretty sorting.

Close Scope Q_scope.
Open Scope string_scope.
Open Scope nat_scope.

(** ** JavaScript strings *)

Module JsString.

(** The code units of a string, in order. *)
Definition chars (s : string) : list ascii := list_ascii_of_string s.

(** [String.prototype.toLowerCase] on one Latin-1 code unit: [A-Z] and
    the accented capitals U+00C0..U+00DE (except the multiplication sign
    U+00D7) move up by 32; every other unit is its own lower case. *)
Definition lower_char (c : ascii) : ascii :=
  let n := nat_of_ascii c in
  if ((65 <=? n) && (n <=? 90)) || ((192 <=? n) && (n <=? 222) && negb (n =? 215))
  then ascii_of_nat (n + 32) else c.

Fixpoint toLowerCase (s : string) : string :=
  match s with
  | EmptyString => EmptyString
  | String c s' => String (lower_char c) (toLowerCase s')
  end.

(** White space and line terminators below U+0100: TAB, LF, VT, FF, CR,
    SP and NBSP. *)
Definition is_ws (c : ascii) : bool :=
  let n := nat_of_ascii c in
  ((9 <=? n) && (n <=? 13)) || (n =? 32) || (n =? 160).

Fixpoint trimStart (s : string) : string :=
  match s with
  | EmptyString => EmptyString
  | String c s' => if is_ws c then trimStart s' else s
  end.

Fixpoint trimEnd (s : string) : string :=
  match s with
  | EmptyString => EmptyString
  | String c s' =>
      match trimEnd s' with
      | EmptyString => if is_ws c then EmptyString else String c EmptyString
      | t => String c t
      end
  end.

(** [String.prototype.trim]. *)
Definition trim (s : string) : string := trimEnd (trimStart s).

(** [String.prototype.startsWith]. *)
Fixpoint startsWith (s q : string) : bool :=
  match q, s with
  | EmptyString, _ => true
  | String _ _, EmptyString => false
  | String a q', String b s' => bool_decide (a = b) && startsWith s' q'
  end.

(** [String.prototype.includes]: [q] occurs in [s] at some position. *)
Fixpoint includes (s q : string) : bool :=
  startsWith s q ||
  match s with
  | EmptyString => false
  | String _ s' => includes s' q
  end.

End JsString.

Import JsString.

(** ** Edit distance, as the specification words it

    The least number of single-character insertions, deletions and
    substitutions, each of cost one, that turn one string into another. *)

Section EditDistance.
Context {A : Type} `{EqDecision A}.

(** One operation, anywhere in the string. *)
Inductive editStep : list A -> list A -> Prop :=
| step_insert l x r : editStep (l ++ r) (l ++ x :: r)
| step_delete l x r : editStep (l ++ x :: r) (l ++ r)
| step_subst l x y r : editStep (l ++ x :: r) (l ++ y :: r).

(** [transforms n a b]: [n] operations, one after the other, turn [a]
    into [b]. *)
Inductive transforms : nat -> list A -> list A -> Prop :=
| transforms_done a : transforms 0 a a
| transforms_step n a b c : editStep a b -> transforms n b c -> transforms (S n) a c.

(** [d] is the edit distance of [a] and [b]: [d] operations do it, and no
    fewer. *)
Definition is_edit_distance (a b : list A) (d : nat) : Prop :=
  transforms d a b /\ forall n, transforms n a b -> d <= n.

(** The same counted along the two strings from left to right: at each
    position a character is kept, substituted, deleted or inserted.
    [edits a b n] holds when such a script with [n] operations exists. *)
Inductive edits : list A -> list A -> nat -> Prop :=
| edits_nil : edits [] [] 0
| edits_keep x a b n : edits a b n -> edits (x :: a) (x :: b) n
| edits_subst x y a b n : edits a b n -> edits (x :: a) (y :: b) (S n)
| edits_delete x a b n : edits a b n -> edits (x :: a) b (S n)
| edits_insert y a b n : edits a b n -> edits a (y :: b) (S n).

Definition min3 (x y z : nat) : nat := Nat.min (Nat.min x y) z.

Definition indicator (x y : A) : nat := if decide (x = y) then 0 else 1.

(** The classic recurrence, on the first characters. *)
Fixpoint editDistance (a b : list A) {struct a} : nat :=
  match a with
  | [] => length b
  | x :: a' =>
      (fix inner (b : list A) : nat :=
         match b with
         | [] => length a
         | y :: b' =>
             min3 (editDistance a' b + 1) (inner b' + 1)
                  (editDistance a' b' + indicator x y)
         end) b
  end.

End EditDistance.

(** ** [levenshteinDistance]: the matrix of the source *)

(** A cell holds [null] ([None]) until it is written. *)
Abbreviation Matrix := (list (list (option nat))).

(** [Array(rows).fill(null).map(() => Array(cols).fill(null))] *)
Definition new_matrix (rows cols : nat) : Matrix :=
  replicate rows (replicate cols None).

(** [matrix[j][i] = v].  Every write of the source is inside the matrix. *)
Definition mset (mx : Matrix) (j i v : nat) : Matrix :=
  match mx !! j with
  | Some row => <[j := <[i := Some v]> row]> mx
  | None => mx
  end.

(** [matrix[j][i]] read as a number; [null] counts as [0] in a sum.  Every
    read of the source is of a cell written before (lemma [lev_fill]). *)
Definition mget (mx : Matrix) (j i : nat) : nat :=
  match mx !! j with
  | Some row => match row !! i with Some (Some v) => v | _ => 0 end
  | None => 0
  end.

Definition lev_cell (s1 s2 : list ascii) (j : nat) (mx : Matrix) (i : nat) : Matrix :=
  let indicator := if decide (s1 !! (i - 1) = s2 !! (j - 1)) then 0 else 1 in
  mset mx j i
    (min3 (mget mx j (i - 1) + 1)              (* deletion *)
          (mget mx (j - 1) i + 1)              (* insertion *)
          (mget mx (j - 1) (i - 1) + indicator)). (* substitution *)

Definition lev_row (s1 s2 : list ascii) (mx : Matrix) (j : nat) : Matrix :=
  foldl (lev_cell s1 s2 j) mx (seq 1 (length s1)).

Definition lev_matrix (s1 s2 : list ascii) : Matrix :=
  let mx0 := new_matrix (S (length s2)) (S (length s1)) in
  let mx1 := foldl (fun mx i => mset mx 0 i i) mx0 (seq 0 (S (length s1))) in
  let mx2 := foldl (fun mx j => mset mx j 0 j) mx1 (seq 0 (S (length s2))) in
  foldl (lev_row s1 s2) mx2 (seq 1 (length s2)).

Definition levenshteinDistance (str1 str2 : string) : nat :=
  let s1 := chars str1 in
  let s2 := chars str2 in
  mget (lev_matrix s1 s2) (length s2) (length s1).

(** *** What the matrix holds while it is filled *)

(** The matrix has [rows] rows of [cols] cells. *)
Definition shaped (rows cols : nat) (mx : Matrix) : Prop :=
  length mx = rows /\ forall j row, mx !! j = Some row -> length row = cols.

(** The distance between the first [i] characters of [s1] and the first
    [j] characters of [s2]. *)
Definition prefixDistance (s1 s2 : list ascii) (i j : nat) : nat :=
  editDistance (take i s1) (take j s2).

(** [filled s1 s2 P mx]: the matrix has its shape, and every cell that [P]
    selects holds the distance of the two prefixes. *)
Definition filled (s1 s2 : list ascii) (P : nat -> nat -> Prop) (mx : Matrix) : Prop :=
  shaped (S (length s2)) (S (length s1)) mx /\
  forall j i, j <= length s2 -> i <= length s1 -> P j i ->
              mget mx j i = prefixDistance s1 s2 i j.

(** ** [calculateSimilarity] *)

Definition Qnat (n : nat) : Q := inject_Z (Z.of_nat n).

Definition calculateSimilarity (str1 str2 : string) : Q :=
  let maxLength := Nat.max (String.length str1) (String.length str2) in
  if maxLength =? 0 then 1%Q
  else
    let distance := levenshteinDistance (toLowerCase str1) (toLowerCase str2) in
    (1 - Qnat distance / Qnat maxLength)%Q.

(** The similarity as the specification words it. *)
Definition similarity_spec (a b : string) (d : nat) : Q :=
  (1 - Qnat d / Qnat (Nat.max (String.length a) (String.length b)))%Q.

(** ** The reference table *)

Record Destination := {
  name : string;
  country : string;
  variations : list string
}.

Definition destinationsDB : list Destination := [
  {| name := "Paris"; country := "France";
     variations := ["paris"; "pariis"; "pariz"; "parris"; "pariss"; "parise"; "paries"] |};
  {| name := "Tokyo"; country := "Japan";
     variations := ["tokyo"; "tokio"; "tokoyo"; "tokiyo"; "tokyio"; "toquio"; "tokyo"] |};
  {| name := "London"; country := "United Kingdom";
     variations := ["london"; "londan"; "londin"; "londun"; "londn"; "londen"; "lundun"] |};
  {| name := "New York"; country := "United States";
     variations := ["new york"; "newyork"; "ny"; "nyc"; "new yourk"; "newyourk"; "nu york"] |};
  {| name := "Dubai"; country := "United Arab Emirates";
     variations := ["dubai"; "dubay"; "dubia"; "dubi"; "dubaii"; "dubae"; "doobai"] |};
  {| name := "Sydney"; country := "Australia";
     variations := ["sydney"; "sidny"; "sidnay"; "sydny"; "cidney"; "sydnee"; "sydnie"] |};
  {| name := "Barcelona"; country := "Spain";
     variations := ["barcelona"; "barcellona"; "barselona"; "barcalona"; "barcelon"; "barselona"] |};
  {| name := "Amsterdam"; country := "Netherlands";
     variations := ["amsterdam"; "amstardam"; "amstardm"; "amsterdm"; "amstredam"; "amsterdamm"] |};
  {| name := "Rome"; country := "Italy";
     variations := ["rome"; "roma"; "roome"; "rom"; "roam"; "roem"] |};
  {| name := "Berlin"; country := "Germany";
     variations := ["berlin"; "berln"; "berlin"; "berline"; "belin"; "birlin"] |};
  {| name := "Prague"; country := "Czech Republic";
     variations := ["prague"; "prag"; "praga"; "praag"; "pragua"; "praque"; "prauge"] |};
  {| name := "Vienna"; country := "Austria";
     variations := ["vienna"; "viena"; "wein"; "vien"; "veinna"; "vianna"; "vieena"] |};
  {| name := "Bangkok"; country := "Thailand";
     variations := ["bangkok"; "bangcock"; "bangkock"; "bangok"; "bankok"; "bangkol"] |};
  {| name := "Istanbul"; country := "Turkey";
     variations := ["istanbul"; "istambul"; "istanbol"; "istanbull"; "istambol"; "constantinople"] |};
  {| name := "Cairo"; country := "Egypt";
     variations := ["cairo"; "cayro"; "caeiro"; "kairo"; "cyro"; "cario"] |};
  {| name := "Mumbai"; country := "India";
     variations := ["mumbai"; "bombay"; "mumbay"; "mumbae"; "mumbaii"; "mumby"] |};
  {| name := "Singapore"; country := "Singapore";
     variations := ["singapore"; "singapur"; "singapoor"; "singapoore"; "singapre"; "singpore"] |};
  {| name := "Los Angeles"; country := "United States";
     variations := ["los angeles"; "losangeles"; "la"; "los angelos"; "los angelis"; "l.a."] |};
  {| name := "Hong Kong"; country := "China";
     variations := ["hong kong"; "hongkong"; "hk"; "hong cong"; "hong konk"; "hongkong"] |};
  {| name := "Seoul"; country := "South Korea";
     variations := ["seoul"; "seul"; "soeul"; "seoul"; "seole"; "suel"] |}
].

(** ** Results *)

(** A suggestion object.  [getDestinationSuggestions] builds it without the
    [matchedVariation] property ([None]). *)
Record Suggestion := {
  sname : string;
  scountry : string;
  similarity : Q;
  matchedVariation : option string
}.

(** The object [findBestMatch] returns.  [destination] is [null] ([None])
    when no variation scored above zero; [hasGoodMatch] is [None] when the
    returned object has no such property. *)
Record MatchResult := {
  destination : option string;
  confidence : Q;
  isExact : bool;
  suggestions : list Suggestion;
  hasGoodMatch : option bool
}.

(** ** Array helpers *)

(** [Array.prototype.findIndex]; [None] stands for [-1]. *)
Fixpoint findIndex {A} (p : A -> bool) (l : list A) : option nat :=
  match l with
  | [] => None
  | x :: l' => if p x then Some 0 else S <$> findIndex p l'
  end.

(** [t => t.name === item.name] *)
Definition sameName (item t : Suggestion) : bool := bool_decide (sname t = sname item).

(** [self.filter((item, index, self) => index === self.findIndex(t => t.name === item.name))] *)
Definition uniqueByName (self : list Suggestion) : list Suggestion :=
  snd <$> filter (fun '(index, item) => findIndex (sameName item) self = Some index)
                 (imap pair self).

Definition Qltb (x y : Q) : bool := negb (Qle_bool y x).

(** [suggestions.sort((a, b) => b.similarity - a.similarity)]: descending
    by similarity.  [Array.prototype.sort] is stable, so suggestions of
    equal similarity keep their order; insertion from the right places each
    element before the first one it is not smaller than. *)
Fixpoint insertBySimilarity (x : Suggestion) (l : list Suggestion) : list Suggestion :=
  match l with
  | [] => [x]
  | y :: l' =>
      if Qle_bool (similarity y) (similarity x) then x :: l
      else y :: insertBySimilarity x l'
  end.

Definition sortBySimilarity (l : list Suggestion) : list Suggestion :=
  foldr insertBySimilarity [] l.

(** [l.slice(0, e)]: a negative [e] counts from the end. *)
Definition slice0 {A} (e : Z) (l : list A) : list A :=
  if (e <? 0)%Z then take (Z.to_nat (Z.of_nat (length l) + e)) l
  else take (Z.to_nat e) l.

(** ** [findBestMatch] *)

(** The three variables the loops of [findBestMatch] update. *)
Record Scan := {
  bestMatch : option string;
  bestScore : Q;
  found : list Suggestion
}.

Definition default_threshold : Q := 6 # 10.

Section Matcher.
Variable db : list Destination.

(** The body of the inner loop, for one variation of [d]. *)
Definition scanVariation (queryLower : string) (threshold : Q)
    (d : Destination) (st : Scan) (variation : string) : Scan :=
  let sim := calculateSimilarity queryLower variation in
  let st1 :=
    if Qltb (bestScore st) sim
    then {| bestMatch := Some (name d); bestScore := sim; found := found st |}
    else st in
  if Qle_bool threshold sim && Qltb sim 1
  then {| bestMatch := bestMatch st1; bestScore := bestScore st1;
          found := found st1 ++
            [{| sname := name d; scountry := country d; similarity := sim;
                matchedVariation := Some variation |}] |}
  else st1.

Definition exactResult (d : Destination) : MatchResult :=
  {| destination := Some (name d); confidence := 1; isExact := true;
     suggestions := []; hasGoodMatch := None |}.

(** The outer loop; [inl] is its early [return]. *)
Fixpoint scanDestinations (queryLower : string) (threshold : Q)
    (ds : list Destination) (st : Scan) : MatchResult + Scan :=
  match ds with
  | [] => inr st
  | d :: rest =>
      if bool_decide (queryLower ∈ variations d) then inl (exactResult d)
      else scanDestinations queryLower threshold rest
             (foldl (scanVariation queryLower threshold d) st (variations d))
  end.

Definition findBestMatchIn (query : string) (threshold : Q) : MatchResult :=
  let queryLower := trim (toLowerCase query) in
  match scanDestinations queryLower threshold db
          {| bestMatch := None; bestScore := 0; found := [] |} with
  | inl result => result
  | inr st =>
      let sorted := sortBySimilarity (found st) in
      let uniqueSuggestions := take 3 (uniqueByName sorted) in
      {| destination := bestMatch st; confidence := bestScore st;
         isExact := false; suggestions := uniqueSuggestions;
         hasGoodMatch := Some (Qle_bool threshold (bestScore st)) |}
  end.

(** ** [getDestinationSuggestions] *)

(** The inner loop with its [break]: the first variation that starts
    with or contains the query yields the one suggestion of [d]. *)
Definition suggestFor (queryLower : string) (acc : list Suggestion)
    (d : Destination) : list Suggestion :=
  match List.find (fun variation =>
                     startsWith variation queryLower || includes variation queryLower)
                  (variations d) with
  | Some variation =>
      acc ++ [{| sname := name d; scountry := country d;
                 similarity := calculateSimilarity queryLower variation;
                 matchedVariation := None |}]
  | None => acc
  end.

Definition getDestinationSuggestionsIn (query : string) (limit : Z) : list Suggestion :=
  let queryLower := trim (toLowerCase query) in
  if String.length queryLower <? 2 then []
  else
    let suggestions := foldl (suggestFor queryLower) [] db in
    slice0 limit (sortBySimilarity (uniqueByName suggestions)).

End Matcher.

Definition findBestMatch : string -> Q -> MatchResult :=
  findBestMatchIn destinationsDB.

Definition getDestinationSuggestions : string -> Z -> list Suggestion :=
  getDestinationSuggestionsIn destinationsDB.

(** *** Properties of suggestion lists and of the table *)

(** Every element is at least as similar as every later one. *)
Definition descending (l : list Suggestion) : Prop :=
  StronglySorted (fun a b => (similarity b <= similarity a)%Q) l.

(** The suggestions [findBestMatch] has pushed when its loops end (none on
    the early return). *)
Definition candidates (db : list Destination) (query : string) (threshold : Q)
    : list Suggestion :=
  match scanDestinations (trim (toLowerCase query)) threshold db
          {| bestMatch := None; bestScore := 0; found := [] |} with
  | inl _ => []
  | inr st => found st
  end.

(** The best score and every pushed suggestion are below one. *)
Definition below1 (st : Scan) : Prop :=
  (bestScore st < 1)%Q /\ Forall (fun s => (similarity s < 1)%Q) (found st).

Global Instance Destination_eq_dec : EqDecision Destination.
Proof. solve_decision. Defined.

(** The first record of the table that lists [v]. *)
Definition ownerOf (db : list Destination) (v : string) : option Destination :=
  List.find (fun d => bool_decide (v ∈ variations d)) db.

(** No variation is listed by two records: each record is the first one
    to list each of its variations. *)
Definition variationsOwned (db : list Destination) : bool :=
  forallb (fun d => forallb (fun v => bool_decide (ownerOf db v = Some d)) (variations d)) db.

(** Every variation is stored in lower case. *)
Definition variationsLower (db : list Destination) : bool :=
  forallb (fun d => forallb (fun v => bool_decide (toLowerCase v = v)) (variations d)) db.

(** ** JavaScript values and [JSON.stringify] *)

Inductive JsNum :=
| Fin (z : Z)     (* an integer; fractions do not occur in what is modelled *)
| NaN
| PosInf
| NegInf.

(** Plain data.  [JObj props] lists the own enumerable properties of an
    object in enumeration order (for keys that are not array indices, the
    order in which they were added). *)
#[warnings="-register-all"]
Inductive JsVal :=
| JUndefined
| JNull
| JBool (b : bool)
| JNum (n : JsNum)
| JStr (s : string)
| JArr (elems : list JsVal)
| JObj (props : list (string * JsVal)).

Definition dquote : ascii := ascii_of_nat 34.

Definition hexDigit (n : nat) : ascii :=
  ascii_of_nat (if n <? 10 then 48 + n else 87 + n).

(** One code unit inside [QuoteJSONString]. *)
Definition quoteChar (c : ascii) : string :=
  let n := nat_of_ascii c in
  if n =? 34 then String "\" (String dquote EmptyString)
  else if n =? 92 then "\\"
  else if n =? 8 then "\b"
  else if n =? 9 then "\t"
  else if n =? 10 then "\n"
  else if n =? 12 then "\f"
  else if n =? 13 then "\r"
  else if n <? 32 then
    String "\" (String "u" (String "0" (String "0"
      (String (hexDigit (n / 16)) (String (hexDigit (n mod 16)) EmptyString)))))
  else String c EmptyString.

Fixpoint quoteBody (s : string) : string :=
  match s with
  | EmptyString => String dquote EmptyString
  | String c s' => quoteChar c ++ quoteBody s'
  end.

(** [QuoteJSONString]. *)
Definition quoteJSONString (s : string) : string := String dquote (quoteBody s).

(** [JSON.stringify(v)]; [None] is [undefined].  A property whose value
    serialises to [undefined] is left out of its object; such an element of
    an array is written [null]. *)
Fixpoint stringify (v : JsVal) : option string :=
  match v with
  | JUndefined => None
  | JNull => Some "null"
  | JBool b => Some (if b then "true" else "false")
  | JNum (Fin z) => Some (pretty z)
  | JNum _ => Some "null"
  | JStr s => Some (quoteJSONString s)
  | JArr elems =>
      Some ("[" ++ String.concat "," (map (fun e => default "null" (stringify e)) elems) ++ "]")
  | JObj props =>
      Some ("{" ++ String.concat ","
                     (omap (fun p => (fun s => quoteJSONString p.1 ++ ":" ++ s) <$> stringify p.2)
                           props) ++ "}")
  end.

(** The text of one property inside the braces, if it is written at all. *)
Definition member (p : string * JsVal) : option string :=
  (fun s => quoteJSONString p.1 ++ ":" ++ s) <$> stringify p.2.

(** ** The [useFetch] hook: cache key and freshness *)

(** The [options] argument is an object; this is the list of its
    properties. *)
Abbreviation Options := (list (string * JsVal)).

(** [JSON.stringify(options)], as a template literal prints it. *)
Definition optionsString (options : Options) : string :=
  default "undefined" (stringify (JObj options)).

(** [url ? `${url}|${optionsString}` : null].  The callers' [null] url is
    the empty string here: the hook only ever tests [url] for truth before
    it uses it. *)
Definition key (url : string) (options : Options) : option string :=
  if bool_decide (url = "") then None
  else Some (url ++ "|" ++ optionsString options).

(** [options[k]]; a missing property reads [undefined]. *)
Definition getProp (k : string) (options : Options) : JsVal :=
  default JUndefined (snd <$> List.find (fun p => bool_decide (p.1 = k)) options).

Definition toBoolean (v : JsVal) : bool :=
  match v with
  | JUndefined | JNull => false
  | JBool b => b
  | JNum (Fin z) => negb (z =? 0)%Z
  | JNum NaN => false
  | JNum _ => true
  | JStr s => negb (bool_decide (s = ""))
  | JArr _ | JObj _ => true
  end.

Fixpoint digitsValue (s : string) (acc : Z) : option Z :=
  match s with
  | EmptyString => Some acc
  | String c s' =>
      let n := nat_of_ascii c in
      if (48 <=? n) && (n <=? 57)
      then digitsValue s' (10 * acc + Z.of_nat (n - 48))%Z
      else None
  end.

(** [ToNumber] for the operand of [<].  Exact on numbers, booleans, [null],
    [undefined] and strings of decimal digits; any other string and every
    object is read as [NaN]. *)
Definition toNumber (v : JsVal) : JsNum :=
  match v with
  | JUndefined => NaN
  | JNull => Fin 0
  | JBool b => Fin (if b then 1 else 0)
  | JNum n => n
  | JStr s => match digitsValue s 0 with Some z => Fin z | None => NaN end
  | JArr _ | JObj _ => NaN
  end.

(** [options.ttl || 5 * 60 * 1000] *)
Definition ttl (options : Options) : JsNum :=
  let v := getProp "ttl" options in
  if toBoolean v then toNumber v else Fin (5 * 60 * 1000).

(** [age < ttl] for an integer [age]. *)
Definition ltNum (age : Z) (n : JsNum) : bool :=
  match n with
  | Fin z => (age <? z)%Z
  | PosInf => true
  | NaN | NegInf => false
  end.

(** Two configurations are logically the same request configuration when
    every option reads the same in both. *)
Definition sameConfiguration (o1 o2 : Options) : Prop :=
  forall k, getProp k o1 = getProp k o2.

(** Reading back one quoted code unit from the front of a JSON string
    body; [None] at the closing quote. *)
Definition hexValue (c : ascii) : nat :=
  let n := nat_of_ascii c in
  if n <? 58 then n - 48 else n - 87.

Definition unquoteChar (s : string) : option (ascii * string) :=
  match s with
  | EmptyString => None
  | String c rest =>
      let n := nat_of_ascii c in
      if n =? 34 then None
      else if n =? 92 then
        match rest with
        | EmptyString => None
        | String x rest' =>
            let m := nat_of_ascii x in
            if m =? 34 then Some (ascii_of_nat 34, rest')
            else if m =? 92 then Some (ascii_of_nat 92, rest')
            else if m =? 98 then Some (ascii_of_nat 8, rest')
            else if m =? 116 then Some (ascii_of_nat 9, rest')
            else if m =? 110 then Some (ascii_of_nat 10, rest')
            else if m =? 102 then Some (ascii_of_nat 12, rest')
            else if m =? 114 then Some (ascii_of_nat 13, rest')
            else
              match rest' with
              | String _ (String _ (String h (String l rest''))) =>
                  Some (ascii_of_nat (16 * hexValue h + hexValue l), rest'')
              | _ => None
              end
        end
      else Some (c, rest)
  end.

(** ** The [useFetch] hook: state *)

(** A value of the [cache] map: [{ data, timestamp }]. *)
Record CacheEntry := {
  entry_data : JsVal;
  timestamp : Z
}.

(** The dependency list of the effect,
    [[url, fetchNow, refetchIndex.current, ...deps]].  [useCallback] hands
    out a new [fetchNow] exactly when [key], [url] or the identity of the
    [options] object differs from the previous render, so the callback
    is identified by those three. *)
Record EffectDeps := {
  dep_url : string;
  dep_fetchNow : option string * string * nat;
  dep_refetchIndex : nat;
  dep_rest : list (option string)
}.

Global Instance EffectDeps_eq_dec : EqDecision EffectDeps.
Proof. solve_decision. Defined.

(** One mounted use of the hook: its three state cells, its two refs, the
    dependencies the effect last ran with, and whether a state setter has
    asked React for another render since the last one. *)
Record Session := {
  data : JsVal;
  loading : bool;
  error : option string;
  refetchIndex : nat;
  fetchToken : nat;
  effectDeps : option EffectDeps;
  renderRequested : bool
}.

(** [useState(null)], [useState(false)], [useState(null)], [useRef(0)],
    [useRef(0)]. *)
Definition newSession : Session :=
  {| data := JNull; loading := false; error := None; refetchIndex := 0;
     fetchToken := 0; effectDeps := None; renderRequested := false |}.

(** The module-scoped cache, shared by every session, and one session. *)
Record World := {
  cache : gmap string CacheEntry;
  session : Session
}.

(** A state setter stores the value and asks for a render (React may skip
    it when the value did not change).  A write to [ref.current] stores the
    value and asks for nothing. *)
Definition setData (v : JsVal) (s : Session) : Session :=
  {| data := v; loading := loading s; error := error s;
     refetchIndex := refetchIndex s; fetchToken := fetchToken s;
     effectDeps := effectDeps s; renderRequested := true |}.

Definition setLoading (b : bool) (s : Session) : Session :=
  {| data := data s; loading := b; error := error s;
     refetchIndex := refetchIndex s; fetchToken := fetchToken s;
     effectDeps := effectDeps s; renderRequested := true |}.

Definition setError (e : option string) (s : Session) : Session :=
  {| data := data s; loading := loading s; error := e;
     refetchIndex := refetchIndex s; fetchToken := fetchToken s;
     effectDeps := effectDeps s; renderRequested := true |}.

Definition write_fetchToken (n : nat) (s : Session) : Session :=
  {| data := data s; loading := loading s; error := error s;
     refetchIndex := refetchIndex s; fetchToken := n;
     effectDeps := effectDeps s; renderRequested := renderRequested s |}.

Definition write_refetchIndex (n : nat) (s : Session) : Session :=
  {| data := data s; loading := loading s; error := error s;
     refetchIndex := n; fetchToken := fetchToken s;
     effectDeps := effectDeps s; renderRequested := renderRequested s |}.

Definition onSession (f : Session -> Session) (w : World) : World :=
  {| cache := cache w; session := f (session w) |}.

Definition onCache (f : gmap string CacheEntry -> gmap string CacheEntry) (w : World) : World :=
  {| cache := f (cache w); session := session w |}.

(** ** The [useFetch] hook: [fetchNow] *)

(** What a rendered hook was called with.  [optionsRef] is the identity of
    the [options] object (a caller that writes an object literal in its
    render passes a new one each time). *)
Record Props := {
  url : string;
  options : Options;
  optionsRef : nat;
  deps : list (option string)
}.

(** A call of [fetchNow] suspended at [await fetch(...)]: what its closure
    holds. *)
Record Call := {
  currentToken : nat;
  call_key : string;
  call_url : string
}.

(** A thrown value, as far as the [catch] block looks at it. *)
Record JsError := {
  ename : string;
  message : string
}.

(** How the network answers a call: [fetch] rejects (a network failure, or
    an [AbortError] once the signal fired), or it resolves with a response
    whose [json()] in turn resolves or rejects. *)
Inductive FetchOutcome :=
| Rejected (err : JsError)
| Resolved (ok : bool) (status : nat) (statusText : string) (body : JsVal + JsError).

(** [String(err)], that is [Error.prototype.toString]. *)
Definition errorToString (err : JsError) : string :=
  if bool_decide (ename err = "") then message err
  else if bool_decide (message err = "") then ename err
  else ename err ++ ": " ++ message err.

(** [err.message || String(err)] *)
Definition errorText (err : JsError) : string :=
  if bool_decide (message err = "") then errorToString err else message err.

(** [fetchNow], from its start to the [await fetch(...)].  [now] is what
    [Date.now()] returns.  The result holds the suspended call when the
    network was asked, [None] when the function returned before. *)
Definition fetchNow (now : Z) (p : Props) (w : World) : World * option Call :=
  match key (url p) (options p) with
  | None => (w, None)                                   (* if (!url) return *)
  | Some k =>
      let currentToken := S (fetchToken (session w)) in
      let w1 := onSession (write_fetchToken currentToken) w in
      let request :=
        (onSession (setError None) (onSession (setLoading true) w1),
         Some {| currentToken := currentToken; call_key := k; call_url := url p |}) in
      match cache w1 !! k with
      | Some entry =>
          if ltNum (now - timestamp entry) (ttl (options p))
          then (onSession (setLoading false)
                  (onSession (setData (entry_data entry)) w1), None)
          else request
      | None => request
      end
  end.

(** What the [try] block ends with: the decoded body, or the thrown
    error. *)
Definition tryResult (out : FetchOutcome) : JsVal + JsError :=
  match out with
  | Rejected err => inr err
  | Resolved ok status statusText body =>
      if ok then body
      else inr {| ename := "Error";
                  message := "HTTP " ++ pretty status ++ " - " ++ statusText |}
  end.

(** [fetchNow], from the answer of the network to its end: the rest of the
    [try] block, the [catch] block and the [finally] block. *)
Definition fetchNow_settled (now : Z) (c : Call) (out : FetchOutcome) (w : World) : World :=
  let w1 :=
    match tryResult out with
    | inl json =>
        let w' := onCache (insert (call_key c) {| entry_data := json; timestamp := now |}) w in
        if decide (fetchToken (session w') = currentToken c)
        then onSession (setData json) w' else w'
    | inr err =>
        if bool_decide (ename err ≠ "AbortError")
        then onSession (setError (Some (errorText err))) w else w
    end in
  if decide (fetchToken (session w1) = currentToken c)
  then onSession (setLoading false) w1 else w1.

(** ** The [useFetch] hook: effect, render and [refetch] *)

Definition depsOf (p : Props) (s : Session) : EffectDeps :=
  {| dep_url := url p;
     dep_fetchNow := (key (url p) (options p), url p, optionsRef p);
     dep_refetchIndex := refetchIndex s;
     dep_rest := deps p |}.

Definition commitDeps (d : EffectDeps) (s : Session) : Session :=
  {| data := data s; loading := loading s; error := error s;
     refetchIndex := refetchIndex s; fetchToken := fetchToken s;
     effectDeps := Some d; renderRequested := false |}.

Definition rendered (s : Session) : Session :=
  {| data := data s; loading := loading s; error := error s;
     refetchIndex := refetchIndex s; fetchToken := fetchToken s;
     effectDeps := effectDeps s; renderRequested := false |}.

(** One render of the component that uses the hook, and the effect after
    it.  The effect runs on the first render and whenever its dependency
    list differs from the one of the previous render; it calls [fetchNow]
    unless [url] is empty.  (The cleanup of the previous effect aborts the
    signal of the previous call; which signals are aborted is followed in
    [stepMounted].) *)
Definition render (now : Z) (p : Props) (w : World) : World * option Call :=
  let d := depsOf p (session w) in
  if decide (effectDeps (session w) = Some d)
  then (onSession rendered w, None)
  else
    let w1 := onSession (commitDeps d) w in
    if bool_decide (url p = "") then (w1, None)        (* if (!url) return *)
    else fetchNow now p w1.

(** [refetch]: delete the cache entry of the current key and add one to
    the [refetchIndex] ref. *)
Definition refetch (p : Props) (w : World) : World :=
  let w1 :=
    match key (url p) (options p) with
    | Some k => onCache (delete k) w
    | None => w
    end in
  onSession (fun s => write_refetchIndex (refetchIndex s + 1) s) w1.

(** What React does by itself once an event handler has returned: it
    renders the component again if, and only if, a state setter asked for
    it. *)
Definition reactFlush (now : Z) (p : Props) (w : World) : World * option Call :=
  if renderRequested (session w) then render now p w else (w, None).

(** What the cache holds for the key of [p]. *)
Definition cached (p : Props) (w : World) : option CacheEntry :=
  match key (url p) (options p) with
  | Some k => cache w !! k
  | None => None
  end.

(** ** Example runs *)

Module Example.

Definition weather (city : string) : Props :=
  {| url := "https://api.example.org/weather?q=" ++ city;
     options := [("ttl", JNum (Fin (5 * 60 * 1000)))];
     optionsRef := 0;
     deps := [Some city] |}.

Definition start : World := {| cache := ∅; session := newSession |}.

(** The answer of the network to a call, if the call was made. *)
Definition answer (now : Z) (c : option Call) (out : FetchOutcome) (w : World) : World :=
  match c with
  | Some c => fetchNow_settled now c out w
  | None => w
  end.

(** Two overlapping calls.  The component mounts asking for Paris (call
    1), its props change to London before the answer (call 2), which
    aborts the signal of call 1; London is answered first, and then the
    fetch of call 1 rejects with the [AbortError]. *)
Definition overlap_mounted : World * option Call := render 0 (weather "Paris") start.
Definition overlap_changed : World * option Call :=
  render 1 (weather "London") overlap_mounted.1.
Definition overlap_newer_answered : World :=
  answer 2 overlap_changed.2 (Resolved true 200 "OK" (inl (JStr "London: rain")))
         overlap_changed.1.

(** A cache hit after a failure.  Another user of the hook has stored
    the weather of London; this one asks for a city the server does not
    know, is told so, and then asks for London. *)
Definition hit_start : World :=
  {| cache := {[ default "" (key (url (weather "London")) (options (weather "London")))
                 := {| entry_data := JStr "London: rain"; timestamp := 1000 |} ]};
     session := newSession |}.
Definition hit_mounted : World * option Call := render 2000 (weather "Lodnon") hit_start.
Definition hit_failed : World :=
  answer 2100 hit_mounted.2 (Resolved false 404 "Not Found" (inl JNull)) hit_mounted.1.
Definition hit_changed : World * option Call := render 3000 (weather "London") hit_failed.

(** A manual refetch.  The component mounts, the answer arrives and is
    cached, React renders once more because of the state changes, and
    then the user of the hook calls [refetch]. *)
Definition refetch_mounted : World * option Call := render 0 (weather "Paris") start.
Definition refetch_answered : World :=
  answer 10 refetch_mounted.2 (Resolved true 200 "OK" (inl (JStr "Paris: sun")))
         refetch_mounted.1.
Definition refetch_settled : World * option Call :=
  reactFlush 11 (weather "Paris") refetch_answered.
Definition refetch_called : World := refetch (weather "Paris") refetch_settled.1.

End Example.

(** * Further definitions: the matcher *)

(** Every (record, variation) pair of the table, in the order in which the
    two loops of [findBestMatch] visit them. *)
Definition tablePairs (db : list Destination) : list (Destination * string) :=
  d ← db; pair d <$> variations d.

(** The body of the inner loop of [findBestMatch] on one such pair. *)
Definition scanPair (queryLower : string) (threshold : Q) (st : Scan)
    (p : Destination * string) : Scan :=
  scanVariation queryLower threshold p.1 st p.2.

(** The suggestion [findBestMatch] pushes for a pair. *)
Definition suggestionOf (queryLower : string) (p : Destination * string) : Suggestion :=
  {| sname := name p.1; scountry := country p.1;
     similarity := calculateSimilarity queryLower p.2;
     matchedVariation := Some p.2 |}.

(** The test [similarity >= threshold && similarity < 1.0]. *)
Definition isCandidate (queryLower : string) (threshold : Q)
    (p : Destination * string) : bool :=
  Qle_bool threshold (calculateSimilarity queryLower p.2)
  && Qltb (calculateSimilarity queryLower p.2) 1.

(** No variation of the table is the empty string. *)
Definition variationsNonEmpty (db : list Destination) : bool :=
  forallb (fun d => forallb (fun v => negb (bool_decide (v = ""))) (variations d)) db.

(** The test of [getDestinationSuggestions],
    [variation.startsWith(queryLower) || variation.includes(queryLower)]. *)
Definition matchesQuery (queryLower variation : string) : bool :=
  startsWith variation queryLower || includes variation queryLower.

(** The suggestion [getDestinationSuggestions] pushes for a record and its
    first matching variation. *)
Definition listedSuggestion (queryLower : string) (d : Destination) (variation : string)
    : Suggestion :=
  {| sname := name d; scountry := country d;
     similarity := calculateSimilarity queryLower variation;
     matchedVariation := None |}.

(** * Further definitions: the components that use the matcher *)

(** A condition [m.hasGoodMatch && ...]: a missing property is
    [undefined], which is falsy. *)
Definition truthy (b : option bool) : bool := default false b.

(** Every canonical name of the table is a non-empty string. *)
Definition namesNonEmpty (db : list Destination) : bool :=
  forallb (fun d => negb (bool_decide (name d = ""))) db.

(** ** The Explore page *)

Module Explore.

(** The [effectiveSearchTerm] memo.  [searchTerm] is what
    [params.get("search")] returns: a string or [null] ([None]). *)
Definition effectiveSearchTerm (searchTerm : option string) : option string :=
  match searchTerm with
  | None => None
  | Some term =>
      if bool_decide (term = "") then None              (* if (!searchTerm) return null *)
      else
        let matchResult := findBestMatch term default_threshold in
        if truthy (hasGoodMatch matchResult) && Qle_bool (82 # 100) (confidence matchResult)
        then destination matchResult
        else Some term
  end.

(** The object [{ original, corrected, confidence }]. *)
Record Correction := {
  original : string;
  corrected : option string;
  correctionConfidence : Q
}.

(** The [correctionData] memo. *)
Definition correctionData (searchTerm : option string) : option Correction :=
  match searchTerm with
  | None => None
  | Some term =>
      if negb (bool_decide (term = "")) && (2 <? String.length term) then
        let matchResult := findBestMatch term default_threshold in
        if truthy (hasGoodMatch matchResult)
           && negb (bool_decide (destination matchResult = Some term))
           && Qltb (7 # 10) (confidence matchResult)
           && Qltb (confidence matchResult) 1
        then Some {| original := term; corrected := destination matchResult;
                     correctionConfidence := confidence matchResult |}
        else None
      else None
  end.

(** The state of the photo modal. *)
Record Modal (Photo : Type) := {
  selectedPhoto : option Photo;
  photoModalIndex : nat;
  isPhotoModalOpen : bool
}.
Arguments selectedPhoto {Photo}.
Arguments photoModalIndex {Photo}.
Arguments isPhotoModalOpen {Photo}.

Section PhotoModal.
Context {Photo : Type}.

(** [photos?.results]: [None] while there is no answer. *)
Variable results : option (list Photo).

Definition handlePhotoClick (photo : Photo) (index : nat) (m : Modal Photo) : Modal Photo :=
  {| selectedPhoto := Some photo; photoModalIndex := index; isPhotoModalOpen := true |}.

Definition handlePhotoModalClose (m : Modal Photo) : Modal Photo :=
  {| selectedPhoto := None; photoModalIndex := photoModalIndex m;
     isPhotoModalOpen := false |}.

(** [photos?.results && photoModalIndex < photos.results.length - 1] *)
Definition hasNext (m : Modal Photo) : bool :=
  match results with
  | Some rs => (Z.of_nat (photoModalIndex m) <? Z.of_nat (length rs) - 1)%Z
  | None => false
  end.

(** [photoModalIndex > 0] *)
Definition hasPrev (m : Modal Photo) : bool := 0 <? photoModalIndex m.

Definition handleNextPhoto (m : Modal Photo) : Modal Photo :=
  match results with
  | Some rs =>
      if (Z.of_nat (photoModalIndex m) <? Z.of_nat (length rs) - 1)%Z then
        let nextIndex := photoModalIndex m + 1 in
        {| selectedPhoto := rs !! nextIndex; photoModalIndex := nextIndex;
           isPhotoModalOpen := isPhotoModalOpen m |}
      else m
  | None => m
  end.

Definition handlePrevPhoto (m : Modal Photo) : Modal Photo :=
  match results with
  | Some rs =>
      if 0 <? photoModalIndex m then
        let prevIndex := photoModalIndex m - 1 in
        {| selectedPhoto := rs !! prevIndex; photoModalIndex := prevIndex;
           isPhotoModalOpen := isPhotoModalOpen m |}
      else m
  | None => m
  end.

(** The key handler of the [PhotoModal] component, with the props Explore
    passes: [onClose], [onPrev], [onNext], [hasPrev], [hasNext]. *)
Definition handleKeyDown (key : string) (m : Modal Photo) : Modal Photo :=
  if negb (isPhotoModalOpen m) then m
  else if bool_decide (key = "Escape") then handlePhotoModalClose m
  else if bool_decide (key = "ArrowLeft") then
    (if hasPrev m then handlePrevPhoto m else m)
  else if bool_decide (key = "ArrowRight") then
    (if hasNext m then handleNextPhoto m else m)
  else m.

(** The modal shows the photo its index points at. *)
Definition inSync (m : Modal Photo) : Prop :=
  match results with
  | Some rs => isPhotoModalOpen m = true -> is_Some (selectedPhoto m) /\
                                           rs !! photoModalIndex m = selectedPhoto m
  | None => True
  end.

End PhotoModal.

End Explore.

(** ** The search bar with suggestions *)

Module SmartSearchBar.

(** The state cells of the component.  The selected index is [-1] when no
    suggestion is selected. *)
Record State := {
  query : string;
  barSuggestions : list Suggestion;
  showSuggestions : bool;
  isFocused : bool;
  selectedSuggestionIndex : Z
}.

(** What a handler did besides changing the state: nothing, a call
    [onSearch(x)] ([x] is a string or [null]), or, when it read a property
    of [undefined], a [TypeError]. *)
Inductive Outcome :=
| Quiet
| OnSearch (term : option string)
| TypeError.

(** The state at mount. *)
Definition initial : State :=
  {| query := EmptyString; barSuggestions := []; showSuggestions := false;
     isFocused := false; selectedSuggestionIndex := -1 |}.

(** The input's [onChange]: [setQuery(e.target.value)]. *)
Definition onChange (value : string) (s : State) : State :=
  {| query := value; barSuggestions := barSuggestions s;
     showSuggestions := showSuggestions s; isFocused := isFocused s;
     selectedSuggestionIndex := selectedSuggestionIndex s |}.

(** The debounced effect, when its timer fires. *)
Definition suggestEffect (s : State) : State :=
  if 2 <=? String.length (trim (query s)) then
    let newSuggestions := getDestinationSuggestions (trim (query s)) 5 in
    {| query := query s; barSuggestions := newSuggestions;
       showSuggestions := 0 <? length newSuggestions;
       isFocused := isFocused s;
       selectedSuggestionIndex := selectedSuggestionIndex s |}
  else
    {| query := query s; barSuggestions := []; showSuggestions := false;
       isFocused := isFocused s;
       selectedSuggestionIndex := selectedSuggestionIndex s |}.

(** [setQuery(""); setShowSuggestions(false)] *)
Definition cleared (s : State) : State :=
  {| query := ""; barSuggestions := barSuggestions s; showSuggestions := false;
     isFocused := isFocused s;
     selectedSuggestionIndex := selectedSuggestionIndex s |}.

Definition handleSubmit (s : State) : State * Outcome :=
  let searchQuery := trim (query s) in
  if bool_decide (searchQuery = "") then (s, Quiet)
  else
    let matchResult := findBestMatch searchQuery default_threshold in
    if truthy (hasGoodMatch matchResult) && Qltb (8 # 10) (confidence matchResult)
    then (cleared s, OnSearch (destination matchResult))
    else if 0 <? length (suggestions matchResult)
    then ({| query := query s; barSuggestions := barSuggestions s;
             showSuggestions := true; isFocused := isFocused s;
             selectedSuggestionIndex := selectedSuggestionIndex s |}, Quiet)
    else (cleared s, OnSearch (Some searchQuery)).

Definition handleSuggestionClick (suggestionName : string) (s : State) : State * Outcome :=
  ({| query := ""; barSuggestions := barSuggestions s; showSuggestions := false;
      isFocused := isFocused s; selectedSuggestionIndex := -1 |},
   OnSearch (Some suggestionName)).

Definition select (i : Z) (s : State) : State :=
  {| query := query s; barSuggestions := barSuggestions s;
     showSuggestions := showSuggestions s; isFocused := isFocused s;
     selectedSuggestionIndex := i |}.

(** The key handler of the input.  (On Escape the input is also blurred,
    which changes no state cell by itself.) *)
Definition handleKeyDown (key : string) (s : State) : State * Outcome :=
  if negb (showSuggestions s) || (length (barSuggestions s) =? 0) then (s, Quiet)
  else
    let prev := selectedSuggestionIndex s in
    if bool_decide (key = "ArrowDown") then
      (select (if (prev <? Z.of_nat (length (barSuggestions s)) - 1)%Z
               then prev + 1 else prev)%Z s, Quiet)
    else if bool_decide (key = "ArrowUp") then
      (select (if (0 <? prev)%Z then prev - 1 else -1)%Z s, Quiet)
    else if bool_decide (key = "Enter") then
      (if (0 <=? prev)%Z then
         match barSuggestions s !! Z.to_nat prev with
         | Some suggestion => handleSuggestionClick (sname suggestion) s
         | None => (s, TypeError)
         end
       else handleSubmit s)
    else if bool_decide (key = "Escape") then
      ({| query := query s; barSuggestions := barSuggestions s;
          showSuggestions := false; isFocused := isFocused s;
          selectedSuggestionIndex := -1 |}, Quiet)
    else (s, Quiet).

(** The selected index is [-1] or the index of a suggestion. *)
Definition selectionInRange (s : State) : Prop :=
  (-1 <= selectedSuggestionIndex s < Z.of_nat (length (barSuggestions s)))%Z.

End SmartSearchBar.

(** ** The simple search bar *)

Module SearchBar.

(** [handleSubmit]: the new [query] and the argument of [onSearch], if it
    is called. *)
Definition handleSubmit (query : string) : string * option string :=
  let q := trim query in
  if bool_decide (q = "") then (query, None)
  else ("", Some q).

End SearchBar.

(** ** The page shown when nothing was found *)

Module NoResultsFound.

(** The initial value of the [suggestions] state. *)
Definition allSuggestions (searchTerm : string) : list Suggestion :=
  let matchResult := findBestMatch searchTerm (3 # 10) in
  let basicSuggestions := getDestinationSuggestions searchTerm 3 in
  take 6 (uniqueByName (suggestions matchResult ++ basicSuggestions)%list).

End NoResultsFound.

(** ** The favourites page *)

Module Favourites.

(** A saved or recommended place.  [saved] and [type] are the two
    properties only some of the objects have. *)
Record Place := {
  placeName : string;
  emoji : string;
  note : string;
  saved : option string;
  placeType : option string
}.

(** [{ ...destination, saved: 'Just now' }] *)
Definition savedNow (destination : Place) : Place :=
  {| placeName := placeName destination; emoji := emoji destination;
     note := note destination; saved := Some "Just now";
     placeType := placeType destination |}.

(** The updater of [handleToggleFavourite], and the toast it sets. *)
Definition handleToggleFavourite (destination : Place) (prev : list Place)
    : list Place * string :=
  match List.find (fun item => bool_decide (placeName item = placeName destination)) prev with
  | Some _ =>
      (filter (fun item => placeName item <> placeName destination) prev,
       "Removed " ++ placeName destination ++ " from favourites")
  | None =>
      ((prev ++ [savedNow destination])%list,
       "Saved " ++ placeName destination ++ " to your hub!")
  end.

(** [name] is among the favourites. *)
Definition isFavourite (n : string) (favourites : list Place) : Prop :=
  exists item, item ∈ favourites /\ placeName item = n.

End Favourites.

(** * Further definitions: runs of the hook *)

(** What can happen to a mounted hook: the component is rendered (and the
    effect runs if its dependencies changed), the network answers a call,
    or [refetch] is called. *)
Inductive Event :=
| Rendered (now : Z) (p : Props)
| Answered (now : Z) (c : Call) (out : FetchOutcome)
| Refetched (p : Props).

Definition step (w : World) (e : Event) : World :=
  match e with
  | Rendered now p => (render now p w).1
  | Answered now c out => fetchNow_settled now c out w
  | Refetched p => refetch p w
  end.

Definition run (events : list Event) (w : World) : World := foldl step w events.


(** ** The abort signals *)










(** The same props with another [options] object of the same content. *)
Definition withOptionsRef (ref : nat) (p : Props) : Props :=
  {| url := url p; options := options p; optionsRef := ref; deps := deps p |}.

(** * Theorems *)

Section EditDistanceFacts.
Context {A : Type} `{EqDecision A}.
Implicit Types a b c d l r : list A.
Implicit Types n m k : nat.

Lemma editDistance_nil_l b : editDistance [] b = length b.
Proof. reflexivity. Qed.

Lemma editDistance_nil_r a : editDistance a [] = length a.
Proof. destruct a; reflexivity. Qed.

Lemma editDistance_cons x a y b :
  editDistance (x :: a) (y :: b) =
  min3 (editDistance a (y :: b) + 1) (editDistance (x :: a) b + 1)
       (editDistance a b + indicator x y).
Proof. reflexivity. Qed.

Lemma edits_all_insert b : edits [] b (length b).
Proof. induction b; simpl; constructor; assumption. Qed.

Lemma edits_all_delete a : edits a [] (length a).
Proof. induction a; simpl; constructor; assumption. Qed.

Lemma edits_refl a : edits a a 0.
Proof. induction a; constructor; assumption. Qed.

Lemma edits_zero a b : edits a b 0 -> a = b.
Proof.
  intros E. remember 0 as n eqn:Hn.
  induction E; try discriminate; [reflexivity|].
  f_equal. auto.
Qed.

Lemma edits_sym a b n : edits a b n -> edits b a n.
Proof. induction 1; constructor; assumption. Qed.

Lemma edits_app a b n c d m :
  edits a b n -> edits c d m -> edits (a ++ c) (b ++ d) (n + m).
Proof.
  intros E1 E2. induction E1; simpl; try (constructor; assumption).
  assumption.
Qed.

Lemma edits_rev a b n : edits a b n -> edits (rev a) (rev b) n.
Proof.
  induction 1; simpl.
  - constructor.
  - replace n with (n + 0) by lia. apply edits_app; [assumption|].
    repeat constructor.
  - replace (S n) with (n + 1) by lia. apply edits_app; [assumption|].
    apply edits_subst. constructor.
  - replace (S n) with (n + 1) by lia. rewrite <- (app_nil_r (rev b)).
    apply edits_app; [assumption|]. apply edits_delete. constructor.
  - replace (S n) with (n + 1) by lia. rewrite <- (app_nil_r (rev a)).
    apply edits_app; [assumption|]. apply edits_insert. constructor.
Qed.

(** The recurrence yields the cost of some script. *)
Lemma editDistance_edits a b : edits a b (editDistance a b).
Proof.
  revert b. induction a as [|x a IHa]; intros b.
  - apply edits_all_insert.
  - induction b as [|y b IHb].
    + rewrite editDistance_nil_r. apply edits_all_delete.
    + rewrite editDistance_cons. unfold min3.
      destruct (Nat.min_spec (editDistance a (y :: b) + 1) (editDistance (x :: a) b + 1))
        as [[_ ->]|[_ ->]];
      match goal with |- context [Nat.min ?u ?v] =>
        destruct (Nat.min_spec u v) as [[_ ->]|[_ ->]] end.
      * rewrite Nat.add_1_r. apply edits_delete, IHa.
      * unfold indicator. destruct (decide (x = y)) as [->|].
        -- rewrite Nat.add_0_r. apply edits_keep, IHa.
        -- rewrite Nat.add_1_r. apply edits_subst, IHa.
      * rewrite Nat.add_1_r. apply edits_insert, IHb.
      * unfold indicator. destruct (decide (x = y)) as [->|].
        -- rewrite Nat.add_0_r. apply edits_keep, IHa.
        -- rewrite Nat.add_1_r. apply edits_subst, IHa.
Qed.

(** No script is cheaper than the recurrence says. *)
Lemma editDistance_least a b n : edits a b n -> editDistance a b <= n.
Proof.
  induction 1 as [|x a b n E IH|x y a b n E IH|x a b n E IH|y a b n E IH].
  - simpl. lia.
  - rewrite editDistance_cons. unfold min3, indicator.
    rewrite decide_True by reflexivity. lia.
  - rewrite editDistance_cons. unfold min3, indicator.
    destruct (decide (x = y)); lia.
  - destruct b as [|y b].
    + rewrite editDistance_nil_r in *. simpl. lia.
    + rewrite editDistance_cons. unfold min3. lia.
  - destruct a as [|x a].
    + rewrite editDistance_nil_l in *. simpl. lia.
    + rewrite editDistance_cons. unfold min3. lia.
Qed.

Lemma editStep_cons x a b : editStep a b -> editStep (x :: a) (x :: b).
Proof.
  intros [l y r|l y r|l y z r].
  - apply (step_insert (x :: l)).
  - apply (step_delete (x :: l)).
  - apply (step_subst (x :: l)).
Qed.

Lemma transforms_cons x n a b : transforms n a b -> transforms n (x :: a) (x :: b).
Proof.
  induction 1 as [a|n a b c Hs Ht IH].
  - constructor.
  - econstructor; [apply editStep_cons; exact Hs | exact IH].
Qed.

Lemma edits_transforms a b n : edits a b n -> transforms n a b.
Proof.
  induction 1 as [|x a b n E IH|x y a b n E IH|x a b n E IH|y a b n E IH].
  - constructor.
  - apply transforms_cons, IH.
  - apply (transforms_step _ _ (y :: a)).
    + apply (step_subst [] x y a).
    + apply transforms_cons, IH.
  - apply (transforms_step _ _ a); [apply (step_delete [] x a) | exact IH].
  - apply (transforms_step _ _ (y :: a)).
    + apply (step_insert [] y a).
    + apply transforms_cons, IH.
Qed.

Lemma edits_trans a b n :
  edits a b n -> forall c m, edits b c m -> exists k, k <= n + m /\ edits a c k.
Proof.
  induction 1 as [|x a b n E IH|x y a b n E IH|x a b n E IH|y a b n E IH];
    intros c m E2.
  - exists m. split; [lia | exact E2].
  - remember (x :: b) as b0 eqn:Hb. revert Hb.
    induction E2 as [|x' b' c m E2 _|x' y' b' c m E2 _|x' b' c m E2 _|y' b' c m E2 IH2];
      intros Hb; try discriminate.
    + injection Hb as -> ->. destruct (IH _ _ E2) as (k & Hk & Ek).
      exists k. split; [lia | constructor; exact Ek].
    + injection Hb as -> ->. destruct (IH _ _ E2) as (k & Hk & Ek).
      exists (S k). split; [lia | constructor; exact Ek].
    + injection Hb as -> ->. destruct (IH _ _ E2) as (k & Hk & Ek).
      exists (S k). split; [lia | constructor; exact Ek].
    + destruct (IH2 Hb) as (k & Hk & Ek).
      exists (S k). split; [lia | constructor; exact Ek].
  - remember (y :: b) as b0 eqn:Hb. revert Hb.
    induction E2 as [|x' b' c m E2 _|x' y' b' c m E2 _|x' b' c m E2 _|y' b' c m E2 IH2];
      intros Hb; try discriminate.
    + injection Hb as -> ->. destruct (IH _ _ E2) as (k & Hk & Ek).
      exists (S k). split; [lia | constructor; exact Ek].
    + injection Hb as -> ->. destruct (IH _ _ E2) as (k & Hk & Ek).
      exists (S k). split; [lia | constructor; exact Ek].
    + injection Hb as -> ->. destruct (IH _ _ E2) as (k & Hk & Ek).
      exists (S k). split; [lia | constructor; exact Ek].
    + destruct (IH2 Hb) as (k & Hk & Ek).
      exists (S k). split; [lia | constructor; exact Ek].
  - destruct (IH _ _ E2) as (k & Hk & Ek).
    exists (S k). split; [lia | constructor; exact Ek].
  - remember (y :: b) as b0 eqn:Hb. revert Hb.
    induction E2 as [|x' b' c m E2 _|x' y' b' c m E2 _|x' b' c m E2 _|y' b' c m E2 IH2];
      intros Hb; try discriminate.
    + injection Hb as -> ->. destruct (IH _ _ E2) as (k & Hk & Ek).
      exists (S k). split; [lia | constructor; exact Ek].
    + injection Hb as -> ->. destruct (IH _ _ E2) as (k & Hk & Ek).
      exists (S k). split; [lia | constructor; exact Ek].
    + injection Hb as -> ->. destruct (IH _ _ E2) as (k & Hk & Ek).
      exists k. split; [lia | exact Ek].
    + destruct (IH2 Hb) as (k & Hk & Ek).
      exists (S k). split; [lia | constructor; exact Ek].
Qed.

Lemma editStep_edits a b : editStep a b -> edits a b 1.
Proof.
  intros [l x r|l x r|l x y r];
    apply (edits_app l l 0 _ _ 1 (edits_refl l)); constructor; apply edits_refl.
Qed.

Lemma transforms_edits n a b : transforms n a b -> exists k, k <= n /\ edits a b k.
Proof.
  induction 1 as [a|n a b c Hs Ht (k & Hk & Ek)].
  - exists 0. split; [lia | apply edits_refl].
  - destruct (edits_trans _ _ _ (editStep_edits _ _ Hs) _ _ Ek) as (k' & Hk' & Ek').
    exists k'. split; [lia | exact Ek'].
Qed.

Lemma editDistance_transforms a b :
  transforms (editDistance a b) a b /\
  forall n, transforms n a b -> editDistance a b <= n.
Proof.
  split.
  - apply edits_transforms, editDistance_edits.
  - intros n Ht. destruct (transforms_edits _ _ _ Ht) as (k & Hk & Ek).
    apply editDistance_least in Ek. lia.
Qed.

Lemma editDistance_is_edit_distance a b : is_edit_distance a b (editDistance a b).
Proof. apply editDistance_transforms. Qed.

Lemma is_edit_distance_unique a b (d1 d2 : nat) :
  is_edit_distance a b d1 -> is_edit_distance a b d2 -> d1 = d2.
Proof.
  intros [E1 L1] [E2 L2]. apply Nat.le_antisymm; auto.
Qed.

Lemma editDistance_sym a b : editDistance a b = editDistance b a.
Proof.
  apply Nat.le_antisymm; apply editDistance_least, edits_sym, editDistance_edits.
Qed.

Lemma editDistance_rev a b : editDistance (rev a) (rev b) = editDistance a b.
Proof.
  apply Nat.le_antisymm.
  - apply editDistance_least, edits_rev, editDistance_edits.
  - pose proof (editDistance_least _ _ _
      (edits_rev _ _ _ (editDistance_edits (rev a) (rev b)))) as H1.
    rewrite !rev_involutive in H1. exact H1.
Qed.

(** The same recurrence, on the last characters: the form the matrix
    of [levenshteinDistance] is filled by. *)
Lemma editDistance_snoc a x b y :
  editDistance (a ++ [x]) (b ++ [y]) =
  min3 (editDistance a (b ++ [y]) + 1) (editDistance (a ++ [x]) b + 1)
       (editDistance a b + indicator x y).
Proof.
  rewrite <- (editDistance_rev (a ++ [x]) (b ++ [y])).
  rewrite <- (editDistance_rev a (b ++ [y])).
  rewrite <- (editDistance_rev (a ++ [x]) b).
  rewrite <- (editDistance_rev a b).
  rewrite !rev_unit. apply editDistance_cons.
Qed.

Lemma editDistance_zero a b : editDistance a b = 0 <-> a = b.
Proof.
  split.
  - intros E. apply edits_zero. rewrite <- E. apply editDistance_edits.
  - intros ->. apply Nat.le_antisymm; [|lia].
    apply editDistance_least, edits_refl.
Qed.

End EditDistanceFacts.

(** ** The matrix of [levenshteinDistance] holds edit distances *)

Lemma foldl_seq_invariant {B} (f : B -> nat -> B) (Inv : nat -> B -> Prop) len :
  forall start b,
    Inv start b ->
    (forall k b', start <= k < start + len -> Inv k b' -> Inv (S k) (f b' k)) ->
    Inv (start + len) (foldl f b (seq start len)).
Proof.
  induction len as [|len IH]; intros start b H0 Hstep; simpl.
  - rewrite Nat.add_0_r. exact H0.
  - replace (start + S len) with (S start + len) by lia.
    apply IH.
    + apply Hstep; [lia | exact H0].
    + intros k b' Hk. apply Hstep. lia.
Qed.

Section MatrixFacts.
Variables rows cols : nat.

Lemma shaped_new : shaped rows cols (new_matrix rows cols).
Proof.
  split.
  - apply length_replicate.
  - intros j row Hj. apply lookup_replicate in Hj as [-> _].
    apply length_replicate.
Qed.

Lemma shaped_mset mx j i v : shaped rows cols mx -> shaped rows cols (mset mx j i v).
Proof.
  intros [Hr Hc]. unfold mset. destruct (mx !! j) as [row|] eqn:Hj; [|split; assumption].
  split.
  - rewrite length_insert. exact Hr.
  - intros j' row' Hj'. destruct (decide (j' = j)) as [->|Hne].
    + rewrite list_lookup_insert_eq in Hj' by (eapply lookup_lt_Some; eassumption).
      injection Hj' as <-. rewrite length_insert. eauto.
    + rewrite list_lookup_insert_ne in Hj' by congruence. eauto.
Qed.

Lemma mget_mset mx j i v j' i' :
  shaped rows cols mx -> j < rows -> i < cols ->
  mget (mset mx j i v) j' i' =
  if decide (j' = j /\ i' = i) then v else mget mx j' i'.
Proof.
  intros [Hr Hc] Hj Hi. unfold mset, mget.
  destruct (lookup_lt_is_Some_2 mx j) as [row Hrow]; [lia|].
  rewrite Hrow. pose proof (Hc _ _ Hrow) as Hlen.
  destruct (decide (j' = j)) as [->|Hne].
  - rewrite list_lookup_insert_eq by lia.
    destruct (decide (i' = i)) as [->|Hne'].
    + rewrite list_lookup_insert_eq by lia.
      rewrite decide_True by tauto. reflexivity.
    + rewrite list_lookup_insert_ne by congruence.
      rewrite decide_False by tauto. rewrite Hrow. reflexivity.
  - rewrite list_lookup_insert_ne by congruence.
    rewrite decide_False by tauto. reflexivity.
Qed.

End MatrixFacts.

Section LevMatrix.
Variables s1 s2 : list ascii.

Let n := length s1.
Let m := length s2.

Lemma prefixDistance_0_r i : i <= n -> prefixDistance s1 s2 i 0 = i.
Proof.
  intros Hi. unfold prefixDistance. rewrite take_0, editDistance_nil_r.
  rewrite length_take. fold n. lia.
Qed.

Lemma prefixDistance_0_l j : j <= m -> prefixDistance s1 s2 0 j = j.
Proof.
  intros Hj. unfold prefixDistance. rewrite take_0, editDistance_nil_l.
  rewrite length_take. fold m. lia.
Qed.

Lemma prefixDistance_step i j :
  1 <= i <= n -> 1 <= j <= m ->
  prefixDistance s1 s2 i j =
  min3 (prefixDistance s1 s2 (i - 1) j + 1) (prefixDistance s1 s2 i (j - 1) + 1)
       (prefixDistance s1 s2 (i - 1) (j - 1)
        + if decide (s1 !! (i - 1) = s2 !! (j - 1)) then 0 else 1).
Proof.
  intros Hi Hj. unfold prefixDistance.
  destruct (lookup_lt_is_Some_2 s1 (i - 1)) as [x Hx]; [fold n; lia|].
  destruct (lookup_lt_is_Some_2 s2 (j - 1)) as [y Hy]; [fold m; lia|].
  replace i with (S (i - 1)) at 1 3 by lia.
  replace j with (S (j - 1)) at 1 2 by lia.
  rewrite (take_S_r _ _ _ Hx), (take_S_r _ _ _ Hy).
  rewrite editDistance_snoc. rewrite Hx, Hy. unfold indicator.
  destruct (decide (x = y)) as [->|Hne].
  - rewrite decide_True by reflexivity. reflexivity.
  - rewrite decide_False by congruence. reflexivity.
Qed.

(** After the first loop: row 0. *)
Lemma lev_first_row :
  filled s1 s2 (fun j i => j = 0)
    (foldl (fun mx i => mset mx 0 i i) (new_matrix (S m) (S n)) (seq 0 (S n))).
Proof.
  pose (Inv := fun (k : nat) (mx : Matrix) =>
    shaped (S m) (S n) mx /\ forall i, i < k -> mget mx 0 i = i).
  assert (Inv (0 + S n) (foldl (fun mx i => mset mx 0 i i)
                           (new_matrix (S m) (S n)) (seq 0 (S n)))) as [Hs Hv].
  { apply foldl_seq_invariant.
    - split; [apply shaped_new | intros; lia].
    - intros k mx Hk [Hs Hv]. split; [apply shaped_mset, Hs|].
      intros i Hi. rewrite (mget_mset _ _ _ _ _ _ _ _ Hs) by lia.
      case_decide as Hd; [lia|]. apply Hv. lia. }
  split; [exact Hs|]. intros j i Hj Hi ->.
  rewrite prefixDistance_0_r by lia. apply Hv. lia.
Qed.

(** After the second loop: row 0 and column 0. *)
Lemma lev_first_column mx :
  filled s1 s2 (fun j i => j = 0) mx ->
  filled s1 s2 (fun j i => j = 0 \/ i = 0)
    (foldl (fun mx j => mset mx j 0 j) mx (seq 0 (S m))).
Proof.
  intros [Hs0 Hv0].
  pose (Inv := fun (k : nat) (mx : Matrix) =>
    shaped (S m) (S n) mx /\
    forall j i, j <= m -> i <= n -> j = 0 \/ (i = 0 /\ j < k) ->
                mget mx j i = prefixDistance s1 s2 i j).
  assert (Inv (0 + S m) (foldl (fun mx j => mset mx j 0 j) mx (seq 0 (S m)))) as [Hs Hv].
  { apply foldl_seq_invariant.
    - split; [exact Hs0|]. intros j i Hj Hi [->|[_ Hk]]; [|lia]. apply Hv0; auto.
    - intros k mx' Hk [Hs Hv]. split; [apply shaped_mset, Hs|].
      intros j i Hj Hi Hc. rewrite (mget_mset _ _ _ _ _ _ _ _ Hs) by lia.
      case_decide as Hd.
      + destruct Hd as [-> ->]. rewrite prefixDistance_0_l; lia.
      + apply Hv; [lia..|]. destruct Hc as [->|[-> Hlt]]; [tauto|].
        right. split; [reflexivity|]. lia. }
  split; [exact Hs|]. intros j i Hj Hi Hc. apply Hv; [lia..|].
  destruct Hc as [-> | ->]; [tauto|]. right. lia.
Qed.

(** One row of the third loop. *)
Lemma lev_row_filled mx j :
  1 <= j <= m ->
  filled s1 s2 (fun j' i => j' < j \/ i = 0) mx ->
  filled s1 s2 (fun j' i => j' < S j \/ i = 0) (lev_row s1 s2 mx j).
Proof.
  intros Hj [Hs0 Hv0]. unfold lev_row. fold n.
  pose (Inv := fun (k : nat) (mx : Matrix) =>
    shaped (S m) (S n) mx /\
    forall j' i, j' <= m -> i <= n -> j' < j \/ i = 0 \/ (j' = j /\ i < k) ->
                 mget mx j' i = prefixDistance s1 s2 i j').
  assert (Inv (1 + n) (foldl (lev_cell s1 s2 j) mx (seq 1 n))) as [Hs Hv].
  { apply foldl_seq_invariant.
    - split; [exact Hs0|]. intros j' i Hj' Hi Hc. apply Hv0; [lia..|].
      destruct Hc as [Hc|[Hc|[_ Hc]]]; [tauto|tauto|]. right. lia.
    - intros k mx' Hk [Hs Hv]. split; [apply shaped_mset, Hs|].
      intros j' i Hj' Hi Hc. unfold lev_cell.
      rewrite (mget_mset _ _ _ _ _ _ _ _ Hs) by lia.
      case_decide as Hd.
      + destruct Hd as [-> ->].
        rewrite (prefixDistance_step k j) by lia.
        rewrite !Hv by lia. reflexivity.
      + apply Hv; [lia..|]. destruct Hc as [Hc|[Hc|[-> Hlt]]]; [tauto|tauto|].
        right. right. split; [reflexivity|]. lia. }
  split; [exact Hs|]. intros j' i Hj' Hi Hc. apply Hv; [lia..|].
  destruct Hc as [Hlt | ->]; [|tauto].
  destruct (decide (j' = j)) as [->|]; [|left; lia]. right. right. lia.
Qed.

(** Every cell the source reads was written before, and the finished
    matrix holds the distance of every pair of prefixes. *)
Lemma lev_fill : filled s1 s2 (fun _ _ => True) (lev_matrix s1 s2).
Proof.
  unfold lev_matrix. fold n m.
  pose (Inv := fun (k : nat) (mx : Matrix) => filled s1 s2 (fun j' i => j' < k \/ i = 0) mx).
  assert (Inv (1 + m)
    (foldl (lev_row s1 s2)
       (foldl (fun mx j => mset mx j 0 j)
          (foldl (fun mx i => mset mx 0 i i) (new_matrix (S m) (S n)) (seq 0 (S n)))
          (seq 0 (S m)))
       (seq 1 m))) as [Hs Hv].
  { apply foldl_seq_invariant.
    - destruct (lev_first_column _ lev_first_row) as [Hs Hv].
      split; [exact Hs|]. intros j i Hj Hi Hc. apply Hv; [lia..|].
      destruct Hc; [left; lia | tauto].
    - intros k mx' Hk HI. apply lev_row_filled; [lia | exact HI]. }
  split; [exact Hs|]. intros j i Hj Hi _. apply Hv; [lia..|]. left. lia.
Qed.

End LevMatrix.

(** [levenshteinDistance] computes the recurrence of [editDistance]. *)
Lemma levenshteinDistance_editDistance str1 str2 :
  levenshteinDistance str1 str2 = editDistance (chars str1) (chars str2).
Proof.
  unfold levenshteinDistance.
  destruct (lev_fill (chars str1) (chars str2)) as [_ Hv].
  rewrite Hv by auto. unfold prefixDistance.
  rewrite !firstn_all. reflexivity.
Qed.

(** ** Strings *)

Lemma chars_length s : length (chars s) = String.length s.
Proof. induction s; simpl; congruence. Qed.

Lemma chars_inj s t : chars s = chars t -> s = t.
Proof.
  intros E. rewrite <- (string_of_list_ascii_of_string s),
    <- (string_of_list_ascii_of_string t).
  unfold chars in E. congruence.
Qed.

Lemma lower_char_idem c : lower_char (lower_char c) = lower_char c.
Proof. destruct c as [[] [] [] [] [] [] [] []]; reflexivity. Qed.

Lemma is_ws_lower_char c : is_ws (lower_char c) = is_ws c.
Proof. destruct c as [[] [] [] [] [] [] [] []]; reflexivity. Qed.

Lemma toLowerCase_idem s : toLowerCase (toLowerCase s) = toLowerCase s.
Proof. induction s; simpl; [reflexivity|]. rewrite lower_char_idem. congruence. Qed.

Lemma toLowerCase_length s : String.length (toLowerCase s) = String.length s.
Proof. induction s; simpl; congruence. Qed.

Lemma toLowerCase_trimStart s : toLowerCase (trimStart s) = trimStart (toLowerCase s).
Proof.
  induction s as [|c s IH]; simpl; [reflexivity|].
  rewrite is_ws_lower_char. destruct (is_ws c); [exact IH | reflexivity].
Qed.

Lemma toLowerCase_trimEnd s : toLowerCase (trimEnd s) = trimEnd (toLowerCase s).
Proof.
  induction s as [|c s IH]; simpl; [reflexivity|].
  rewrite <- IH, is_ws_lower_char.
  destruct (trimEnd s); simpl; [destruct (is_ws c)|]; reflexivity.
Qed.

Lemma toLowerCase_trim s : toLowerCase (trim s) = trim (toLowerCase s).
Proof. unfold trim. rewrite toLowerCase_trimEnd, toLowerCase_trimStart. reflexivity. Qed.

(** The query [findBestMatch] compares with is in lower case. *)
Lemma queryLower_is_lower query :
  toLowerCase (trim (toLowerCase query)) = trim (toLowerCase query).
Proof. rewrite toLowerCase_trim, toLowerCase_idem. reflexivity. Qed.

(** ** Similarity *)

Lemma levenshteinDistance_sym a b : levenshteinDistance a b = levenshteinDistance b a.
Proof. rewrite !levenshteinDistance_editDistance. apply editDistance_sym. Qed.

Lemma levenshteinDistance_zero a b : levenshteinDistance a b = 0 <-> a = b.
Proof.
  rewrite levenshteinDistance_editDistance, editDistance_zero.
  split; [apply chars_inj | congruence].
Qed.

Lemma calculateSimilarity_sym a b : calculateSimilarity a b = calculateSimilarity b a.
Proof.
  unfold calculateSimilarity.
  rewrite (Nat.max_comm (String.length b)), (levenshteinDistance_sym (toLowerCase b)).
  reflexivity.
Qed.

Lemma calculateSimilarity_empty : calculateSimilarity "" "" = 1%Q.
Proof. reflexivity. Qed.

Lemma calculateSimilarity_case a a' b b' :
  toLowerCase a = toLowerCase a' -> toLowerCase b = toLowerCase b' ->
  calculateSimilarity a b = calculateSimilarity a' b'.
Proof.
  intros Ea Eb. unfold calculateSimilarity.
  rewrite <- (toLowerCase_length a), <- (toLowerCase_length b), Ea, Eb,
    !toLowerCase_length.
  reflexivity.
Qed.

Lemma calculateSimilarity_spec a b :
  calculateSimilarity a b =
  similarity_spec a b (editDistance (chars (toLowerCase a)) (chars (toLowerCase b))).
Proof.
  unfold calculateSimilarity, similarity_spec.
  rewrite levenshteinDistance_editDistance.
  destruct (Nat.eqb_spec (Nat.max (String.length a) (String.length b)) 0) as [E|]; [|reflexivity].
  rewrite E.
  assert (String.length a = 0 /\ String.length b = 0) as [Ha Hb] by lia.
  destruct a; [|discriminate]. destruct b; [|discriminate]. reflexivity.
Qed.

Lemma Qnat_pos n : 0 < n -> (0 < Qnat n)%Q.
Proof.
  intros Hn. unfold Qnat, Qlt. simpl. lia.
Qed.

(** Two strings that differ after lower-casing score below one. *)
Lemma calculateSimilarity_lt_1 a b :
  toLowerCase a <> toLowerCase b -> (calculateSimilarity a b < 1)%Q.
Proof.
  intros Hne. unfold calculateSimilarity.
  destruct (Nat.eqb_spec (Nat.max (String.length a) (String.length b)) 0) as [E|Hm].
  - exfalso. apply Hne.
    assert (String.length a = 0 /\ String.length b = 0) as [Ha Hb] by lia.
    destruct a; [|discriminate]. destruct b; [|discriminate]. reflexivity.
  - assert (0 < levenshteinDistance (toLowerCase a) (toLowerCase b)) as Hd.
    { destruct (levenshteinDistance (toLowerCase a) (toLowerCase b)) eqn:E; [|lia].
      apply levenshteinDistance_zero in E. contradiction. }
    assert (0 < Qnat (levenshteinDistance (toLowerCase a) (toLowerCase b))
                / Qnat (Nat.max (String.length a) (String.length b)))%Q as Hq.
    { apply Qlt_shift_div_l; [apply Qnat_pos; lia|].
      rewrite Qmult_0_l. apply Qnat_pos, Hd. }
    lra.
Qed.

(** Claim C5.  The similarity of [a] and [b] is one minus the edit distance
    of their lower-cased forms over the longer of their two lengths, where
    the edit distance is the least number of single-character insertions,
    deletions and substitutions that turn the whole of one string into the
    other.  Two empty strings have similarity one.  The similarity and the
    distance are symmetric, and the similarity does not depend on the case
    of either string. *)
Theorem calculateSimilarity_is_normalized_edit_distance :
  forall a b : string,
    (exists d,
        is_edit_distance (chars (toLowerCase a)) (chars (toLowerCase b)) d /\
        calculateSimilarity a b = similarity_spec a b d) /\
    calculateSimilarity "" "" = 1%Q /\
    calculateSimilarity a b = calculateSimilarity b a /\
    levenshteinDistance a b = levenshteinDistance b a /\
    calculateSimilarity (toLowerCase a) (toLowerCase b) = calculateSimilarity a b /\
    (forall a' b', toLowerCase a = toLowerCase a' -> toLowerCase b = toLowerCase b' ->
                   calculateSimilarity a b = calculateSimilarity a' b').
Proof.
  intros a b. split; [|split; [|split; [|split; [|split]]]].
  - exists (editDistance (chars (toLowerCase a)) (chars (toLowerCase b))). split.
    + apply editDistance_is_edit_distance.
    + apply calculateSimilarity_spec.
  - reflexivity.
  - apply calculateSimilarity_sym.
  - apply levenshteinDistance_sym.
  - apply calculateSimilarity_case; apply toLowerCase_idem.
  - intros a' b'. apply calculateSimilarity_case.
Qed.

(** ** Comparisons of scores *)

Lemma Qltb_true x y : Qltb x y = true <-> (x < y)%Q.
Proof.
  unfold Qltb. rewrite negb_true_iff. split.
  - intros H. apply Qnot_le_lt. intros Hle. apply Qle_bool_iff in Hle. congruence.
  - intros H. destruct (Qle_bool y x) eqn:E; [|reflexivity].
    apply Qle_bool_iff in E. exfalso. exact (Qlt_not_le _ _ H E).
Qed.

Lemma Qle_bool_false x y : Qle_bool x y = false -> (y <= x)%Q.
Proof.
  intros H. apply Qlt_le_weak, Qnot_le_lt. intros Hle.
  apply Qle_bool_iff in Hle. congruence.
Qed.

(** ** Array helpers *)

Lemma findIndex_Some {A} (p : A -> bool) (l : list A) i :
  findIndex p l = Some i <->
  (exists x, l !! i = Some x /\ p x = true) /\
  (forall j y, j < i -> l !! j = Some y -> p y = false).
Proof.
  revert i. induction l as [|x l IH]; intros i; simpl.
  - split; [discriminate|]. intros [[y [Hy _]] _]. discriminate.
  - destruct (p x) eqn:Hp.
    + split.
      * intros [= <-]. split; [eauto|]. intros j y Hj. lia.
      * intros [[y [Hy Hpy]] Hfirst]. destruct i as [|i]; [reflexivity|].
        specialize (Hfirst 0 x ltac:(lia) eq_refl). congruence.
    + rewrite fmap_Some. split.
      * intros (k & Hk & ->). apply IH in Hk as [Hx Hfirst]. split; [exact Hx|].
        intros [|j] y Hj Hy; simpl in Hy; [congruence|].
        apply (Hfirst j); [lia | exact Hy].
      * intros [[y [Hy Hpy]] Hfirst]. destruct i as [|i]; simpl in Hy; [congruence|].
        exists i. split; [|reflexivity]. apply IH. split; [eauto|].
        intros j z Hj Hz. apply (Hfirst (S j)); [lia | exact Hz].
Qed.

Lemma StronglySorted_sublist {A} (R : relation A) (l1 l2 : list A) :
  l1 `sublist_of` l2 -> StronglySorted R l2 -> StronglySorted R l1.
Proof.
  induction 1 as [|x l1 l2 Hsub IH|x l1 l2 Hsub IH]; intros Hs.
  - constructor.
  - apply StronglySorted_inv in Hs as [Hs Hall]. constructor; [auto|].
    apply Forall_forall. intros y Hy. rewrite Forall_forall in Hall.
    apply Hall. eapply sublist_subseteq; eassumption.
  - apply StronglySorted_inv in Hs as [Hs _]. auto.
Qed.

Lemma slice0_sublist {A} e (l : list A) : slice0 e l `sublist_of` l.
Proof. unfold slice0. destruct (e <? 0)%Z; apply sublist_take. Qed.

Lemma slice0_length {A} e (l : list A) :
  (0 <= e)%Z -> length (slice0 e l) <= Z.to_nat e.
Proof.
  intros He. unfold slice0. destruct (Z.ltb_spec e 0); [lia|].
  rewrite length_take. lia.
Qed.

(** ** [uniqueByName] *)

Lemma snd_imap_pair {A} (l : list A) : (imap pair l).*2 = l.
Proof.
  apply list_eq. intros i. rewrite list_lookup_fmap, list_lookup_imap.
  destruct (l !! i); reflexivity.
Qed.

Lemma NoDup_imap_pair {A} (l : list A) : NoDup (imap pair l).
Proof.
  apply NoDup_alt. intros i j [k x] Hi Hj.
  rewrite list_lookup_imap in Hi, Hj.
  destruct (l !! i); destruct (l !! j); simpl in *; congruence.
Qed.

Lemma sublist_fmap {A B} (f : A -> B) (l1 l2 : list A) :
  l1 `sublist_of` l2 -> f <$> l1 `sublist_of` f <$> l2.
Proof. induction 1; simpl; constructor; assumption. Qed.

Lemma elem_of_uniqueByName l x :
  x ∈ uniqueByName l <->
  exists i, l !! i = Some x /\ findIndex (sameName x) l = Some i.
Proof.
  unfold uniqueByName. rewrite list_elem_of_fmap. split.
  - intros [[i y] [-> Hin]]. apply list_elem_of_filter in Hin as [Hf Hin].
    apply elem_of_lookup_imap in Hin as (j & z & [= -> ->] & Hz).
    exists j. split; [exact Hz | exact Hf].
  - intros (i & Hx & Hf). exists (i, x). split; [reflexivity|].
    apply list_elem_of_filter. split; [exact Hf|].
    apply elem_of_lookup_imap. eauto.
Qed.

Lemma uniqueByName_sublist l : uniqueByName l `sublist_of` l.
Proof.
  unfold uniqueByName. rewrite <- (snd_imap_pair l) at 2.
  apply sublist_fmap, sublist_filter.
Qed.

Lemma uniqueByName_NoDup l : NoDup (sname <$> uniqueByName l).
Proof.
  unfold uniqueByName. rewrite <- list_fmap_compose.
  apply NoDup_fmap_2_strong.
  - intros [i x] [j y] Hx Hy Hname. simpl in Hname.
    apply list_elem_of_filter in Hx as [Hfx Hx], Hy as [Hfy Hy].
    apply elem_of_lookup_imap in Hx as (i' & x' & [= <- <-] & Hix).
    apply elem_of_lookup_imap in Hy as (j' & y' & [= <- <-] & Hjy).
    simpl in Hfx, Hfy.
    assert (i = j) as ->.
    { unfold sameName in Hfx, Hfy. rewrite Hname in Hfx. congruence. }
    congruence.
  - apply NoDup_filter, NoDup_imap_pair.
Qed.

(** A kept suggestion is the first of its name. *)
Lemma uniqueByName_first l x :
  x ∈ uniqueByName l ->
  exists i, l !! i = Some x /\
            forall j y, j < i -> l !! j = Some y -> sname y <> sname x.
Proof.
  intros Hx. apply elem_of_uniqueByName in Hx as (i & Hi & Hf).
  exists i. split; [exact Hi|]. apply findIndex_Some in Hf as [_ Hfirst].
  intros j y Hj Hy Hn. specialize (Hfirst j y Hj Hy).
  unfold sameName in Hfirst. rewrite bool_decide_eq_false in Hfirst. auto.
Qed.

(** ** [sortBySimilarity] *)

Lemma insertBySimilarity_perm x l : insertBySimilarity x l ≡ₚ x :: l.
Proof.
  induction l as [|y l IH]; simpl; [reflexivity|].
  destruct (Qle_bool (similarity y) (similarity x)); [reflexivity|].
  rewrite IH. apply perm_swap.
Qed.

Lemma sortBySimilarity_perm l : sortBySimilarity l ≡ₚ l.
Proof.
  induction l as [|x l IH]; simpl; [reflexivity|].
  rewrite insertBySimilarity_perm, IH. reflexivity.
Qed.

Lemma insertBySimilarity_descending x l :
  descending l -> descending (insertBySimilarity x l).
Proof.
  unfold descending. induction l as [|y l IH]; intros Hs; simpl.
  - repeat constructor.
  - apply StronglySorted_inv in Hs as [Hs Hall].
    destruct (Qle_bool (similarity y) (similarity x)) eqn:E.
    + apply Qle_bool_iff in E. constructor; [constructor; assumption|].
      constructor; [exact E|].
      eapply Forall_impl; [exact Hall|]. simpl. intros z Hz.
      eapply Qle_trans; eassumption.
    + apply Qle_bool_false in E. constructor; [auto|].
      rewrite insertBySimilarity_perm. constructor; assumption.
Qed.

Lemma sortBySimilarity_descending l : descending (sortBySimilarity l).
Proof.
  induction l as [|x l IH]; simpl.
  - constructor.
  - apply insertBySimilarity_descending, IH.
Qed.

(** In a descending list the first suggestion of a name is the most
    similar one of that name. *)
Lemma descending_first_best l i x :
  descending l -> l !! i = Some x ->
  (forall j y, j < i -> l !! j = Some y -> sname y <> sname x) ->
  forall y, y ∈ l -> sname y = sname x -> (similarity y <= similarity x)%Q.
Proof.
  intros Hs Hi Hfirst y Hy Hname.
  apply list_elem_of_lookup in Hy as [j Hj].
  destruct (decide (j < i)) as [Hlt|Hge].
  - exfalso. exact (Hfirst j y Hlt Hj Hname).
  - destruct (decide (j = i)) as [->|Hne].
    + assert (y = x) as -> by congruence. apply Qle_refl.
    + rewrite <- (take_drop_middle l i x Hi) in Hs, Hj.
      apply StronglySorted_app_1_r in Hs.
      apply StronglySorted_inv in Hs as [_ Hall].
      rewrite Forall_forall in Hall. apply Hall.
      rewrite lookup_app_r in Hj by (rewrite length_take; lia).
      rewrite length_take in Hj.
      assert (Init.Nat.min i (length l) = i) as Hmin.
      { apply lookup_lt_Some in Hi. lia. }
      rewrite Hmin in Hj.
      destruct (j - i) as [|k] eqn:Hk; [lia|]. simpl in Hj.
      eapply list_elem_of_lookup_2; eassumption.
Qed.

(** ** The loops of [findBestMatch] *)

Section ScanFacts.
Variables (q : string) (th : Q).

(** The early return happens at the first record that lists the query. *)
Lemma scanDestinations_exact ds st d :
  ownerOf ds q = Some d -> scanDestinations q th ds st = inl (exactResult d).
Proof.
  revert st. induction ds as [|d0 ds IH]; intros st; simpl; [discriminate|].
  destruct (bool_decide (q ∈ variations d0)).
  - intros [= ->]. reflexivity.
  - intros Hd. apply IH, Hd.
Qed.

Lemma scanDestinations_inl ds st r :
  scanDestinations q th ds st = inl r ->
  exists d, d ∈ ds /\ q ∈ variations d /\ r = exactResult d.
Proof.
  revert st. induction ds as [|d0 ds IH]; intros st; simpl; [discriminate|].
  destruct (bool_decide (q ∈ variations d0)) eqn:E.
  - intros [= <-]. exists d0. apply bool_decide_eq_true in E.
    split; [left | split; [exact E | reflexivity]].
  - intros Hr. destruct (IH _ Hr) as (d & Hd & Hq & ->).
    exists d. split; [right; exact Hd | split; [exact Hq | reflexivity]].
Qed.

Lemma scanVariation_below1 d st v :
  toLowerCase q = q -> toLowerCase v = v -> q <> v ->
  below1 st -> below1 (scanVariation q th d st v).
Proof.
  intros Hq Hv Hne [Hb Hf].
  assert (calculateSimilarity q v < 1)%Q as Hsim.
  { apply calculateSimilarity_lt_1. congruence. }
  unfold scanVariation.
  destruct (Qltb (bestScore st) (calculateSimilarity q v));
    destruct (Qle_bool th (calculateSimilarity q v) && Qltb (calculateSimilarity q v) 1);
    split; simpl; try assumption;
    apply Forall_app; (split; [assumption|]); repeat constructor; exact Hsim.
Qed.

Lemma scanVariations_below1 d vs st :
  toLowerCase q = q -> (forall v, v ∈ vs -> toLowerCase v = v) -> q ∉ vs ->
  below1 st -> below1 (foldl (scanVariation q th d) st vs).
Proof.
  intros Hq. revert st. induction vs as [|v vs IH]; intros st Hlow Hnot Hst; simpl.
  - exact Hst.
  - apply IH.
    + intros v' Hv'. apply Hlow. right. exact Hv'.
    + intros Hin. apply Hnot. right. exact Hin.
    + apply scanVariation_below1; [exact Hq | apply Hlow; left | | exact Hst].
      intros ->. apply Hnot. left.
Qed.

Lemma scanDestinations_below1 ds st st' :
  toLowerCase q = q ->
  (forall d v, d ∈ ds -> v ∈ variations d -> toLowerCase v = v) ->
  below1 st -> scanDestinations q th ds st = inr st' -> below1 st'.
Proof.
  intros Hq. revert st. induction ds as [|d ds IH]; intros st Hlow Hst; simpl.
  - intros [= <-]. exact Hst.
  - destruct (bool_decide (q ∈ variations d)) eqn:E; [discriminate|].
    apply bool_decide_eq_false in E. apply IH.
    + intros d' v Hd'. apply Hlow. right. exact Hd'.
    + apply scanVariations_below1; [exact Hq | | exact E | exact Hst].
      intros v Hv. apply (Hlow d v); [left | exact Hv].
Qed.

End ScanFacts.

(** ** The table *)

Lemma variationsOwned_spec db :
  variationsOwned db = true ->
  forall d v, d ∈ db -> v ∈ variations d -> ownerOf db v = Some d.
Proof.
  unfold variationsOwned. rewrite forallb_forall. intros H d v Hd Hv.
  apply list_elem_of_In in Hd, Hv. specialize (H d Hd).
  rewrite forallb_forall in H. specialize (H v Hv).
  apply bool_decide_eq_true in H. exact H.
Qed.

Lemma variationsLower_spec db :
  variationsLower db = true ->
  forall d v, d ∈ db -> v ∈ variations d -> toLowerCase v = v.
Proof.
  unfold variationsLower. rewrite forallb_forall. intros H d v Hd Hv.
  apply list_elem_of_In in Hd, Hv. specialize (H d Hd).
  rewrite forallb_forall in H. specialize (H v Hv).
  apply bool_decide_eq_true in H. exact H.
Qed.

Lemma destinationsDB_owned : variationsOwned destinationsDB = true.
Proof. vm_compute. reflexivity. Qed.

Lemma destinationsDB_lower : variationsLower destinationsDB = true.
Proof. vm_compute. reflexivity. Qed.

Lemma destinationsDB_names : NoDup (name <$> destinationsDB).
Proof. apply (bool_decide_unpack _). vm_compute. exact I. Qed.

(** ** [findBestMatch]: the exact path *)

(** Claim C7.  When the trimmed, lower-cased query is one of the variations
    of a record of the table, [findBestMatch] returns that record's name
    with confidence one, [isExact] true and no suggestions, whatever the
    threshold. *)
Theorem findBestMatch_exact :
  forall (query : string) (threshold : Q) (d : Destination),
    d ∈ destinationsDB ->
    trim (toLowerCase query) ∈ variations d ->
    let r := findBestMatch query threshold in
    destination r = Some (name d) /\ (confidence r = 1)%Q /\
    isExact r = true /\ suggestions r = [].
Proof.
  intros query threshold d Hd Hq. unfold findBestMatch, findBestMatchIn.
  rewrite (scanDestinations_exact _ _ _ _ d).
  - simpl. auto.
  - apply variationsOwned_spec; [apply destinationsDB_owned | exact Hd | exact Hq].
Qed.

Lemma findBestMatch_exact_witness :
  let r := findBestMatch "paris" default_threshold in
  destination r = Some "Paris" /\ (confidence r = 1)%Q /\
  isExact r = true /\ suggestions r = [].
Proof.
  apply (findBestMatch_exact "paris" default_threshold
           {| name := "Paris"; country := "France";
              variations := ["paris"; "pariis"; "pariz"; "parris"; "pariss"; "parise"; "paries"] |}).
  - vm_compute. left.
  - vm_compute. left.
Defined.

(** ** [findBestMatch]: the fuzzy path *)

Lemma suggestions_findBestMatchIn db query threshold :
  suggestions (findBestMatchIn db query threshold) =
  take 3 (uniqueByName (sortBySimilarity (candidates db query threshold))).
Proof.
  unfold findBestMatchIn, candidates.
  destruct (scanDestinations _ _ _ _) as [r|st] eqn:E; [|reflexivity].
  apply scanDestinations_inl in E as (d & _ & _ & ->). reflexivity.
Qed.

Lemma suggestions_from_candidates db query threshold s :
  s ∈ suggestions (findBestMatchIn db query threshold) ->
  s ∈ uniqueByName (sortBySimilarity (candidates db query threshold)) /\
  s ∈ candidates db query threshold.
Proof.
  rewrite suggestions_findBestMatchIn. intros Hs.
  apply (sublist_subseteq _ _ (sublist_take _ _)) in Hs. split; [exact Hs|].
  apply (sublist_subseteq _ _ (uniqueByName_sublist _)) in Hs.
  rewrite sortBySimilarity_perm in Hs. exact Hs.
Qed.

(** On the fuzzy path the result carries [hasGoodMatch]; on the exact path
    it does not. *)
Lemma findBestMatchIn_hasGoodMatch db query threshold :
  let r := findBestMatchIn db query threshold in
  (isExact r = true /\ hasGoodMatch r = None) \/
  (isExact r = false /\ hasGoodMatch r = Some (Qle_bool threshold (confidence r))).
Proof.
  unfold findBestMatchIn.
  destruct (scanDestinations _ _ _ _) as [r|st] eqn:E; simpl.
  - apply scanDestinations_inl in E as (d & _ & _ & ->). left. split; reflexivity.
  - right. split; reflexivity.
Qed.

(** Claim C4, which asks for [hasGoodMatch = (bestScore >= threshold)] in
    every result, the exact path included.  For the query ["paris"] the
    result is exact with confidence one, which is at least the threshold,
    and it has no [hasGoodMatch] property; the same holds for the listed
    misspelling ["pariis"]. *)
Theorem exact_result_lacks_hasGoodMatch :
  let r := findBestMatch "paris" default_threshold in
  let r' := findBestMatch "pariis" default_threshold in
  (isExact r = true /\ (confidence r = 1)%Q /\
   Qle_bool default_threshold (confidence r) = true /\
   hasGoodMatch r = None) /\
  (destination r' = Some "Paris" /\ isExact r' = true /\ hasGoodMatch r' = None).
Proof. vm_compute. auto 10. Qed.

(** Claim C10.  A result that is not exact has a confidence strictly below
    one, and so has each of its suggestions: a confidence of one comes
    from the exact path only. *)
Theorem findBestMatch_inexact_below_one :
  forall (query : string) (threshold : Q),
    isExact (findBestMatch query threshold) = false ->
    (confidence (findBestMatch query threshold) < 1)%Q /\
    Forall (fun s => (similarity s < 1)%Q) (suggestions (findBestMatch query threshold)).
Proof.
  intros query threshold Hex.
  assert (forall st, scanDestinations (trim (toLowerCase query)) threshold destinationsDB
                       {| bestMatch := None; bestScore := 0; found := [] |} = inr st ->
                     below1 st) as Hscan.
  { intros st. apply scanDestinations_below1.
    - apply queryLower_is_lower.
    - intros d v. apply variationsLower_spec, destinationsDB_lower.
    - split; simpl; [reflexivity | constructor]. }
  split.
  - unfold findBestMatch, findBestMatchIn in *.
    destruct (scanDestinations _ _ _ _) as [r|st] eqn:E.
    + apply scanDestinations_inl in E as (d & _ & _ & ->). discriminate.
    + simpl. apply (Hscan st eq_refl).
  - apply Forall_forall. intros s Hs.
    apply suggestions_from_candidates in Hs as [_ Hs]. unfold candidates in Hs.
    destruct (scanDestinations _ _ _ _) as [r|st] eqn:E.
    + apply elem_of_nil in Hs. contradiction.
    + destruct (Hscan st eq_refl) as [_ Hall]. rewrite Forall_forall in Hall. auto.
Qed.

Lemma findBestMatch_inexact_below_one_witness :
  (confidence (findBestMatch "pari" default_threshold) < 1)%Q /\
  Forall (fun s => (similarity s < 1)%Q) (suggestions (findBestMatch "pari" default_threshold)).
Proof.
  apply (findBestMatch_inexact_below_one "pari" default_threshold).
  vm_compute. reflexivity.
Defined.

(** ** Suggestion lists *)

Lemma NoDup_fmap_count {A B} `{EqDecision B} (f : A -> B) (l : list A) (b : B) :
  NoDup (f <$> l) -> length (filter (fun x => f x = b) l) <= 1.
Proof.
  induction l as [|x l IH]; simpl; [lia|].
  rewrite NoDup_cons. intros [Hx Hl]. rewrite filter_cons.
  destruct (decide (f x = b)) as [<-|]; [|auto]. simpl.
  destruct (filter (fun y => f y = f x) l) as [|y ys] eqn:E; [simpl; lia|].
  exfalso. apply Hx.
  assert (y ∈ filter (fun y => f y = f x) l) as Hy by (rewrite E; left).
  apply list_elem_of_filter in Hy as [Hfy Hy].
  rewrite <- Hfy. apply list_elem_of_fmap. eauto.
Qed.

(** Claim C8.  The suggestions of [findBestMatch] are at most three, carry
    no name twice, are in descending order of similarity, and each is at
    least as similar as every pushed candidate of its name.  The list of
    [getDestinationSuggestions] carries no name twice, hence at most one
    entry for each record, is in descending order of similarity, and has
    at most [limit] entries (for a [limit] that is not negative). *)
Theorem suggestion_lists_unique_descending :
  forall (query : string) (threshold : Q) (limit : Z),
    let best := suggestions (findBestMatch query threshold) in
    let listed := getDestinationSuggestions query limit in
    (length best <= 3 /\
     NoDup (sname <$> best) /\
     descending best /\
     (forall s c, s ∈ best -> c ∈ candidates destinationsDB query threshold ->
                  sname c = sname s -> (similarity c <= similarity s)%Q)) /\
    (((0 <= limit)%Z -> length listed <= Z.to_nat limit) /\
     (forall d, d ∈ destinationsDB ->
                length (filter (fun s => sname s = name d) listed) <= 1) /\
     NoDup (sname <$> listed) /\
     descending listed).
Proof.
  intros query threshold limit best listed. split.
  - subst best. unfold findBestMatch.
    pose proof (suggestions_findBestMatchIn destinationsDB query threshold) as E.
    split; [|split; [|split]].
    + rewrite E, length_take. lia.
    + rewrite E.
      exact (sublist_NoDup _ _ (uniqueByName_NoDup _) (sublist_fmap _ _ _ (sublist_take _ _))).
    + rewrite E. eapply StronglySorted_sublist; [apply sublist_take|].
      eapply StronglySorted_sublist; [apply uniqueByName_sublist|].
      apply sortBySimilarity_descending.
    + intros s c Hs Hc Hname.
      apply suggestions_from_candidates in Hs as [Hs _].
      apply uniqueByName_first in Hs as (i & Hi & Hfirst).
      eapply descending_first_best; eauto.
      * apply sortBySimilarity_descending.
      * rewrite sortBySimilarity_perm. exact Hc.
  - assert (NoDup (sname <$> listed) /\ descending listed) as [Hnd Hdesc].
    { subst listed. unfold getDestinationSuggestions, getDestinationSuggestionsIn.
      destruct (String.length (trim (toLowerCase query)) <? 2).
      { split; constructor. }
      split.
      - refine (sublist_NoDup _ _ _ (sublist_fmap _ _ _ (slice0_sublist _ _))).
        rewrite sortBySimilarity_perm. apply uniqueByName_NoDup.
      - eapply StronglySorted_sublist; [apply slice0_sublist|].
        apply sortBySimilarity_descending. }
    split; [|split; [|split]]; [| |exact Hnd|exact Hdesc].
    + intros Hl. subst listed. unfold getDestinationSuggestions, getDestinationSuggestionsIn.
      destruct (String.length (trim (toLowerCase query)) <? 2); [simpl; lia|].
      apply slice0_length, Hl.
    + intros d _. apply NoDup_fmap_count, Hnd.
Qed.

(** ** [fetchNow]: the cache *)

(** A fresh entry is served without asking the network.  The [error]
    cell is left as it was. *)
Lemma fetchNow_fresh now p w k entry :
  key (url p) (options p) = Some k ->
  cache w !! k = Some entry ->
  ltNum (now - timestamp entry) (ttl (options p)) = true ->
  exists w',
    fetchNow now p w = (w', None) /\
    data (session w') = entry_data entry /\
    loading (session w') = false /\
    error (session w') = error (session w) /\
    fetchToken (session w') = S (fetchToken (session w)) /\
    cache w' = cache w.
Proof.
  intros Hk He Hf. unfold fetchNow. rewrite Hk. simpl. rewrite He, Hf.
  eexists. split; [reflexivity|]. simpl. auto.
Qed.

(** Without an entry, or with a stale one, the network is asked. *)
Lemma fetchNow_miss now p w k :
  key (url p) (options p) = Some k ->
  (cache w !! k = None \/
   exists entry, cache w !! k = Some entry /\
                 ltNum (now - timestamp entry) (ttl (options p)) = false) ->
  exists w',
    fetchNow now p w =
      (w', Some {| currentToken := S (fetchToken (session w)); call_key := k;
                   call_url := url p |}) /\
    data (session w') = data (session w) /\
    loading (session w') = true /\
    error (session w') = None /\
    fetchToken (session w') = S (fetchToken (session w)) /\
    cache w' = cache w.
Proof.
  intros Hk Hc. unfold fetchNow. rewrite Hk. simpl.
  destruct Hc as [Hn|(entry & He & Hs)].
  - rewrite Hn. eexists. split; [reflexivity|]. simpl. auto.
  - rewrite He, Hs. eexists. split; [reflexivity|]. simpl. auto.
Qed.

(** Claim C2, which asks for the visible state [{data: entry.payload,
    loading: false, error: null}] on a fresh cache hit.  In the run
    [Example.hit_changed] the entry is fresh and is served without a call
    to the network, [data] and [loading] are as claimed, and [error] still
    holds the message of the earlier failure. *)
Theorem cache_hit_keeps_stale_error :
  Example.hit_changed.2 = None /\
  data (session Example.hit_changed.1) = JStr "London: rain" /\
  loading (session Example.hit_changed.1) = false /\
  error (session Example.hit_changed.1) = Some "HTTP 404 - Not Found".
Proof. vm_compute. auto. Qed.

(** ** [fetchNow]: the answer of the network *)

(** The answer to a call that is no longer the latest changes neither
    [data] nor [loading]. *)
Lemma settled_stale_keeps_data_loading now c out w :
  fetchToken (session w) <> currentToken c ->
  data (session (fetchNow_settled now c out w)) = data (session w) /\
  loading (session (fetchNow_settled now c out w)) = loading (session w).
Proof.
  intros Hne. unfold fetchNow_settled.
  destruct (tryResult out) as [json|err]; simpl.
  - destruct (decide (fetchToken (session w) = currentToken c)); [contradiction|].
    simpl. rewrite decide_False by exact Hne. auto.
  - destruct (bool_decide (ename err ≠ "AbortError")); simpl;
      rewrite decide_False by exact Hne; auto.
Qed.

(** A failure other than a cancellation sets [error], whichever call it
    answers. *)
Lemma settled_failure_sets_error now c out err w :
  tryResult out = inr err -> ename err <> "AbortError" ->
  error (session (fetchNow_settled now c out w)) = Some (errorText err).
Proof.
  intros Ht Hne. unfold fetchNow_settled. rewrite Ht.
  rewrite bool_decide_eq_true_2 by exact Hne.
  destruct (decide _); reflexivity.
Qed.

(** Claim C9.  A call that ends with a cancellation (an error named
    [AbortError]) is absorbed: the rest of [fetchNow] changes neither the
    session's [error] nor its [data], nor the cache. *)
Theorem cancelled_call_is_absorbed :
  forall (now : Z) (c : Call) (out : FetchOutcome) (err : JsError) (w : World),
    tryResult out = inr err ->
    ename err = "AbortError" ->
    error (session (fetchNow_settled now c out w)) = error (session w) /\
    data (session (fetchNow_settled now c out w)) = data (session w) /\
    cache (fetchNow_settled now c out w) = cache w.
Proof.
  intros now c out err w Ht Hab. unfold fetchNow_settled. rewrite Ht.
  rewrite bool_decide_eq_false_2 by (intros H; apply H; exact Hab).
  destruct (decide _); simpl; auto.
Qed.

Lemma cancelled_call_is_absorbed_witness :
  let out := Rejected {| ename := "AbortError"; message := "The user aborted a request." |} in
  let c := {| currentToken := 1; call_key := "k"; call_url := "u" |} in
  let w := Example.overlap_newer_answered in
  error (session (fetchNow_settled 5 c out w)) = error (session w) /\
  data (session (fetchNow_settled 5 c out w)) = data (session w) /\
  cache (fetchNow_settled 5 c out w) = cache w.
Proof.
  intros out c w.
  apply (cancelled_call_is_absorbed 5 c out
           {| ename := "AbortError"; message := "The user aborted a request." |} w);
    reflexivity.
Defined.

(** ** [refetch] *)

Lemma refetch_deletes_entry p w : cached p (refetch p w) = None.
Proof.
  unfold cached, refetch. destruct (key (url p) (options p)) as [k|]; [|reflexivity].
  simpl. apply lookup_delete_eq.
Qed.

Lemma refetch_bumps_index p w :
  refetchIndex (session (refetch p w)) = refetchIndex (session w) + 1.
Proof. unfold refetch. destruct (key (url p) (options p)); reflexivity. Qed.

(** [refetch] writes a ref and the cache only: it asks for no render. *)
Lemma refetch_requests_no_render p w :
  renderRequested (session (refetch p w)) = renderRequested (session w) /\
  data (session (refetch p w)) = data (session w) /\
  loading (session (refetch p w)) = loading (session w) /\
  error (session (refetch p w)) = error (session w) /\
  fetchToken (session (refetch p w)) = fetchToken (session w).
Proof. unfold refetch. destruct (key (url p) (options p)); simpl; auto. Qed.

(** So, with no render pending, nothing happens after [refetch]. *)
Lemma refetch_alone_fetches_nothing now p w :
  renderRequested (session w) = false ->
  reactFlush now p (refetch p w) = (refetch p w, None).
Proof.
  intros H. unfold reactFlush.
  destruct (refetch_requests_no_render p w) as [-> _]. rewrite H. reflexivity.
Qed.

(** If the component is rendered again for another reason, the effect
    runs again and the network is asked. *)
Lemma render_after_refetch_fetches now p w k :
  key (url p) (options p) = Some k ->
  effectDeps (session w) = Some (depsOf p (session w)) ->
  exists w',
    render now p (refetch p w) =
      (w', Some {| currentToken := S (fetchToken (session w)); call_key := k;
                   call_url := url p |}).
Proof.
  intros Hk Hd. unfold render.
  assert (url p <> "") as Hu.
  { intros E. unfold key in Hk. rewrite E in Hk. discriminate. }
  rewrite decide_False.
  - rewrite bool_decide_eq_false_2 by exact Hu.
    destruct (fetchNow_miss now p (onSession (commitDeps (depsOf p (session (refetch p w))))
                                     (refetch p w)) k Hk) as (w' & -> & _).
    + left. simpl. pose proof (refetch_deletes_entry p w) as Hc.
      unfold cached in Hc. rewrite Hk in Hc. exact Hc.
    + exists w'. unfold refetch. rewrite Hk. reflexivity.
  - unfold refetch. rewrite Hk. simpl. rewrite Hd. intros [= E]. lia.
Qed.

(** Claim C3, which asks that [refetch] removes the cache entry and forces
    a new resolve cycle.  In the run [Example.refetch_called] the entry is
    removed and [refetchIndex] is one more, but no render is pending, so
    React issues no call; a call (with token 2) is issued only if the
    component is rendered for some other reason. *)
Theorem refetch_starts_no_cycle :
  let p := Example.weather "Paris" in
  cached p Example.refetch_settled.1 =
    Some {| entry_data := JStr "Paris: sun"; timestamp := 10 |} /\
  renderRequested (session Example.refetch_settled.1) = false /\
  cached p Example.refetch_called = None /\
  refetchIndex (session Example.refetch_called) = 1 /\
  renderRequested (session Example.refetch_called) = false /\
  (forall now, reactFlush now p Example.refetch_called = (Example.refetch_called, None)) /\
  (forall now, (currentToken <$> (render now p Example.refetch_called).2) = Some 2).
Proof.
  intros p. split; [vm_compute; reflexivity|].
  split; [vm_compute; reflexivity|].
  split; [vm_compute; reflexivity|].
  split; [vm_compute; reflexivity|].
  split; [vm_compute; reflexivity|].
  split.
  - intros now. apply refetch_alone_fetches_nothing. vm_compute. reflexivity.
  - intros now.
    destruct (render_after_refetch_fetches now p Example.refetch_settled.1
                (default "" (key (url p) (options p)))) as (w' & E).
    + vm_compute. reflexivity.
    + vm_compute. reflexivity.
    + unfold Example.refetch_called. fold p. rewrite E. vm_compute. reflexivity.
Qed.

(** ** The cache key *)

Lemma chars_app a b : chars (a ++ b) = (chars a ++ chars b)%list.
Proof. induction a; simpl; [reflexivity|]. unfold chars in *. simpl. congruence. Qed.

Lemma append_inv_head a x y : a ++ x = a ++ y -> x = y.
Proof. induction a; simpl; [auto|]. intros [= H]. auto. Qed.

Lemma append_inv_tail r x y : x ++ r = y ++ r -> x = y.
Proof.
  intros H. apply chars_inj. apply (f_equal chars) in H.
  rewrite !chars_app in H. eapply app_inv_tail. exact H.
Qed.

Lemma unquoteChar_quoteChar c r : unquoteChar (quoteChar c ++ r) = Some (c, r).
Proof. destruct c as [[] [] [] [] [] [] [] []]; reflexivity. Qed.

Lemma quoteBody_inj s t : quoteBody s = quoteBody t -> s = t.
Proof.
  revert t. induction s as [|c s IH]; intros [|d t] H; simpl in H.
  - reflexivity.
  - apply (f_equal unquoteChar) in H. rewrite unquoteChar_quoteChar in H. discriminate.
  - apply (f_equal unquoteChar) in H. rewrite unquoteChar_quoteChar in H. discriminate.
  - apply (f_equal unquoteChar) in H. rewrite !unquoteChar_quoteChar in H.
    injection H as -> H. f_equal. auto.
Qed.

Lemma quoteJSONString_inj s t : quoteJSONString s = quoteJSONString t -> s = t.
Proof. unfold quoteJSONString. intros [= H]. apply quoteBody_inj, H. Qed.

Lemma optionsString_eq options :
  optionsString options = "{" ++ String.concat "," (omap member options) ++ "}".
Proof. reflexivity. Qed.

Lemma concat_inj_at (A B : list string) e1 e2 :
  String.concat "," (A ++ e1 :: B) = String.concat "," (A ++ e2 :: B) -> e1 = e2.
Proof.
  induction A as [|a A IH]; simpl.
  - destruct B as [|b B]; [auto|]. apply append_inv_tail.
  - destruct A as [|a' A]; simpl in *.
    + intros H. apply append_inv_head, append_inv_head in H. auto.
    + intros H. apply append_inv_head, append_inv_head in H. auto.
Qed.

Lemma omap_member_at pre k v post s :
  stringify v = Some s ->
  omap member (pre ++ (k, v) :: post)%list =
  (omap member pre ++ (quoteJSONString k ++ ":" ++ s)%string :: omap member post)%list.
Proof.
  intros H. rewrite omap_app. f_equal. cbn. unfold member at 1. cbn.
  rewrite H. reflexivity.
Qed.

(** For one url, two configurations get the same key exactly when
    [JSON.stringify] writes them the same. *)
Lemma key_eq_iff u o1 o2 :
  u <> "" -> (key u o1 = key u o2 <-> optionsString o1 = optionsString o2).
Proof.
  intros Hu. unfold key. rewrite bool_decide_eq_false_2 by exact Hu. split.
  - intros [= H]. apply append_inv_head, append_inv_head in H. exact H.
  - intros ->. reflexivity.
Qed.

(** Changing the value of one property changes the key as soon as the two
    values are written differently. *)
Lemma key_changes_with_member u pre k v1 v2 post s1 s2 :
  u <> "" -> stringify v1 = Some s1 -> stringify v2 = Some s2 -> s1 <> s2 ->
  key u (pre ++ (k, v1) :: post) <> key u (pre ++ (k, v2) :: post).
Proof.
  intros Hu H1 H2 Hne Hk. apply key_eq_iff in Hk; [|exact Hu].
  rewrite !optionsString_eq in Hk.
  apply append_inv_head, append_inv_tail in Hk.
  rewrite (omap_member_at _ _ _ _ _ H1), (omap_member_at _ _ _ _ _ H2) in Hk.
  apply concat_inj_at, append_inv_head, append_inv_head in Hk. contradiction.
Qed.

Lemma key_changes_with_string u pre k s1 s2 post :
  u <> "" -> s1 <> s2 ->
  key u (pre ++ (k, JStr s1) :: post) <> key u (pre ++ (k, JStr s2) :: post).
Proof.
  intros Hu Hne.
  apply (key_changes_with_member u pre k (JStr s1) (JStr s2) post
           (quoteJSONString s1) (quoteJSONString s2)); auto.
  intros H. apply Hne, quoteJSONString_inj, H.
Qed.

Lemma key_changes_with_integer u pre k (z1 z2 : Z) post :
  u <> "" -> z1 <> z2 ->
  key u (pre ++ (k, JNum (Fin z1)) :: post) <> key u (pre ++ (k, JNum (Fin z2)) :: post).
Proof.
  intros Hu Hne.
  apply (key_changes_with_member u pre k (JNum (Fin z1)) (JNum (Fin z2)) post
           (pretty z1) (pretty z2)); auto.
  intros H. apply Hne. eapply (inj pretty). exact H.
Qed.

(** Claim C6, as amended.  The key is a function of the url and the
    configuration; for one non-empty url two configurations get the same
    key exactly when [JSON.stringify] writes them the same; and changing
    the value of one property from a string to another string, or from an
    integer to another integer, changes the key. *)
Theorem key_follows_serialisation :
  forall (u : string) (o1 o2 : Options),
    u <> "" ->
    (o1 = o2 -> key u o1 = key u o2) /\
    (key u o1 = key u o2 <-> optionsString o1 = optionsString o2) /\
    (forall pre k post s1 s2,
        o1 = (pre ++ (k, JStr s1) :: post)%list ->
        o2 = (pre ++ (k, JStr s2) :: post)%list ->
        s1 <> s2 -> key u o1 <> key u o2) /\
    (forall pre k post (z1 z2 : Z),
        o1 = (pre ++ (k, JNum (Fin z1)) :: post)%list ->
        o2 = (pre ++ (k, JNum (Fin z2)) :: post)%list ->
        z1 <> z2 -> key u o1 <> key u o2).
Proof.
  intros u o1 o2 Hu. split; [|split; [|split]].
  - intros ->. reflexivity.
  - apply key_eq_iff, Hu.
  - intros pre k post s1 s2 -> -> Hne. apply key_changes_with_string; assumption.
  - intros pre k post z1 z2 -> -> Hne. apply key_changes_with_integer; assumption.
Qed.

Lemma key_follows_serialisation_witness :
  let u := "https://api.example.org/weather?q=Paris" in
  let o1 := [("method", JStr "GET"); ("ttl", JNum (Fin 1000))] in
  let o2 := [("method", JStr "POST"); ("ttl", JNum (Fin 1000))] in
  u <> "" /\ key u o1 <> key u o2.
Proof.
  intros u o1 o2.
  assert (u <> "") as Hu by discriminate.
  split; [exact Hu|].
  destruct (key_follows_serialisation u o1 o2 Hu) as (_ & _ & Hstr & _).
  apply (Hstr [] "method" [("ttl", JNum (Fin 1000))] "GET" "POST");
    [reflexivity | reflexivity | discriminate].
Defined.

(** Claim C6 as stated fails.  The same options listed in another order
    are logically the same configuration and get another key; and a [ttl]
    changed from [null] to [Infinity] (from the default of five minutes to
    no expiry) is another configuration and keeps the key. *)
Lemma key_counterexample :
  let u := "https://api.example.org/weather?q=Paris" in
  (let o1 := [("method", JStr "GET"); ("ttl", JNum (Fin 1000))] in
   let o2 := [("ttl", JNum (Fin 1000)); ("method", JStr "GET")] in
   sameConfiguration o1 o2 /\ key u o1 <> key u o2) /\
  (let o3 := [("ttl", JNull)] in
   let o4 := [("ttl", JNum PosInf)] in
   ~ sameConfiguration o3 o4 /\ ttl o3 <> ttl o4 /\ key u o3 = key u o4).
Proof.
  intros u. split.
  - intros o1 o2. split.
    + intros k. unfold getProp, o1, o2. simpl.
      destruct (decide ("method" = k)) as [<-|Hm]; [reflexivity|].
      destruct (decide ("ttl" = k)) as [<-|Ht]; [reflexivity|].
      rewrite !bool_decide_eq_false_2 by assumption. reflexivity.
    + vm_compute. discriminate.
  - intros o3 o4. split; [|split].
    + intros H. specialize (H "ttl"). vm_compute in H. discriminate.
    + vm_compute. discriminate.
    + vm_compute. reflexivity.
Qed.

(** * Further properties of the matcher *)

(** ** [levenshteinDistance] as a distance *)

Section EditDistanceBounds.
Context {A : Type} `{EqDecision A}.
Implicit Types a b c : list A.

Lemma editDistance_triangle a b c :
  editDistance a c <= editDistance a b + editDistance b c.
Proof.
  destruct (edits_trans a b _ (editDistance_edits a b) c _ (editDistance_edits b c))
    as (k & Hk & Ek).
  apply editDistance_least in Ek. lia.
Qed.

Lemma edits_lengths a b n :
  edits a b n -> length a <= length b + n /\ length b <= length a + n.
Proof. induction 1; simpl; lia. Qed.

Lemma edits_max a b : edits a b (Nat.max (length a) (length b)).
Proof.
  revert b. induction a as [|x a IH]; intros b.
  - apply edits_all_insert.
  - destruct b as [|y b].
    + rewrite Nat.max_0_r. apply edits_all_delete.
    + simpl. apply edits_subst, IH.
Qed.

Lemma editDistance_bounds a b :
  Nat.max (length a) (length b) - Nat.min (length a) (length b) <= editDistance a b /\
  editDistance a b <= Nat.max (length a) (length b).
Proof.
  split.
  - pose proof (edits_lengths _ _ _ (editDistance_edits a b)). lia.
  - apply editDistance_least, edits_max.
Qed.

End EditDistanceBounds.

(** X1.  [levenshteinDistance] is a distance on strings: it is zero
    exactly for equal strings, and going through a third string is never
    shorter. *)
Theorem levenshteinDistance_metric :
  forall a b c : string,
    (levenshteinDistance a b = 0 <-> a = b) /\
    levenshteinDistance a c <= levenshteinDistance a b + levenshteinDistance b c.
Proof.
  intros a b c. split.
  - apply levenshteinDistance_zero.
  - rewrite !levenshteinDistance_editDistance. apply editDistance_triangle.
Qed.

(** X2.  The distance is at least the difference of the two lengths and at
    most the greater of them; in particular the distance to the empty
    string is the length. *)
Theorem levenshteinDistance_bounds :
  forall a b : string,
    Nat.max (String.length a) (String.length b)
      - Nat.min (String.length a) (String.length b) <= levenshteinDistance a b /\
    levenshteinDistance a b <= Nat.max (String.length a) (String.length b) /\
    levenshteinDistance "" b = String.length b /\
    levenshteinDistance a "" = String.length a.
Proof.
  intros a b. rewrite !levenshteinDistance_editDistance, <- !chars_length.
  destruct (editDistance_bounds (chars a) (chars b)) as [Hlo Hhi].
  split; [exact Hlo|]. split; [exact Hhi|]. split.
  - reflexivity.
  - apply editDistance_nil_r.
Qed.

(** ** The range of [calculateSimilarity] *)

Lemma Qnat_le n m : n <= m -> (Qnat n <= Qnat m)%Q.
Proof. intros H. unfold Qnat. rewrite <- Zle_Qle. lia. Qed.

Lemma Qnat_ratio_le_1 d m : d <= m -> 0 < m -> (Qnat d / Qnat m <= 1)%Q.
Proof.
  intros Hd Hm. apply Qle_shift_div_r; [apply Qnat_pos, Hm|].
  rewrite Qmult_1_l. apply Qnat_le, Hd.
Qed.

Lemma Qnat_ratio_nonneg d m : (0 <= Qnat d / Qnat m)%Q.
Proof.
  destruct m as [|m].
  - unfold Qdiv. simpl. unfold Qle. simpl. lia.
  - apply Qle_shift_div_l; [apply Qnat_pos; lia|].
    rewrite Qmult_0_l. unfold Qnat, Qle. simpl. lia.
Qed.

Lemma toLowerCase_inj_length a b :
  levenshteinDistance (toLowerCase a) (toLowerCase b)
  <= Nat.max (String.length a) (String.length b).
Proof.
  rewrite levenshteinDistance_editDistance.
  destruct (editDistance_bounds (chars (toLowerCase a)) (chars (toLowerCase b))) as [_ H].
  rewrite !chars_length, !toLowerCase_length in H. exact H.
Qed.

(** X3.  A similarity lies between zero and one, and it is one exactly
    when the two strings are equal up to case. *)
Theorem calculateSimilarity_range :
  forall a b : string,
    (0 <= calculateSimilarity a b)%Q /\
    (calculateSimilarity a b <= 1)%Q /\
    ((calculateSimilarity a b == 1)%Q <-> toLowerCase a = toLowerCase b).
Proof.
  intros a b.
  assert (0 <= calculateSimilarity a b /\ calculateSimilarity a b <= 1)%Q as [H0 H1].
  { unfold calculateSimilarity.
    destruct (Nat.eqb_spec (Nat.max (String.length a) (String.length b)) 0) as [E|Hm].
    - split; [discriminate | apply Qle_refl].
    - pose proof (Qnat_ratio_le_1 _ _ (toLowerCase_inj_length a b) ltac:(lia)).
      pose proof (Qnat_ratio_nonneg
                    (levenshteinDistance (toLowerCase a) (toLowerCase b))
                    (Nat.max (String.length a) (String.length b))).
      split; lra. }
  split; [exact H0|]. split; [exact H1|]. split.
  - intros E. destruct (decide (toLowerCase a = toLowerCase b)) as [|Hne]; [assumption|].
    apply calculateSimilarity_lt_1 in Hne. lra.
  - intros E. unfold calculateSimilarity.
    destruct (Nat.max (String.length a) (String.length b) =? 0); [reflexivity|].
    rewrite E. assert (levenshteinDistance (toLowerCase b) (toLowerCase b) = 0) as ->.
    { apply levenshteinDistance_zero. reflexivity. }
    unfold Qdiv. change (Qnat 0) with 0%Q. rewrite Qmult_0_l. reflexivity.
Qed.

(** ** The loops of [findBestMatch], flattened *)

Lemma tablePairs_cons d ds :
  tablePairs (d :: ds) = ((pair d <$> variations d) ++ tablePairs ds)%list.
Proof. reflexivity. Qed.

Lemma elem_of_tablePairs db d v :
  (d, v) ∈ tablePairs db <-> d ∈ db /\ v ∈ variations d.
Proof.
  unfold tablePairs. rewrite list_elem_of_bind. split.
  - intros (d' & Hin & Hd'). apply list_elem_of_fmap in Hin as (v' & [= -> ->] & Hv').
    auto.
  - intros [Hd Hv]. exists d. split; [|exact Hd].
    apply list_elem_of_fmap. eauto.
Qed.

Lemma foldl_scanVariation q th d st vs :
  foldl (scanVariation q th d) st vs = foldl (scanPair q th) st (pair d <$> vs).
Proof. revert st. induction vs as [|v vs IH]; intros st; simpl; [reflexivity|]. apply IH. Qed.

(** Without the early return the two loops are one pass over the pairs. *)
Lemma scanDestinations_inr q th ds st st' :
  scanDestinations q th ds st = inr st' ->
  st' = foldl (scanPair q th) st (tablePairs ds) /\
  forall d, d ∈ ds -> q ∉ variations d.
Proof.
  revert st. induction ds as [|d ds IH]; intros st H; simpl in H.
  - injection H as <-. split; [reflexivity|]. intros d Hd. apply elem_of_nil in Hd as [].
  - destruct (bool_decide (q ∈ variations d)) eqn:E; [discriminate|].
    apply bool_decide_eq_false in E. apply IH in H as [-> Hnot].
    split.
    + rewrite tablePairs_cons, foldl_app, foldl_scanVariation. reflexivity.
    + intros d' Hd'. apply elem_of_cons in Hd' as [->|Hd']; auto.
Qed.

Lemma scanDestinations_inr_intro q th ds st :
  (forall d, d ∈ ds -> q ∉ variations d) ->
  scanDestinations q th ds st = inr (foldl (scanPair q th) st (tablePairs ds)).
Proof.
  revert st. induction ds as [|d ds IH]; intros st Hnot; [reflexivity|].
  rewrite tablePairs_cons, foldl_app, <- foldl_scanVariation.
  cbn [scanDestinations].
  rewrite bool_decide_eq_false_2 by (apply Hnot; left).
  apply IH. intros d' Hd'. apply Hnot. right. exact Hd'.
Qed.

(** The suggestions pushed by a pass. *)
Lemma found_scanPair q th st p :
  found (scanPair q th st p) =
  (found st ++ if isCandidate q th p then [suggestionOf q p] else [])%list.
Proof.
  unfold scanPair, scanVariation, isCandidate.
  destruct (Qltb (bestScore st) (calculateSimilarity q p.2));
    destruct (Qle_bool th (calculateSimilarity q p.2) && Qltb (calculateSimilarity q p.2) 1);
    simpl; rewrite ?app_nil_r; reflexivity.
Qed.

Lemma found_scanPairs q th ps st :
  found (foldl (scanPair q th) st ps) =
  (found st ++ (suggestionOf q <$> filter (fun p => isCandidate q th p = true) ps))%list.
Proof.
  revert st. induction ps as [|p ps IH]; intros st.
  - simpl. rewrite app_nil_r. reflexivity.
  - change (foldl (scanPair q th) st (p :: ps))
      with (foldl (scanPair q th) (scanPair q th st p) ps).
    rewrite IH, found_scanPair, filter_cons.
    destruct (isCandidate q th p).
    + rewrite decide_True by reflexivity. rewrite <- app_assoc. reflexivity.
    + rewrite decide_False by discriminate. rewrite app_nil_r. reflexivity.
Qed.

Lemma best_scanPair q th st p :
  (Qltb (bestScore st) (calculateSimilarity q p.2) = true /\
   bestMatch (scanPair q th st p) = Some (name p.1) /\
   bestScore (scanPair q th st p) = calculateSimilarity q p.2) \/
  (Qltb (bestScore st) (calculateSimilarity q p.2) = false /\
   bestMatch (scanPair q th st p) = bestMatch st /\
   bestScore (scanPair q th st p) = bestScore st).
Proof.
  unfold scanPair, scanVariation.
  destruct (Qltb (bestScore st) (calculateSimilarity q p.2)); [left | right];
    destruct (Qle_bool th (calculateSimilarity q p.2) && Qltb (calculateSimilarity q p.2) 1);
    simpl; auto.
Qed.

Lemma Qltb_false x y : Qltb x y = false <-> (y <= x)%Q.
Proof.
  unfold Qltb. rewrite negb_false_iff. apply Qle_bool_iff.
Qed.

(** After a pass from the initial state: either nothing scored above
    zero, or the best match is the first pair with the highest score. *)
Lemma best_scanPairs q th ps :
  let st := foldl (scanPair q th) {| bestMatch := None; bestScore := 0; found := [] |} ps in
  (bestMatch st = None /\ bestScore st = 0%Q /\
   forall p, p ∈ ps -> (calculateSimilarity q p.2 <= 0)%Q) \/
  (exists pre p post,
      ps = (pre ++ p :: post)%list /\
      bestMatch st = Some (name p.1) /\
      bestScore st = calculateSimilarity q p.2 /\
      (0 < calculateSimilarity q p.2)%Q /\
      (forall p', p' ∈ pre -> (calculateSimilarity q p'.2 < calculateSimilarity q p.2)%Q) /\
      (forall p', p' ∈ post -> (calculateSimilarity q p'.2 <= calculateSimilarity q p.2)%Q)).
Proof.
  induction ps as [|p1 ps IH] using rev_ind; intros st.
  - left. split; [reflexivity|]. split; [reflexivity|].
    intros p Hp. apply elem_of_nil in Hp as [].
  - subst st. rewrite foldl_app. simpl.
    set (st := foldl (scanPair q th) _ ps) in *. simpl in IH.
    destruct (best_scanPair q th st p1) as [(Hlt & -> & ->)|(Hge & -> & ->)].
    + apply Qltb_true in Hlt. right. exists ps, p1, []. split; [reflexivity|].
      split; [reflexivity|]. split; [reflexivity|].
      destruct IH as [(_ & Hs & Hall)|(pre & p & post & -> & _ & Hs & Hpos & Hpre & Hpost)];
        rewrite Hs in Hlt.
      * split; [exact Hlt|]. split.
        -- intros p' Hp'. specialize (Hall p' Hp'). lra.
        -- intros p' Hp'. apply elem_of_nil in Hp' as [].
      * split; [lra|]. split.
        -- intros p' Hp'. apply elem_of_app in Hp' as [Hp'|Hp'].
           ++ specialize (Hpre p' Hp'). lra.
           ++ apply elem_of_cons in Hp' as [->|Hp']; [exact Hlt|].
              specialize (Hpost p' Hp'). lra.
        -- intros p' Hp'. apply elem_of_nil in Hp' as [].
    + apply Qltb_false in Hge.
      destruct IH as [(Hm & Hs & Hall)|(pre & p & post & -> & Hm & Hs & Hpos & Hpre & Hpost)];
        rewrite Hs in Hge.
      * left. split; [exact Hm|]. split; [exact Hs|].
        intros p' Hp'. apply elem_of_app in Hp' as [Hp'|Hp']; [auto|].
        apply list_elem_of_singleton in Hp' as ->. exact Hge.
      * right. exists pre, p, (post ++ [p1])%list.
        split; [rewrite <- app_assoc; reflexivity|].
        split; [exact Hm|]. split; [exact Hs|]. split; [exact Hpos|].
        split; [exact Hpre|].
        intros p' Hp'. apply elem_of_app in Hp' as [Hp'|Hp']; [auto|].
        apply list_elem_of_singleton in Hp' as ->. exact Hge.
Qed.

(** The fuzzy path of [findBestMatch], spelled out. *)
Lemma findBestMatch_fuzzy query threshold :
  isExact (findBestMatch query threshold) = false ->
  let st := foldl (scanPair (trim (toLowerCase query)) threshold)
                  {| bestMatch := None; bestScore := 0; found := [] |}
                  (tablePairs destinationsDB) in
  findBestMatch query threshold =
    {| destination := bestMatch st; confidence := bestScore st; isExact := false;
       suggestions := take 3 (uniqueByName (sortBySimilarity (found st)));
       hasGoodMatch := Some (Qle_bool threshold (bestScore st)) |} /\
  forall d, d ∈ destinationsDB -> trim (toLowerCase query) ∉ variations d.
Proof.
  intros Hex st. unfold findBestMatch, findBestMatchIn in *.
  destruct (scanDestinations _ _ _ _) as [r|st'] eqn:E.
  - apply scanDestinations_inl in E as (d & _ & _ & ->). discriminate.
  - apply scanDestinations_inr in E as [-> Hnot]. split; [reflexivity | exact Hnot].
Qed.

Lemma fuzzy_state_below1 query threshold :
  (forall d, d ∈ destinationsDB -> trim (toLowerCase query) ∉ variations d) ->
  below1 (foldl (scanPair (trim (toLowerCase query)) threshold)
                {| bestMatch := None; bestScore := 0; found := [] |}
                (tablePairs destinationsDB)).
Proof.
  intros Hnot.
  apply (scanDestinations_below1 (trim (toLowerCase query)) threshold destinationsDB
           {| bestMatch := None; bestScore := 0; found := [] |}).
  - apply queryLower_is_lower.
  - intros d v. apply variationsLower_spec, destinationsDB_lower.
  - split; simpl; [reflexivity | constructor].
  - apply scanDestinations_inr_intro, Hnot.
Qed.

(** X4.  On the fuzzy path the confidence is the highest similarity
    between the query and any variation of the table, and lies between
    zero and one.  The destination is the record of the first variation,
    in table order, that reaches it; when no variation scores above zero
    there is no destination and the confidence is zero. *)
Theorem findBestMatch_best :
  forall (query : string) (threshold : Q),
    let r := findBestMatch query threshold in
    let sim := calculateSimilarity (trim (toLowerCase query)) in
    isExact r = false ->
    (forall d v, d ∈ destinationsDB -> v ∈ variations d -> (sim v <= confidence r)%Q) /\
    (0 <= confidence r)%Q /\ (confidence r < 1)%Q /\
    match destination r with
    | None => confidence r = 0%Q
    | Some n =>
        exists pre d v post,
          tablePairs destinationsDB = (pre ++ (d, v) :: post)%list /\
          n = name d /\ confidence r = sim v /\ (0 < confidence r)%Q /\
          forall p, p ∈ pre -> (sim p.2 < confidence r)%Q
    end.
Proof.
  intros query threshold r sim Hex.
  destruct (findBestMatch_fuzzy query threshold Hex) as [E Hnot].
  destruct (fuzzy_state_below1 query threshold Hnot) as [Hlt1 _].
  pose proof (best_scanPairs (trim (toLowerCase query)) threshold
                (tablePairs destinationsDB)) as HB.
  cbv zeta in HB, E. subst r. rewrite E.
  cbn [confidence destination] in *.
  set (st := foldl _ _ (tablePairs destinationsDB)) in *.
  destruct HB as [(Hm & Hs & Hall)|(pre & [d v] & post & Hps & Hm & Hs & Hpos & Hpre & Hpost)];
    cbn [fst snd] in *; rewrite Hm, Hs in *.
  - split; [|split; [apply Qle_refl | split; [exact Hlt1 | reflexivity]]].
    intros d v Hd Hv. apply (Hall (d, v)). apply elem_of_tablePairs. auto.
  - split; [|split; [apply Qlt_le_weak, Hpos | split; [exact Hlt1|]]].
    + intros d' v' Hd' Hv'.
      assert ((d', v') ∈ tablePairs destinationsDB) as Hin by (apply elem_of_tablePairs; auto).
      rewrite Hps in Hin. apply elem_of_app in Hin as [Hin|Hin].
      * apply Qlt_le_weak, (Hpre _ Hin).
      * apply elem_of_cons in Hin as [[= -> ->]|Hin]; [apply Qle_refl|].
        apply (Hpost _ Hin).
    + exists pre, d, v, post. auto.
Qed.

Lemma findBestMatch_best_witness :
  let r := findBestMatch "pari" default_threshold in
  let sim := calculateSimilarity (trim (toLowerCase "pari")) in
  (forall d v, d ∈ destinationsDB -> v ∈ variations d -> (sim v <= confidence r)%Q) /\
  (0 <= confidence r)%Q /\ (confidence r < 1)%Q /\
  match destination r with
  | None => confidence r = 0%Q
  | Some n =>
      exists pre d v post,
        tablePairs destinationsDB = (pre ++ (d, v) :: post)%list /\
        n = name d /\ confidence r = sim v /\ (0 < confidence r)%Q /\
        forall p, p ∈ pre -> (sim p.2 < confidence r)%Q
  end.
Proof.
  apply (findBestMatch_best "pari" default_threshold). vm_compute. reflexivity.
Defined.

(** ** The suggestions of [findBestMatch] *)

Lemma findIndex_is_Some {A} (p : A -> bool) (l : list A) x :
  x ∈ l -> p x = true -> is_Some (findIndex p l).
Proof.
  induction 1 as [x l|x y l Hin IH]; intros Hp; simpl.
  - rewrite Hp. eauto.
  - destruct (p y); [eauto|]. destruct (IH Hp) as [i ->]. simpl. eauto.
Qed.

(** Every name of the list survives [uniqueByName]. *)
Lemma uniqueByName_complete l y :
  y ∈ l -> exists x, x ∈ uniqueByName l /\ sname x = sname y.
Proof.
  intros Hy.
  destruct (findIndex_is_Some (sameName y) l y Hy) as [i Hi].
  { unfold sameName. apply bool_decide_eq_true. reflexivity. }
  pose proof Hi as Hi'. apply findIndex_Some in Hi' as [(x & Hx & Hpx) _].
  unfold sameName in Hpx. apply bool_decide_eq_true in Hpx.
  exists x. split; [|exact Hpx].
  apply elem_of_uniqueByName. exists i. split; [exact Hx|].
  unfold sameName in *. rewrite Hpx. exact Hi.
Qed.

Lemma isCandidate_spec q th p :
  isCandidate q th p = true <->
  (th <= calculateSimilarity q p.2)%Q /\ (calculateSimilarity q p.2 < 1)%Q.
Proof.
  unfold isCandidate. rewrite andb_true_iff, Qle_bool_iff, Qltb_true. reflexivity.
Qed.

(** X5.  On the fuzzy path every suggestion is built from a variation of a
    record of the table whose similarity to the query is at least the
    threshold and below one; and when fewer than three suggestions are
    returned, every record with such a variation is among them. *)
Theorem findBestMatch_suggestions :
  forall (query : string) (threshold : Q),
    let r := findBestMatch query threshold in
    let ql := trim (toLowerCase query) in
    isExact r = false ->
    (forall s, s ∈ suggestions r ->
       exists d v, d ∈ destinationsDB /\ v ∈ variations d /\
                   s = suggestionOf ql (d, v) /\
                   (threshold <= similarity s)%Q /\ (similarity s < 1)%Q) /\
    (length (suggestions r) < 3 ->
     forall d v, d ∈ destinationsDB -> v ∈ variations d ->
                 (threshold <= calculateSimilarity ql v)%Q ->
                 (calculateSimilarity ql v < 1)%Q ->
                 name d ∈ sname <$> suggestions r).
Proof.
  intros query threshold r ql Hex.
  destruct (findBestMatch_fuzzy query threshold Hex) as [E _]. cbv zeta in E.
  assert (suggestions r =
          take 3 (uniqueByName (sortBySimilarity
            (suggestionOf ql <$> filter (fun p => isCandidate ql threshold p = true)
                                        (tablePairs destinationsDB))))) as Hs.
  { subst r. rewrite E. cbn [suggestions]. rewrite found_scanPairs. reflexivity. }
  rewrite Hs. clear E Hs. split.
  - intros s Hin.
    apply (sublist_subseteq _ _ (sublist_take _ _)) in Hin.
    apply (sublist_subseteq _ _ (uniqueByName_sublist _)) in Hin.
    rewrite sortBySimilarity_perm in Hin.
    apply list_elem_of_fmap in Hin as ([d v] & -> & Hin).
    apply list_elem_of_filter in Hin as [Hc Hin].
    apply elem_of_tablePairs in Hin as [Hd Hv].
    apply isCandidate_spec in Hc as [Hc1 Hc2].
    exists d, v. auto.
  - intros Hlen d v Hd Hv H1 H2.
    rewrite take_ge in * by (rewrite length_take in Hlen; lia).
    destruct (uniqueByName_complete
                (sortBySimilarity
                   (suggestionOf ql <$> filter (fun p => isCandidate ql threshold p = true)
                                               (tablePairs destinationsDB)))
                (suggestionOf ql (d, v))) as (x & Hx & Hname).
    + rewrite sortBySimilarity_perm. apply list_elem_of_fmap. exists (d, v).
      split; [reflexivity|]. apply list_elem_of_filter. split.
      * apply isCandidate_spec. auto.
      * apply elem_of_tablePairs. auto.
    + apply list_elem_of_fmap. exists x. split; [|exact Hx]. rewrite Hname. reflexivity.
Qed.

Lemma findBestMatch_suggestions_witness :
  let r := findBestMatch "pari" default_threshold in
  let ql := trim (toLowerCase "pari") in
  (forall s, s ∈ suggestions r ->
     exists d v, d ∈ destinationsDB /\ v ∈ variations d /\
                 s = suggestionOf ql (d, v) /\
                 (default_threshold <= similarity s)%Q /\ (similarity s < 1)%Q) /\
  (length (suggestions r) < 3 ->
   forall d v, d ∈ destinationsDB -> v ∈ variations d ->
               (default_threshold <= calculateSimilarity ql v)%Q ->
               (calculateSimilarity ql v < 1)%Q ->
               name d ∈ sname <$> suggestions r).
Proof.
  apply (findBestMatch_suggestions "pari" default_threshold). vm_compute. reflexivity.
Defined.

(** ** Which queries are exact *)

Lemma ownerOf_Some db q d : ownerOf db q = Some d -> d ∈ db /\ q ∈ variations d.
Proof.
  unfold ownerOf. intros H. apply find_some in H as [Hin Hq].
  apply bool_decide_eq_true in Hq. split; [apply list_elem_of_In, Hin | exact Hq].
Qed.

(** X6.  The result is exact if and only if the trimmed, lower-cased query
    is one of the variations of the table; and a result that is not exact
    carries [hasGoodMatch], equal to [confidence >= threshold]. *)
Theorem findBestMatch_exact_iff :
  forall (query : string) (threshold : Q),
    let r := findBestMatch query threshold in
    (isExact r = true <->
     exists d, d ∈ destinationsDB /\ trim (toLowerCase query) ∈ variations d) /\
    (isExact r = false <->
     hasGoodMatch r = Some (Qle_bool threshold (confidence r))).
Proof.
  intros query threshold r. split.
  - split.
    + intros Hex. subst r. unfold findBestMatch, findBestMatchIn in Hex.
      destruct (scanDestinations _ _ _ _) as [r|st] eqn:E; [|discriminate].
      apply scanDestinations_inl in E as (d & Hd & Hq & _). eauto.
    + intros (d & Hd & Hq). subst r. unfold findBestMatch, findBestMatchIn.
      rewrite (scanDestinations_exact _ _ _ _ d); [reflexivity|].
      apply variationsOwned_spec; [apply destinationsDB_owned | exact Hd | exact Hq].
  - destruct (findBestMatchIn_hasGoodMatch destinationsDB query threshold)
      as [[H1 H2]|[H1 H2]]; fold findBestMatch in H1, H2; fold r in H1, H2.
    + rewrite H1, H2. split; discriminate.
    + rewrite H1, H2. split; reflexivity.
Qed.

(** ** Blank queries *)

Lemma variationsNonEmpty_spec db :
  variationsNonEmpty db = true ->
  forall d v, d ∈ db -> v ∈ variations d -> v <> "".
Proof.
  unfold variationsNonEmpty. rewrite forallb_forall. intros H d v Hd Hv.
  apply list_elem_of_In in Hd, Hv. specialize (H d Hd).
  rewrite forallb_forall in H. specialize (H v Hv).
  apply negb_true_iff, bool_decide_eq_false in H. exact H.
Qed.

Lemma destinationsDB_nonEmpty : variationsNonEmpty destinationsDB = true.
Proof. vm_compute. reflexivity. Qed.

(** Against the empty query every variation scores zero. *)
Lemma calculateSimilarity_empty_l v : v <> "" -> (calculateSimilarity "" v == 0)%Q.
Proof.
  intros Hv. unfold calculateSimilarity. simpl String.length. rewrite Nat.max_0_l.
  destruct (Nat.eqb_spec (String.length v) 0) as [E|Hn].
  - destruct v; [contradiction | discriminate].
  - rewrite levenshteinDistance_editDistance. simpl.
    rewrite chars_length, toLowerCase_length.
    assert (0 < Qnat (String.length v))%Q as Hpos by (apply Qnat_pos; lia).
    field. lra.
Qed.

(** A pair that neither beats the best score nor reaches the threshold
    leaves the state of the loops as it is. *)
Lemma scanPair_unchanged q th st p :
  (calculateSimilarity q p.2 <= bestScore st)%Q ->
  (calculateSimilarity q p.2 < th)%Q ->
  scanPair q th st p = st.
Proof.
  intros Hb Ht. unfold scanPair, scanVariation.
  rewrite (proj2 (Qltb_false _ _) Hb).
  destruct (Qle_bool th (calculateSimilarity q p.2)) eqn:E; [|reflexivity].
  apply Qle_bool_iff in E. lra.
Qed.

(** X7.  For a query that is empty or all white space, and a positive
    threshold, [findBestMatch] returns no destination, confidence zero,
    no suggestions and [hasGoodMatch] false, and
    [getDestinationSuggestions] returns the empty list. *)
Theorem blank_query_matches_nothing :
  forall (query : string) (threshold : Q) (limit : Z),
    trim (toLowerCase query) = "" ->
    (0 < threshold)%Q ->
    findBestMatch query threshold =
      {| destination := None; confidence := 0; isExact := false;
         suggestions := []; hasGoodMatch := Some false |} /\
    getDestinationSuggestions query limit = [].
Proof.
  intros query threshold limit Hq Hth. split.
  - unfold findBestMatch, findBestMatchIn. rewrite Hq.
    rewrite scanDestinations_inr_intro.
    + assert (foldl (scanPair "" threshold)
                {| bestMatch := None; bestScore := 0; found := [] |}
                (tablePairs destinationsDB)
              = {| bestMatch := None; bestScore := 0; found := [] |}) as ->.
      { assert (forall p, p ∈ tablePairs destinationsDB -> p.2 <> "") as Hne.
        { intros [d v] Hp. apply elem_of_tablePairs in Hp as [Hd Hv].
          exact (variationsNonEmpty_spec _ destinationsDB_nonEmpty d v Hd Hv). }
        induction (tablePairs destinationsDB) as [|p ps IH]; [reflexivity|].
        cbn [foldl]. rewrite scanPair_unchanged.
        - apply IH. intros p' Hp'. apply Hne. right. exact Hp'.
        - rewrite calculateSimilarity_empty_l by (apply Hne; left). apply Qle_refl.
        - rewrite calculateSimilarity_empty_l by (apply Hne; left). exact Hth. }
      cbn [bestMatch bestScore found].
      assert (Qle_bool threshold 0 = false) as ->.
      { destruct (Qle_bool threshold 0) eqn:E; [|reflexivity].
        apply Qle_bool_iff in E. lra. }
      reflexivity.
    + intros d Hd Hin.
      exact (variationsNonEmpty_spec _ destinationsDB_nonEmpty d "" Hd Hin eq_refl).
  - unfold getDestinationSuggestions, getDestinationSuggestionsIn. rewrite Hq. reflexivity.
Qed.

Lemma blank_query_matches_nothing_witness :
  findBestMatch "   " default_threshold =
    {| destination := None; confidence := 0; isExact := false;
       suggestions := []; hasGoodMatch := Some false |} /\
  getDestinationSuggestions "   " 5 = [].
Proof.
  apply (blank_query_matches_nothing "   " default_threshold 5).
  - reflexivity.
  - reflexivity.
Defined.

(** ** Case and surrounding white space *)

Lemma trimStart_head s :
  match trimStart s with
  | EmptyString => True
  | String c _ => is_ws c = false
  end.
Proof.
  induction s as [|c s IH]; simpl; [exact I|].
  destruct (is_ws c) eqn:E; [exact IH | exact E].
Qed.

Lemma trimEnd_head c s :
  is_ws c = false -> exists t, trimEnd (String c s) = String c t.
Proof.
  intros Hc. simpl. destruct (trimEnd s); [rewrite Hc|]; eauto.
Qed.

Lemma trimEnd_idem s : trimEnd (trimEnd s) = trimEnd s.
Proof.
  induction s as [|c s IH]; simpl; [reflexivity|].
  destruct (trimEnd s) as [|d t] eqn:E.
  - destruct (is_ws c) eqn:Hc; simpl; [reflexivity|]. rewrite Hc. reflexivity.
  - change (trimEnd (String c (String d t))) with
      (match trimEnd (String d t) with
       | EmptyString => if is_ws c then EmptyString else String c EmptyString
       | u => String c u
       end).
    rewrite IH. reflexivity.
Qed.

Lemma trim_idem s : trim (trim s) = trim s.
Proof.
  unfold trim. pose proof (trimStart_head s) as H.
  destruct (trimStart s) as [|c u] eqn:E; [reflexivity|].
  destruct (trimEnd_head c u H) as [t Ht]. rewrite Ht.
  assert (trimStart (String c t) = String c t) as ->.
  { simpl. rewrite H. reflexivity. }
  rewrite <- Ht. apply trimEnd_idem.
Qed.

(** X8.  Both queries look at the trimmed, lower-cased query only: they
    give the same answer for a query, for the query with its surrounding
    white space removed, and for any query that differs from it in case
    only. *)
Theorem queries_ignore_case_and_padding :
  forall (query : string) (threshold : Q) (limit : Z),
    findBestMatch (trim query) threshold = findBestMatch query threshold /\
    getDestinationSuggestions (trim query) limit = getDestinationSuggestions query limit /\
    (forall query', toLowerCase query' = toLowerCase query ->
       findBestMatch query' threshold = findBestMatch query threshold /\
       getDestinationSuggestions query' limit = getDestinationSuggestions query limit).
Proof.
  intros query threshold limit.
  assert (trim (toLowerCase (trim query)) = trim (toLowerCase query)) as Ht.
  { rewrite toLowerCase_trim. apply trim_idem. }
  split; [|split].
  - unfold findBestMatch, findBestMatchIn. rewrite Ht. reflexivity.
  - unfold getDestinationSuggestions, getDestinationSuggestionsIn. rewrite Ht. reflexivity.
  - intros query' E. split.
    + unfold findBestMatch, findBestMatchIn. rewrite E. reflexivity.
    + unfold getDestinationSuggestions, getDestinationSuggestionsIn. rewrite E. reflexivity.
Qed.

(** ** [getDestinationSuggestions] *)

(** A string that starts with the query contains it: the first half of
    the test adds nothing. *)
Lemma matchesQuery_includes q v : matchesQuery q v = includes v q.
Proof.
  unfold matchesQuery. destruct v as [|c v]; cbn [includes].
  - destruct (startsWith EmptyString q); reflexivity.
  - destruct (startsWith (String c v) q); reflexivity.
Qed.

Lemma suggestFor_eq q acc d :
  suggestFor q acc d =
  (acc ++ match List.find (matchesQuery q) (variations d) with
          | Some v => [listedSuggestion q d v]
          | None => []
          end)%list.
Proof.
  unfold suggestFor. fold (matchesQuery q).
  destruct (find (matchesQuery q) (variations d)); [reflexivity|].
  rewrite app_nil_r. reflexivity.
Qed.

(** The loop pushes, record by record, at most one suggestion. *)
Lemma foldl_suggestFor q db acc :
  foldl (suggestFor q) acc db =
  (acc ++ omap (fun d => listedSuggestion q d <$> List.find (matchesQuery q) (variations d)) db)%list.
Proof.
  revert acc. induction db as [|d db IH]; intros acc.
  - simpl. rewrite app_nil_r. reflexivity.
  - cbn [foldl]. rewrite IH, suggestFor_eq. cbn [omap list_omap].
    destruct (find (matchesQuery q) (variations d)); simpl.
    + rewrite <- app_assoc. reflexivity.
    + rewrite app_nil_r. reflexivity.
Qed.

Lemma listed_names_sublist q db :
  sname <$> omap (fun d => listedSuggestion q d <$> List.find (matchesQuery q) (variations d)) db
  `sublist_of` name <$> db.
Proof.
  induction db as [|d db IH]; [constructor|].
  cbn [omap list_omap]. destruct (find (matchesQuery q) (variations d)); simpl.
  - constructor. exact IH.
  - constructor. exact IH.
Qed.

Lemma filter_all {A} (P : A -> Prop) `{forall x, Decision (P x)} (l : list A) :
  Forall P l -> filter P l = l.
Proof.
  induction 1 as [|x l Hx Hl IH]; [reflexivity|].
  rewrite filter_cons_True by exact Hx. f_equal. exact IH.
Qed.

(** On a list without repeated names [uniqueByName] removes nothing. *)
Lemma uniqueByName_id l : NoDup (sname <$> l) -> uniqueByName l = l.
Proof.
  intros Hnd. unfold uniqueByName. rewrite filter_all; [apply snd_imap_pair|].
  apply Forall_forall. intros [i x] Hin.
  apply elem_of_lookup_imap in Hin as (i' & x' & [= <- <-] & Hx).
  apply findIndex_Some. split.
  - exists x. split; [exact Hx|]. unfold sameName. apply bool_decide_eq_true. reflexivity.
  - intros j y Hj Hy. unfold sameName. apply bool_decide_eq_false. intros Hname.
    assert (j = i); [|lia].
    eapply NoDup_lookup; [exact Hnd| |].
    + rewrite list_lookup_fmap, Hy. simpl. rewrite Hname. reflexivity.
    + rewrite list_lookup_fmap, Hx. reflexivity.
Qed.

Lemma getDestinationSuggestions_eq query limit :
  2 <= String.length (trim (toLowerCase query)) ->
  getDestinationSuggestions query limit =
  slice0 limit (sortBySimilarity
    (omap (fun d => listedSuggestion (trim (toLowerCase query)) d
                      <$> List.find (matchesQuery (trim (toLowerCase query))) (variations d))
          destinationsDB)).
Proof.
  intros Hlen. unfold getDestinationSuggestions, getDestinationSuggestionsIn.
  destruct (Nat.ltb_spec (String.length (trim (toLowerCase query))) 2); [lia|].
  rewrite foldl_suggestFor, app_nil_l, uniqueByName_id; [reflexivity|].
  eapply sublist_NoDup; [apply destinationsDB_names | apply listed_names_sublist].
Qed.

(** X9.  Every suggestion of [getDestinationSuggestions] stands for a
    record of the table one of whose variations contains the query, and
    carries the similarity of the first such variation.  For a query of at
    least two characters, when fewer than [limit] suggestions are returned,
    every record with a variation that contains the query is listed. *)
Theorem getDestinationSuggestions_lists_matches :
  forall (query : string) (limit : Z),
    let ql := trim (toLowerCase query) in
    let listed := getDestinationSuggestions query limit in
    (forall s, s ∈ listed ->
       exists d v, d ∈ destinationsDB /\ v ∈ variations d /\ includes v ql = true /\
                   List.find (matchesQuery ql) (variations d) = Some v /\
                   s = listedSuggestion ql d v) /\
    (2 <= String.length ql ->
     length listed < Z.to_nat limit ->
     forall d v, d ∈ destinationsDB -> v ∈ variations d -> includes v ql = true ->
                 name d ∈ sname <$> listed).
Proof.
  intros query limit ql listed. split.
  - intros s Hs. subst listed.
    destruct (Nat.ltb_spec (String.length ql) 2) as [Hshort|Hlong].
    + unfold getDestinationSuggestions, getDestinationSuggestionsIn in Hs. fold ql in Hs.
      rewrite (proj2 (Nat.ltb_lt _ _) Hshort) in Hs. apply elem_of_nil in Hs as [].
    + rewrite getDestinationSuggestions_eq in Hs by exact Hlong. fold ql in Hs.
      apply (sublist_subseteq _ _ (slice0_sublist _ _)) in Hs.
      rewrite sortBySimilarity_perm in Hs.
      apply list_elem_of_omap in Hs as (d & Hd & Hf).
      apply fmap_Some in Hf as (v & Hf & ->).
      pose proof Hf as Hf'. apply find_some in Hf' as [Hv Hm].
      rewrite matchesQuery_includes in Hm. apply list_elem_of_In in Hv.
      exists d, v. auto.
  - intros Hlong Hlen d v Hd Hv Hinc. subst listed.
    rewrite getDestinationSuggestions_eq in * by exact Hlong. fold ql in Hlen |- *.
    assert (0 <= limit)%Z as Hl by lia.
    unfold slice0 in *. destruct (Z.ltb_spec limit 0) as [|_]; [lia|].
    rewrite take_ge in * by (rewrite length_take in Hlen; lia).
    rewrite sortBySimilarity_perm.
    destruct (List.find (matchesQuery ql) (variations d)) as [v'|] eqn:Hf.
    + apply list_elem_of_fmap. exists (listedSuggestion ql d v'). split; [reflexivity|].
      apply list_elem_of_omap. exists d. split; [exact Hd|]. rewrite Hf. reflexivity.
    + exfalso. apply list_elem_of_In in Hv.
      pose proof (find_none _ _ Hf v Hv) as Hn.
      rewrite matchesQuery_includes in Hn. congruence.
Qed.

(** X10.  Asking for fewer suggestions gives the beginning of the longer
    list. *)
Theorem getDestinationSuggestions_prefix :
  forall (query : string) (limit1 limit2 : Z),
    (0 <= limit1 <= limit2)%Z ->
    getDestinationSuggestions query limit1 =
    take (Z.to_nat limit1) (getDestinationSuggestions query limit2).
Proof.
  intros query limit1 limit2 [H1 H2].
  unfold getDestinationSuggestions, getDestinationSuggestionsIn.
  destruct (String.length (trim (toLowerCase query)) <? 2).
  - rewrite take_nil. reflexivity.
  - unfold slice0.
    destruct (Z.ltb_spec limit1 0); [lia|]. destruct (Z.ltb_spec limit2 0); [lia|].
    rewrite take_take. f_equal. lia.
Qed.

Lemma getDestinationSuggestions_prefix_witness :
  getDestinationSuggestions "on" 2 = take (Z.to_nat 2) (getDestinationSuggestions "on" 5).
Proof.
  apply (getDestinationSuggestions_prefix "on" 2 5). lia.
Defined.

(** * The components that use the matcher *)

Lemma namesNonEmpty_spec db :
  namesNonEmpty db = true -> forall d, d ∈ db -> name d <> "".
Proof.
  unfold namesNonEmpty. rewrite forallb_forall. intros H d Hd.
  apply list_elem_of_In in Hd. specialize (H d Hd).
  apply negb_true_iff, bool_decide_eq_false in H. exact H.
Qed.

Lemma destinationsDB_namesNonEmpty : namesNonEmpty destinationsDB = true.
Proof. vm_compute. reflexivity. Qed.

(** A result with a truthy [hasGoodMatch] and a positive confidence comes
    from the fuzzy path and names a record of the table, through one of
    its variations. *)
Lemma good_match_names_record query threshold :
  let r := findBestMatch query threshold in
  truthy (hasGoodMatch r) = true -> (0 < confidence r)%Q ->
  isExact r = false /\ (confidence r < 1)%Q /\
  exists d v, d ∈ destinationsDB /\ v ∈ variations d /\
              trim (toLowerCase query) <> v /\
              destination r = Some (name d) /\ name d <> "" /\
              confidence r = calculateSimilarity (trim (toLowerCase query)) v.
Proof.
  intros r Hgood Hpos.
  assert (isExact r = false) as Hex.
  { destruct (findBestMatchIn_hasGoodMatch destinationsDB query threshold)
      as [[H1 H2]|[H1 H2]]; fold findBestMatch in H1, H2; fold r in H1, H2.
    - rewrite H2 in Hgood. discriminate.
    - exact H1. }
  split; [exact Hex|].
  destruct (findBestMatch_fuzzy query threshold Hex) as [E Hnot]. cbv zeta in E.
  destruct (fuzzy_state_below1 query threshold Hnot) as [Hlt1 _].
  pose proof (best_scanPairs (trim (toLowerCase query)) threshold
                (tablePairs destinationsDB)) as HB. cbv zeta in HB.
  subst r. rewrite E in Hpos |- *. cbn [confidence destination] in *.
  set (st := foldl _ _ (tablePairs destinationsDB)) in *.
  split; [exact Hlt1|].
  destruct HB as [(_ & Hs & _)|(pre & [d v] & post & Hps & Hm & Hs & _)].
  - rewrite Hs in Hpos. exfalso. exact (Qlt_irrefl _ Hpos).
  - cbn [fst snd] in *.
    assert ((d, v) ∈ tablePairs destinationsDB) as Hin.
    { rewrite Hps. apply elem_of_app. right. left. }
    apply elem_of_tablePairs in Hin as [Hd Hv].
    exists d, v. split; [exact Hd|]. split; [exact Hv|]. split.
    + intros Heq. apply (Hnot d Hd). rewrite Heq. exact Hv.
    + split; [exact Hm|]. split; [|exact Hs].
      apply (namesNonEmpty_spec _ destinationsDB_namesNonEmpty d Hd).
Qed.

(** On the exact path [hasGoodMatch] is missing and there are no
    suggestions. *)
Lemma listed_variation_result query threshold :
  (exists d, d ∈ destinationsDB /\ trim (toLowerCase query) ∈ variations d) ->
  hasGoodMatch (findBestMatch query threshold) = None /\
  suggestions (findBestMatch query threshold) = [].
Proof.
  intros (d & Hd & Hq). unfold findBestMatch, findBestMatchIn.
  rewrite (scanDestinations_exact _ _ _ _ d); [split; reflexivity|].
  apply variationsOwned_spec; [apply destinationsDB_owned | exact Hd | exact Hq].
Qed.

(** ** Explore: the term that is fetched *)

(** X11.  For a non-empty search term Explore fetches a non-empty term:
    the search term itself, or the canonical name of a record of the table
    when the match is fuzzy with a confidence of at least 0.82.  A search
    term that is a listed variation (a listed misspelling included) is
    fetched as typed. *)
Theorem effectiveSearchTerm_result :
  forall term : string,
    term <> "" ->
    let r := findBestMatch term default_threshold in
    exists s,
      Explore.effectiveSearchTerm (Some term) = Some s /\ s <> "" /\
      (s = term \/
       (isExact r = false /\ (82 # 100 <= confidence r)%Q /\
        exists d, d ∈ destinationsDB /\ s = name d)) /\
      ((exists d, d ∈ destinationsDB /\ trim (toLowerCase term) ∈ variations d) ->
       s = term).
Proof.
  intros term Hne r. unfold Explore.effectiveSearchTerm.
  rewrite bool_decide_eq_false_2 by exact Hne. fold r.
  destruct (truthy (hasGoodMatch r) && Qle_bool (82 # 100) (confidence r)) eqn:E.
  - apply andb_true_iff in E as [Hgood Hconf]. apply Qle_bool_iff in Hconf.
    destruct (good_match_names_record term default_threshold Hgood)
      as (Hex & _ & d & v & Hd & _ & _ & Hdest & Hn & _).
    { fold r. eapply Qlt_le_trans; [|exact Hconf]. reflexivity. }
    fold r in Hex, Hdest. exists (name d). split; [exact Hdest|]. split; [exact Hn|].
    split.
    + right. split; [exact Hex|]. split; [exact Hconf|]. eauto.
    + intros Hlisted. apply (listed_variation_result term default_threshold) in Hlisted
        as [Hh _]. fold r in Hh. rewrite Hh in Hgood. discriminate.
  - exists term. split; [reflexivity|]. split; [exact Hne|]. split; [left; reflexivity|].
    reflexivity.
Qed.

Lemma effectiveSearchTerm_result_witness :
  let r := findBestMatch "londonn" default_threshold in
  exists s,
    Explore.effectiveSearchTerm (Some "londonn") = Some s /\ s <> "" /\
    (s = "londonn" \/
     (isExact r = false /\ (82 # 100 <= confidence r)%Q /\
      exists d, d ∈ destinationsDB /\ s = name d)) /\
    ((exists d, d ∈ destinationsDB /\ trim (toLowerCase "londonn") ∈ variations d) ->
     s = "londonn").
Proof.
  apply (effectiveSearchTerm_result "londonn"). discriminate.
Defined.

(** ** Explore: the correction notice *)

(** X12.  When Explore has correction data for a search term, the term has
    more than two characters, the original is the term, the correction is
    the canonical name of a record of the table and differs from the
    term, and the confidence lies strictly between 0.7 and 1. *)
Theorem correctionData_sound :
  forall (term : string) (c : Explore.Correction),
    Explore.correctionData (Some term) = Some c ->
    2 < String.length term /\
    Explore.original c = term /\
    (exists d, d ∈ destinationsDB /\ Explore.corrected c = Some (name d) /\ name d <> term) /\
    (7 # 10 < Explore.correctionConfidence c)%Q /\
    (Explore.correctionConfidence c < 1)%Q /\
    Explore.correctionConfidence c = confidence (findBestMatch term default_threshold).
Proof.
  intros term c. unfold Explore.correctionData.
  destruct (negb (bool_decide (term = "")) && (2 <? String.length term)) eqn:E1;
    [|discriminate].
  apply andb_true_iff in E1 as [_ Hlen]. apply Nat.ltb_lt in Hlen.
  set (r := findBestMatch term default_threshold).
  destruct (truthy (hasGoodMatch r) && negb (bool_decide (destination r = Some term))
            && Qltb (7 # 10) (confidence r) && Qltb (confidence r) 1) eqn:E2;
    [|discriminate].
  intros [= <-]. cbn [Explore.original Explore.corrected Explore.correctionConfidence].
  apply andb_true_iff in E2 as [E2 H1]. apply andb_true_iff in E2 as [E2 H7].
  apply andb_true_iff in E2 as [Hgood Hdiff].
  apply Qltb_true in H1, H7. apply negb_true_iff, bool_decide_eq_false in Hdiff.
  destruct (good_match_names_record term default_threshold Hgood)
    as (_ & _ & d & v & Hd & _ & _ & Hdest & _).
  { fold r. eapply Qlt_trans; [|exact H7]. reflexivity. }
  fold r in Hdest.
  split; [exact Hlen|]. split; [reflexivity|]. split.
  - exists d. split; [exact Hd|]. split; [exact Hdest|].
    intros Hn. apply Hdiff. rewrite Hdest, Hn. reflexivity.
  - auto.
Qed.

Lemma correctionData_sound_witness :
  exists c,
    Explore.correctionData (Some "londonn") = Some c /\
    2 < String.length "londonn" /\
    Explore.original c = "londonn" /\
    (exists d, d ∈ destinationsDB /\ Explore.corrected c = Some (name d) /\
               name d <> "londonn") /\
    (7 # 10 < Explore.correctionConfidence c)%Q /\
    (Explore.correctionConfidence c < 1)%Q /\
    Explore.correctionConfidence c = confidence (findBestMatch "londonn" default_threshold).
Proof.
  eexists. split; [vm_compute; reflexivity|].
  apply (correctionData_sound "londonn"). vm_compute. reflexivity.
Defined.

Lemma trimStart_length s : String.length (trimStart s) <= String.length s.
Proof. induction s as [|c s IH]; simpl; [lia|]. destruct (is_ws c); simpl; lia. Qed.

Lemma trimEnd_length s : String.length (trimEnd s) <= String.length s.
Proof.
  induction s as [|c s IH]; simpl; [lia|].
  destruct (trimEnd s); [destruct (is_ws c)|]; simpl in *; lia.
Qed.

Lemma trim_length s : String.length (trim s) <= String.length s.
Proof.
  unfold trim. etransitivity; [apply trimEnd_length | apply trimStart_length].
Qed.

(** A similarity of 0.82 or more between two strings that differ needs a
    first string of at least three characters. *)
Lemma similarity_high_long q v :
  (82 # 100 <= calculateSimilarity q v)%Q ->
  toLowerCase q <> toLowerCase v ->
  3 <= String.length q.
Proof.
  intros Hsim Hne. unfold calculateSimilarity in Hsim.
  destruct (Nat.eqb_spec (Nat.max (String.length q) (String.length v)) 0) as [E|Hm].
  { exfalso. apply Hne.
    assert (String.length q = 0 /\ String.length v = 0) as [Ha Hb] by lia.
    destruct q; [|discriminate]. destruct v; [|discriminate]. reflexivity. }
  set (d := levenshteinDistance (toLowerCase q) (toLowerCase v)) in *.
  set (m := Nat.max (String.length q) (String.length v)) in *.
  assert (0 < d) as Hd.
  { subst d. destruct (levenshteinDistance _ _) eqn:E; [|lia].
    apply levenshteinDistance_zero in E. contradiction. }
  assert (m - Nat.min (String.length q) (String.length v) <= d) as Hlo.
  { subst d m. rewrite levenshteinDistance_editDistance.
    destruct (editDistance_bounds (chars (toLowerCase q)) (chars (toLowerCase v))) as [H _].
    rewrite !chars_length, !toLowerCase_length in H. exact H. }
  assert (100 * d <= 18 * m) as Hz.
  { assert (0 < Qnat m)%Q as Hmpos by (apply Qnat_pos; lia).
    assert (Qnat d / Qnat m <= 18 # 100)%Q as Hr by lra.
    assert (Qnat d <= (18 # 100) * Qnat m)%Q as Hq.
    { assert (Qnat d == Qnat d / Qnat m * Qnat m)%Q as Heq by (field; lra).
      rewrite Heq. apply Qmult_le_compat_r; [exact Hr | lra]. }
    unfold Qle, Qnat in Hq. cbn in Hq. lia. }
  subst m. lia.
Qed.

(** X13.  Whenever Explore fetches another term than the one typed, it
    also has correction data, whose correction is the term fetched: a
    silent replacement never goes without the notice. *)
Theorem correction_accompanies_replacement :
  forall term s : string,
    Explore.effectiveSearchTerm (Some term) = Some s ->
    s <> term ->
    exists c,
      Explore.correctionData (Some term) = Some c /\
      Explore.original c = term /\
      Explore.corrected c = Some s /\
      (82 # 100 <= Explore.correctionConfidence c)%Q.
Proof.
  intros term s. unfold Explore.effectiveSearchTerm, Explore.correctionData.
  destruct (bool_decide (term = "")) eqn:Hempty; [discriminate|].
  set (r := findBestMatch term default_threshold).
  destruct (truthy (hasGoodMatch r) && Qle_bool (82 # 100) (confidence r)) eqn:E;
    [|intros [= <-] Hs; contradiction].
  intros Hdest Hs.
  apply andb_true_iff in E as [Hgood Hconf]. apply Qle_bool_iff in Hconf.
  destruct (good_match_names_record term default_threshold Hgood)
    as (_ & Hlt1 & d & v & Hd & Hv & Hqv & _ & _ & Hc).
  { fold r. eapply Qlt_le_trans; [|exact Hconf]. reflexivity. }
  fold r in Hlt1, Hc.
  assert (2 < String.length term) as Hlen.
  { pose proof (trim_length (toLowerCase term)) as Ht.
    rewrite toLowerCase_length in Ht.
    assert (3 <= String.length (trim (toLowerCase term))); [|lia].
    apply (similarity_high_long _ v).
    - rewrite <- Hc. exact Hconf.
    - rewrite queryLower_is_lower.
      rewrite (variationsLower_spec _ destinationsDB_lower d v Hd Hv). exact Hqv. }
  simpl negb. rewrite (proj2 (Nat.ltb_lt _ _) Hlen). simpl andb.
  rewrite Hgood, Hdest.
  rewrite bool_decide_eq_false_2 by (intros [= ?]; contradiction).
  rewrite (proj2 (Qltb_true _ _)) by lra.
  rewrite (proj2 (Qltb_true _ _) Hlt1). simpl.
  eexists. split; [reflexivity|]. simpl. auto.
Qed.

Lemma correction_accompanies_replacement_witness :
  exists c,
    Explore.correctionData (Some "londonn") = Some c /\
    Explore.original c = "londonn" /\
    Explore.corrected c = Some "London" /\
    (82 # 100 <= Explore.correctionConfidence c)%Q.
Proof.
  apply (correction_accompanies_replacement "londonn" "London").
  - vm_compute. reflexivity.
  - discriminate.
Defined.

(** ** The search bar with suggestions *)

(** X14.  When [handleSubmit] calls [onSearch], the argument is a
    non-empty string, either the trimmed query or the canonical name of a
    record of the table, and the input is cleared.  A blank query does
    nothing, and a query that is a listed variation is searched as
    typed. *)
Theorem handleSubmit_searches :
  forall s : SmartSearchBar.State,
    let q := trim (SmartSearchBar.query s) in
    (forall s' t, SmartSearchBar.handleSubmit s = (s', SmartSearchBar.OnSearch t) ->
       exists term, t = Some term /\ term <> "" /\
                    (term = q \/ exists d, d ∈ destinationsDB /\ term = name d) /\
                    SmartSearchBar.query s' = "" /\
                    SmartSearchBar.showSuggestions s' = false) /\
    (SmartSearchBar.handleSubmit s).2 <> SmartSearchBar.TypeError /\
    (q = "" -> SmartSearchBar.handleSubmit s = (s, SmartSearchBar.Quiet)) /\
    ((exists d, d ∈ destinationsDB /\ trim (toLowerCase q) ∈ variations d) ->
     SmartSearchBar.handleSubmit s
     = (SmartSearchBar.cleared s, SmartSearchBar.OnSearch (Some q))).
Proof.
  intros s q. set (r := findBestMatch q default_threshold).
  assert (forall d, d ∈ destinationsDB -> trim (toLowerCase q) ∈ variations d -> q <> "")
    as Hlisted_ne.
  { intros d Hd Hv ->.
    exact (variationsNonEmpty_spec _ destinationsDB_nonEmpty d _ Hd Hv eq_refl). }
  split; [|split; [|split]].
  - intros s' t. unfold SmartSearchBar.handleSubmit. fold q.
    destruct (bool_decide (q = "")) eqn:Hq; [discriminate|].
    apply bool_decide_eq_false in Hq. fold r.
    destruct (truthy (hasGoodMatch r) && Qltb (8 # 10) (confidence r)) eqn:E.
    + intros [= <- <-].
      apply andb_true_iff in E as [Hgood Hconf]. apply Qltb_true in Hconf.
      destruct (good_match_names_record q default_threshold Hgood)
        as (_ & _ & d & v & Hd & _ & _ & Hdest & Hn & _).
      { fold r. eapply Qlt_trans; [|exact Hconf]. reflexivity. }
      fold r in Hdest. exists (name d). split; [exact Hdest|]. split; [exact Hn|].
      split; [right; eauto|]. split; reflexivity.
    + destruct (0 <? length (suggestions r)); [discriminate|].
      intros [= <- <-]. exists q. split; [reflexivity|]. split; [exact Hq|].
      split; [left; reflexivity|]. split; reflexivity.
  - unfold SmartSearchBar.handleSubmit.
    destruct (bool_decide _); [discriminate|].
    destruct (_ && _); [discriminate|].
    destruct (0 <? _); discriminate.
  - intros Hq. unfold SmartSearchBar.handleSubmit. fold q. rewrite Hq. reflexivity.
  - intros (d & Hd & Hv). unfold SmartSearchBar.handleSubmit. fold q.
    rewrite bool_decide_eq_false_2 by exact (Hlisted_ne d Hd Hv).
    destruct (listed_variation_result q default_threshold) as [-> ->]; [eauto|].
    reflexivity.
Qed.

Lemma handleSubmit_keeps s :
  SmartSearchBar.selectedSuggestionIndex (SmartSearchBar.handleSubmit s).1
    = SmartSearchBar.selectedSuggestionIndex s /\
  SmartSearchBar.barSuggestions (SmartSearchBar.handleSubmit s).1
    = SmartSearchBar.barSuggestions s /\
  (SmartSearchBar.handleSubmit s).2 <> SmartSearchBar.TypeError.
Proof.
  unfold SmartSearchBar.handleSubmit.
  destruct (bool_decide (trim (SmartSearchBar.query s) = "")); [simpl; auto; fail|].
  destruct (truthy _ && _); [simpl; auto; fail|].
  destruct (0 <? _); simpl; auto.
Qed.

(** X15.  While the list of suggestions stays the same, the keys keep the
    selected index at [-1] or at the index of a suggestion, and no key
    reads a suggestion that does not exist; Enter on a selected suggestion
    searches its name. *)
Theorem handleKeyDown_selection :
  forall (key : string) (s : SmartSearchBar.State),
    SmartSearchBar.selectionInRange s ->
    SmartSearchBar.selectionInRange (SmartSearchBar.handleKeyDown key s).1 /\
    SmartSearchBar.barSuggestions (SmartSearchBar.handleKeyDown key s).1
      = SmartSearchBar.barSuggestions s /\
    (SmartSearchBar.handleKeyDown key s).2 <> SmartSearchBar.TypeError /\
    (key = "Enter" -> SmartSearchBar.showSuggestions s = true ->
     forall suggestion,
       SmartSearchBar.barSuggestions s !! Z.to_nat (SmartSearchBar.selectedSuggestionIndex s)
         = Some suggestion ->
       (0 <= SmartSearchBar.selectedSuggestionIndex s)%Z ->
       (SmartSearchBar.handleKeyDown key s).2
         = SmartSearchBar.OnSearch (Some (sname suggestion))).
Proof.
  intros key s Hr. unfold SmartSearchBar.selectionInRange in *.
  unfold SmartSearchBar.handleKeyDown.
  destruct (negb (SmartSearchBar.showSuggestions s)
            || (length (SmartSearchBar.barSuggestions s) =? 0)) eqn:Hguard.
  { split; [exact Hr|]. split; [reflexivity|]. split; [discriminate|].
    intros _ Hshow suggestion Hsug _. rewrite Hshow in Hguard. simpl in Hguard.
    apply Nat.eqb_eq in Hguard. apply lookup_lt_Some in Hsug. lia. }
  destruct (bool_decide (key = "ArrowDown")) eqn:Kd.
  { apply bool_decide_eq_true in Kd. subst key. simpl.
    split; [destruct (Z.ltb_spec (SmartSearchBar.selectedSuggestionIndex s)
                        (Z.of_nat (length (SmartSearchBar.barSuggestions s)) - 1)); lia|].
    split; [reflexivity|]. split; [discriminate|]. discriminate. }
  destruct (bool_decide (key = "ArrowUp")) eqn:Ku.
  { apply bool_decide_eq_true in Ku. subst key. simpl.
    split; [destruct (Z.ltb_spec 0 (SmartSearchBar.selectedSuggestionIndex s)); lia|].
    split; [reflexivity|]. split; [discriminate|]. discriminate. }
  destruct (bool_decide (key = "Enter")) eqn:Ke.
  { destruct (Z.leb_spec 0 (SmartSearchBar.selectedSuggestionIndex s)) as [Hsel|Hsel].
    - destruct (lookup_lt_is_Some_2 (SmartSearchBar.barSuggestions s)
                  (Z.to_nat (SmartSearchBar.selectedSuggestionIndex s))) as [x Hx]; [lia|].
      rewrite Hx. simpl. split; [lia|]. split; [reflexivity|]. split; [discriminate|].
      intros _ _ suggestion Hsug _. congruence.
    - destruct (handleSubmit_keeps s) as (H1 & H2 & H3).
      rewrite H1, H2. split; [exact Hr|]. split; [reflexivity|]. split; [exact H3|].
      intros _ _ suggestion _ H0. lia. }
  destruct (bool_decide (key = "Escape")) eqn:Kx.
  { simpl. split; [lia|]. split; [reflexivity|]. split; [discriminate|].
    intros ->. discriminate. }
  split; [exact Hr|]. split; [reflexivity|]. split; [discriminate|].
  intros ->. discriminate.
Qed.

Lemma handleKeyDown_selection_witness :
  let s := {| SmartSearchBar.query := "lon";
              SmartSearchBar.barSuggestions := getDestinationSuggestions "lon" 5;
              SmartSearchBar.showSuggestions := true;
              SmartSearchBar.isFocused := true;
              SmartSearchBar.selectedSuggestionIndex := 1 |} in
  SmartSearchBar.selectionInRange (SmartSearchBar.handleKeyDown "ArrowDown" s).1 /\
  (SmartSearchBar.handleKeyDown "Enter" s).2 = SmartSearchBar.OnSearch (Some "Barcelona").
Proof.
  intros s.
  assert (SmartSearchBar.selectionInRange s) as Hr.
  { unfold SmartSearchBar.selectionInRange. vm_compute. split; [discriminate | reflexivity]. }
  split.
  - apply (handleKeyDown_selection "ArrowDown" s Hr).
  - destruct (handleKeyDown_selection "Enter" s Hr) as (_ & _ & _ & H).
    apply (H eq_refl eq_refl
             {| sname := "Barcelona"; scountry := "Spain";
                similarity := calculateSimilarity "lon" "barcelona";
                matchedVariation := None |}).
    + vm_compute. reflexivity.
    + vm_compute. discriminate.
Defined.

(** ** The page shown when nothing was found *)

(** In front of a list whose names are all different, [uniqueByName]
    keeps that list as it is. *)
Lemma uniqueByName_app a b :
  NoDup (sname <$> a) ->
  exists rest, uniqueByName (a ++ b)%list = (a ++ rest)%list /\
               forall x, x ∈ rest -> x ∈ b.
Proof.
  intros Hnd. unfold uniqueByName.
  rewrite imap_app, filter_app, fmap_app.
  eexists. split.
  - f_equal. rewrite filter_all; [apply snd_imap_pair|].
    apply Forall_forall. intros [i x] Hin.
    apply elem_of_lookup_imap in Hin as (i' & x' & [= <- <-] & Hx).
    apply findIndex_Some. split.
    + exists x. split; [apply lookup_app_l_Some, Hx|].
      unfold sameName. apply bool_decide_eq_true. reflexivity.
    + intros j y Hj Hy. unfold sameName. apply bool_decide_eq_false. intros Hname.
      pose proof (lookup_lt_Some _ _ _ Hx) as Hi.
      rewrite lookup_app_l in Hy by lia.
      assert (j = i); [|lia].
      eapply NoDup_lookup; [exact Hnd| |].
      * rewrite list_lookup_fmap, Hy. simpl. rewrite Hname. reflexivity.
      * rewrite list_lookup_fmap, Hx. reflexivity.
  - intros x Hx. apply list_elem_of_fmap in Hx as ([i y] & -> & Hin).
    apply list_elem_of_filter in Hin as [_ Hin].
    apply elem_of_lookup_imap in Hin as (i' & y' & Heq & Hy).
    injection Heq as _ ->. eapply list_elem_of_lookup_2. exact Hy.
Qed.

Lemma suggestions_names_NoDup query threshold :
  NoDup (sname <$> suggestions (findBestMatch query threshold)) /\
  length (suggestions (findBestMatch query threshold)) <= 3.
Proof.
  unfold findBestMatch. rewrite suggestions_findBestMatchIn. split.
  - exact (sublist_NoDup _ _ (uniqueByName_NoDup _) (sublist_fmap _ _ _ (sublist_take _ _))).
  - rewrite length_take. lia.
Qed.

(** X16.  The suggestions of the page are those of [findBestMatch] (with
    threshold 0.3), all of them and in their order, followed by those of
    [getDestinationSuggestions] whose names are new.  No name occurs
    twice, every name of either list occurs, and there are at most six
    of them, so that the final [slice(0, 6)] never cuts anything. *)
Theorem noResults_suggestions :
  forall searchTerm : string,
    let fuzzy := suggestions (findBestMatch searchTerm (3 # 10)) in
    let basic := getDestinationSuggestions searchTerm 3 in
    let all := NoResultsFound.allSuggestions searchTerm in
    all = uniqueByName (fuzzy ++ basic)%list /\
    (exists rest, all = (fuzzy ++ rest)%list /\ forall x, x ∈ rest -> x ∈ basic) /\
    NoDup (sname <$> all) /\
    length all <= 6 /\
    (forall x, x ∈ (fuzzy ++ basic)%list -> sname x ∈ sname <$> all).
Proof.
  intros searchTerm fuzzy basic all.
  destruct (suggestions_names_NoDup searchTerm (3 # 10)) as [Hnd Hlen3].
  fold fuzzy in Hnd, Hlen3.
  assert (length basic <= 3) as Hb.
  { subst basic. unfold getDestinationSuggestions, getDestinationSuggestionsIn.
    destruct (_ <? 2); [simpl; lia|]. apply (slice0_length 3). lia. }
  assert (length (uniqueByName (fuzzy ++ basic)%list) <= 6) as Hlen.
  { etransitivity; [apply sublist_length, uniqueByName_sublist|].
    rewrite length_app. lia. }
  assert (all = uniqueByName (fuzzy ++ basic)%list) as Hall.
  { subst all. unfold NoResultsFound.allSuggestions. fold fuzzy basic.
    apply take_ge. exact Hlen. }
  split; [exact Hall|]. rewrite Hall. split; [|split; [|split]].
  - apply uniqueByName_app, Hnd.
  - apply uniqueByName_NoDup.
  - exact Hlen.
  - intros x Hx. destruct (uniqueByName_complete _ _ Hx) as (y & Hy & Hname).
    apply list_elem_of_fmap. exists y. split; [congruence | exact Hy].
Qed.

(** ** The simple search bar *)

(** X17.  The simple search bar calls [onSearch] with a non-empty string
    without white space at either end, and then clears the input; a
    blank query does nothing. *)
Theorem simple_handleSubmit :
  forall query : string,
    (forall query' t, SearchBar.handleSubmit query = (query', Some t) ->
       t = trim query /\ t <> "" /\ trim t = t /\ query' = "") /\
    (trim query = "" -> SearchBar.handleSubmit query = (query, None)).
Proof.
  intros query. unfold SearchBar.handleSubmit. split.
  - intros query' t. destruct (bool_decide (trim query = "")) eqn:E; [discriminate|].
    apply bool_decide_eq_false in E. intros [= <- <-].
    split; [reflexivity|]. split; [exact E|]. split; [apply trim_idem | reflexivity].
  - intros ->. reflexivity.
Qed.

(** ** The favourites *)

Section FavouritesFacts.
Import Favourites.

Lemma find_name_Some (n : string) (l : list Place) :
  is_Some (List.find (fun item => bool_decide (placeName item = n)) l) <-> isFavourite n l.
Proof.
  unfold isFavourite. split.
  - intros [x Hx]. apply find_some in Hx as [Hin Hn].
    apply bool_decide_eq_true in Hn. apply list_elem_of_In in Hin. eauto.
  - intros (x & Hin & Hn).
    destruct (List.find _ l) eqn:E; [eauto|].
    apply list_elem_of_In in Hin.
    pose proof (find_none _ _ E x Hin) as Hf. simpl in Hf.
    apply bool_decide_eq_false in Hf. contradiction.
Qed.

(** X18.  Toggling a place flips whether its name is among the
    favourites and leaves every place of another name where it is; names
    that were all different stay so; and toggling twice a place that was
    not a favourite gives back the list as it was. *)
Theorem handleToggleFavourite_toggles :
  forall (destination : Place) (prev : list Place),
    let next := (handleToggleFavourite destination prev).1 in
    (isFavourite (placeName destination) next <->
     ~ isFavourite (placeName destination) prev) /\
    filter (fun item => placeName item <> placeName destination) next
      = filter (fun item => placeName item <> placeName destination) prev /\
    (NoDup (placeName <$> prev) -> NoDup (placeName <$> next)) /\
    (~ isFavourite (placeName destination) prev ->
     (handleToggleFavourite destination next).1 = prev).
Proof.
  intros destination prev next. subst next. unfold handleToggleFavourite.
  destruct (List.find _ prev) as [x|] eqn:E.
  - assert (isFavourite (placeName destination) prev) as Hfav.
    { apply find_name_Some. rewrite E. eauto. }
    cbn [fst]. split; [|split; [|split]].
    + split; [|contradiction]. intros (y & Hy & Hn) _.
      apply list_elem_of_filter in Hy as [Hne _]. contradiction.
    + apply list_filter_filter_l. auto.
    + intros Hnd. eapply sublist_NoDup; [exact Hnd|].
      apply sublist_fmap, sublist_filter.
    + contradiction.
  - assert (~ isFavourite (placeName destination) prev) as Hnot.
    { intros H. apply find_name_Some in H as [y Hy]. congruence. }
    cbn [fst]. split; [|split; [|split]].
    + split; [auto|]. intros _. exists (savedNow destination). split; [|reflexivity].
      apply elem_of_app. right. left.
    + rewrite filter_app, filter_cons_False, filter_nil, app_nil_r; [reflexivity|].
      simpl. auto.
    + intros Hnd. rewrite fmap_app. apply NoDup_app. split; [exact Hnd|]. split.
      * intros n Hn Hn'. apply list_elem_of_singleton in Hn'. subst n.
        apply Hnot. apply list_elem_of_fmap in Hn as (y & Hy & Hin).
        exists y. split; [exact Hin | simpl in Hy; congruence].
      * simpl. apply NoDup_singleton.
    + intros _.
      assert (List.find (fun item => bool_decide (placeName item = placeName destination))
                (prev ++ [savedNow destination])%list = Some (savedNow destination)) as ->.
      { clear E. induction prev as [|y prev IH]; simpl.
        - rewrite bool_decide_eq_true_2 by reflexivity. reflexivity.
        - destruct (bool_decide (placeName y = placeName destination)) eqn:Ey.
          + exfalso. apply Hnot. apply bool_decide_eq_true in Ey.
            exists y. split; [left | exact Ey].
          + apply IH. intros (z & Hz & Hn). apply Hnot. exists z. split; [right|]; auto. }
      cbn [fst]. rewrite filter_app, filter_cons_False, filter_nil, app_nil_r by (simpl; auto).
      apply filter_all. apply Forall_forall. intros y Hy Hn. apply Hnot.
      exists y. split; [exact Hy | exact Hn].
Qed.

End FavouritesFacts.

(** ** Explore: the photo modal *)

Section PhotoModalFacts.
Context {Photo : Type}.
Implicit Types (rs : list Photo) (m : Explore.Modal Photo).

Lemma handleNextPhoto_inSync rs m :
  Explore.inSync (Some rs) m -> Explore.inSync (Some rs) (Explore.handleNextPhoto (Some rs) m).
Proof.
  unfold Explore.inSync, Explore.handleNextPhoto. intros H.
  destruct (Z.ltb_spec (Z.of_nat (Explore.photoModalIndex m)) (Z.of_nat (length rs) - 1));
    [|exact H].
  simpl. intros _. split; [|reflexivity]. apply lookup_lt_is_Some_2. lia.
Qed.

Lemma handlePrevPhoto_inSync rs m :
  Explore.inSync (Some rs) m -> Explore.inSync (Some rs) (Explore.handlePrevPhoto (Some rs) m).
Proof.
  unfold Explore.inSync, Explore.handlePrevPhoto. intros H.
  destruct (Nat.ltb_spec 0 (Explore.photoModalIndex m)); [|exact H].
  simpl. intros Hopen. destruct (H Hopen) as [Hs Hl]. split; [|reflexivity].
  rewrite <- Hl in Hs. apply lookup_lt_is_Some in Hs.
  apply lookup_lt_is_Some_2. lia.
Qed.

(** X19.  As long as the list of results stays the same, an open modal
    shows the photo its index points at: a click on a photo of the list
    establishes this, and every key, and the next and previous buttons,
    keep it, and going to the next photo and back returns to the same
    state.  (Nothing adjusts the selected photo or the index when the
    list itself is replaced; the statement is about one list.) *)
Theorem photo_modal_in_sync :
  forall rs (key : string) m,
    Explore.inSync (Some rs) m ->
    Explore.inSync (Some rs) (Explore.handleKeyDown (Some rs) key m) /\
    Explore.inSync (Some rs) (Explore.handleNextPhoto (Some rs) m) /\
    Explore.inSync (Some rs) (Explore.handlePrevPhoto (Some rs) m) /\
    (forall photo index, rs !! index = Some photo ->
       Explore.inSync (Some rs) (Explore.handlePhotoClick photo index m)) /\
    (Explore.isPhotoModalOpen m = true -> Explore.hasNext (Some rs) m = true ->
     Explore.handlePrevPhoto (Some rs) (Explore.handleNextPhoto (Some rs) m) = m).
Proof.
  intros rs key m H. split; [|split; [|split; [|split]]].
  - unfold Explore.handleKeyDown.
    destruct (negb (Explore.isPhotoModalOpen m)); [exact H|].
    destruct (bool_decide (key = "Escape")).
    { unfold Explore.inSync, Explore.handlePhotoModalClose. simpl. discriminate. }
    destruct (bool_decide (key = "ArrowLeft")).
    { destruct (Explore.hasPrev m); [apply handlePrevPhoto_inSync|]; exact H. }
    destruct (bool_decide (key = "ArrowRight")).
    { destruct (Explore.hasNext (Some rs) m); [apply handleNextPhoto_inSync|]; exact H. }
    exact H.
  - apply handleNextPhoto_inSync, H.
  - apply handlePrevPhoto_inSync, H.
  - intros photo index Hp. unfold Explore.inSync, Explore.handlePhotoClick. simpl.
    intros _. split; [eauto | exact Hp].
  - intros Hopen Hnext. unfold Explore.hasNext in Hnext.
    unfold Explore.handleNextPhoto. rewrite Hnext.
    unfold Explore.handlePrevPhoto. simpl.
    replace (Explore.photoModalIndex m + 1 - 1) with (Explore.photoModalIndex m) by lia.
    destruct (Nat.ltb_spec 0 (Explore.photoModalIndex m + 1)); [|lia].
    destruct (H Hopen) as [_ ->]. destruct m; reflexivity.
Qed.

End PhotoModalFacts.

Lemma photo_modal_in_sync_witness :
  let rs := ["a"; "b"; "c"] in
  let m := Explore.handlePhotoClick "b" 1
             {| Explore.selectedPhoto := None; Explore.photoModalIndex := 0;
                Explore.isPhotoModalOpen := false |} in
  Explore.inSync (Some rs) (Explore.handleKeyDown (Some rs) "ArrowRight" m) /\
  Explore.handlePrevPhoto (Some rs) (Explore.handleNextPhoto (Some rs) m) = m.
Proof.
  intros rs m.
  assert (Explore.inSync (Some rs) m) as H.
  { unfold Explore.inSync. simpl. intros _. split; [eauto | reflexivity]. }
  destruct (photo_modal_in_sync rs "ArrowRight" m H) as (H1 & _ & _ & _ & H2).
  split; [exact H1|]. apply H2; reflexivity.
Defined.

(** * Further properties of the hook *)

(** ** The generation counter *)

Lemma fetchNow_token now p w :
  fetchToken (session w) <= fetchToken (session (fetchNow now p w).1).
Proof.
  unfold fetchNow. destruct (key (url p) (options p)) as [k|]; [|simpl; lia].
  simpl. destruct (cache w !! k) as [entry|]; [|simpl; lia].
  destruct (ltNum _ _); simpl; lia.
Qed.

Lemma render_token now p w :
  fetchToken (session w) <= fetchToken (session (render now p w).1).
Proof.
  unfold render. destruct (decide _); [simpl; lia|].
  destruct (bool_decide (url p = "")); [simpl; lia|].
  etransitivity; [|apply fetchNow_token]. simpl. lia.
Qed.

Lemma settled_token now c out w :
  fetchToken (session (fetchNow_settled now c out w)) = fetchToken (session w).
Proof.
  unfold fetchNow_settled. destruct (tryResult out) as [json|err].
  - simpl. destruct (decide (fetchToken (session w) = currentToken c)); simpl;
      destruct (decide _); reflexivity.
  - destruct (bool_decide _); simpl; destruct (decide _); reflexivity.
Qed.

Lemma refetch_token p w :
  fetchToken (session (refetch p w)) = fetchToken (session w).
Proof. apply refetch_requests_no_render. Qed.

Lemma step_token w e : fetchToken (session w) <= fetchToken (session (step w e)).
Proof.
  destruct e as [now p|now c out|p]; cbn [step].
  - apply render_token.
  - rewrite settled_token. lia.
  - rewrite refetch_token. lia.
Qed.

Lemma run_token events w :
  fetchToken (session w) <= fetchToken (session (run events w)).
Proof.
  unfold run. revert w. induction events as [|e events IH]; intros w; simpl; [lia|].
  etransitivity; [apply step_token | apply IH].
Qed.

Lemma fetchNow_call now p w w' c :
  fetchNow now p w = (w', Some c) ->
  currentToken c = S (fetchToken (session w)) /\
  fetchToken (session w') = S (fetchToken (session w)) /\
  key (url p) (options p) = Some (call_key c) /\ call_url c = url p.
Proof.
  unfold fetchNow. destruct (key (url p) (options p)) as [k|]; [|discriminate].
  simpl. destruct (cache w !! k) as [entry|].
  - destruct (ltNum _ _); [discriminate|]. intros [= <- <-]. simpl. auto.
  - intros [= <- <-]. simpl. auto.
Qed.

(** X20.  The generation counter never goes down, whatever happens to the
    hook, and each call gets a number above all earlier ones.  So once a
    later call has been issued, an answer to an earlier call, whenever it
    arrives and whatever it is, changes neither [data] nor [loading]. *)
Theorem superseded_call_never_shows :
  forall (w : World) (now1 now2 now3 : Z) (p1 p2 : Props) (w1 w2 : World) (c1 c2 : Call)
         (between after : list Event) (out : FetchOutcome),
    fetchNow now1 p1 w = (w1, Some c1) ->
    fetchNow now2 p2 (run between w1) = (w2, Some c2) ->
    let w3 := run after w2 in
    currentToken c1 < currentToken c2 /\
    currentToken c2 <= fetchToken (session w3) /\
    data (session (fetchNow_settled now3 c1 out w3)) = data (session w3) /\
    loading (session (fetchNow_settled now3 c1 out w3)) = loading (session w3).
Proof.
  intros w now1 now2 now3 p1 p2 w1 w2 c1 c2 between after out H1 H2 w3.
  apply fetchNow_call in H1 as (Hc1 & Hw1 & _).
  apply fetchNow_call in H2 as (Hc2 & Hw2 & _).
  pose proof (run_token between w1) as Hb.
  pose proof (run_token after w2) as Ha. fold w3 in Ha.
  assert (currentToken c1 < currentToken c2) as Hlt by lia.
  split; [exact Hlt|]. split; [lia|].
  apply settled_stale_keeps_data_loading. lia.
Qed.

Lemma superseded_call_never_shows_witness :
  let p1 := Example.weather "Paris" in
  let p2 := Example.weather "London" in
  let w1 := (fetchNow 0 p1 Example.start).1 in
  let c1 := {| currentToken := 1; call_key := default "" (key (url p1) (options p1));
               call_url := url p1 |} in
  let w2 := (fetchNow 1 p2 w1).1 in
  let c2 := {| currentToken := 2; call_key := default "" (key (url p2) (options p2));
               call_url := url p2 |} in
  let w3 := run [Answered 2 c2 (Resolved true 200 "OK" (inl (JStr "London: rain")))] w2 in
  let late := Resolved true 200 "OK" (inl (JStr "Paris: sun")) in
  currentToken c1 < currentToken c2 /\
  currentToken c2 <= fetchToken (session w3) /\
  data (session (fetchNow_settled 3 c1 late w3)) = data (session w3) /\
  loading (session (fetchNow_settled 3 c1 late w3)) = loading (session w3).
Proof.
  intros p1 p2 w1 c1 w2 c2 w3 late.
  apply (superseded_call_never_shows Example.start 0 1 3 p1 p2 w1 w2 c1 c2 []
           [Answered 2 c2 (Resolved true 200 "OK" (inl (JStr "London: rain")))] late).
  - vm_compute. reflexivity.
  - vm_compute. reflexivity.
Defined.

(** ** The cache *)

(** X21.  A successful answer is stored in the cache under the key of its
    call, whether or not the call is still the latest; a later
    [fetchNow] for the same key, less than the time to live after the
    answer, shows the stored data without asking the network. *)
Theorem answer_is_served_from_cache :
  forall (now now' : Z) (c : Call) (out : FetchOutcome) (json : JsVal) (w : World) (p : Props),
    tryResult out = inl json ->
    key (url p) (options p) = Some (call_key c) ->
    ltNum (now' - now) (ttl (options p)) = true ->
    let w1 := fetchNow_settled now c out w in
    cache w1 !! call_key c = Some {| entry_data := json; timestamp := now |} /\
    (fetchNow now' p w1).2 = None /\
    data (session (fetchNow now' p w1).1) = json /\
    loading (session (fetchNow now' p w1).1) = false.
Proof.
  intros now now' c out json w p Ht Hk Hf w1.
  assert (cache w1 !! call_key c = Some {| entry_data := json; timestamp := now |}) as Hc.
  { subst w1. unfold fetchNow_settled. rewrite Ht.
    destruct (decide _); simpl; destruct (decide _); simpl; apply lookup_insert_eq. }
  split; [exact Hc|].
  destruct (fetchNow_fresh now' p w1 (call_key c) _ Hk Hc Hf) as (w2 & -> & Hd & Hl & _).
  simpl. auto.
Qed.

Lemma answer_is_served_from_cache_witness :
  let p := Example.weather "Paris" in
  let c := {| currentToken := 1; call_key := default "" (key (url p) (options p));
              call_url := url p |} in
  let out := Resolved true 200 "OK" (inl (JStr "Paris: sun")) in
  let w1 := fetchNow_settled 10 c out Example.overlap_newer_answered in
  cache w1 !! call_key c = Some {| entry_data := JStr "Paris: sun"; timestamp := 10 |} /\
  (fetchNow 20 p w1).2 = None /\
  data (session (fetchNow 20 p w1).1) = JStr "Paris: sun" /\
  loading (session (fetchNow 20 p w1).1) = false.
Proof.
  intros p c out w1.
  apply (answer_is_served_from_cache 10 20 c out (JStr "Paris: sun")
           Example.overlap_newer_answered p); reflexivity.
Defined.

(** X22.  The answer to the latest call always ends the loading state,
    whatever the answer is; a successful one shows its data and leaves
    [error] as it is, and a failure leaves [data] as it is. *)
Theorem latest_answer_ends_loading :
  forall (now : Z) (c : Call) (out : FetchOutcome) (w : World),
    fetchToken (session w) = currentToken c ->
    let w' := fetchNow_settled now c out w in
    loading (session w') = false /\
    (forall json, tryResult out = inl json ->
       data (session w') = json /\ error (session w') = error (session w)) /\
    (forall err, tryResult out = inr err ->
       data (session w') = data (session w) /\ cache w' = cache w).
Proof.
  intros now c out w Htok w'. subst w'. unfold fetchNow_settled.
  destruct (tryResult out) as [json|err].
  - simpl.
    destruct (decide (fetchToken (session w) = currentToken c)) as [_|Hn];
      [|exact (False_ind _ (Hn Htok))].
    simpl.
    destruct (decide (fetchToken (session w) = currentToken c)) as [_|Hn];
      [|exact (False_ind _ (Hn Htok))].
    simpl. split; [reflexivity|]. split.
    + intros ? [= <-]. auto.
    + intros ? [=].
  - destruct (bool_decide (ename err ≠ "AbortError")); simpl;
      (destruct (decide (fetchToken (session w) = currentToken c)) as [_|Hn];
         [|exact (False_ind _ (Hn Htok))]); simpl;
      (split; [reflexivity|]); (split; [intros ? [=] | intros ? _; auto]).
Qed.

Lemma latest_answer_ends_loading_witness :
  let c := {| currentToken := 1; call_key := "k"; call_url := "u" |} in
  let out := Rejected {| ename := "TypeError"; message := "Failed to fetch" |} in
  loading (session (fetchNow_settled 5 c out Example.overlap_mounted.1)) = false.
Proof.
  intros c out.
  apply (latest_answer_ends_loading 5 c out Example.overlap_mounted.1). reflexivity.
Defined.

(** X23.  With an empty url the hook is idle: no render calls the
    network or changes [data], [loading], [error], the generation counter
    or the cache, and [refetch] leaves the cache alone. *)
Theorem empty_url_is_idle :
  forall (now : Z) (p : Props) (w : World),
    url p = "" ->
    fetchNow now p w = (w, None) /\
    (render now p w).2 = None /\
    data (session (render now p w).1) = data (session w) /\
    loading (session (render now p w).1) = loading (session w) /\
    error (session (render now p w).1) = error (session w) /\
    fetchToken (session (render now p w).1) = fetchToken (session w) /\
    cache (render now p w).1 = cache w /\
    cache (refetch p w) = cache w.
Proof.
  intros now p w Hu.
  assert (key (url p) (options p) = None) as Hk.
  { unfold key. rewrite Hu. reflexivity. }
  split; [unfold fetchNow; rewrite Hk; reflexivity|].
  unfold render, refetch. rewrite Hk, Hu.
  destruct (decide _); simpl; auto 10.
Qed.

Lemma empty_url_is_idle_witness :
  let p := {| url := ""; options := [("ttl", JNum (Fin 1000))]; optionsRef := 0;
              deps := [None] |} in
  (render 7 p Example.overlap_newer_answered).2 = None /\
  cache (refetch p Example.overlap_newer_answered) = cache Example.overlap_newer_answered.
Proof.
  intros p.
  destruct (empty_url_is_idle 7 p Example.overlap_newer_answered eq_refl)
    as (_ & H1 & _ & _ & _ & _ & _ & H2).
  split; [exact H1 | exact H2].
Defined.

(** X24.  A [ttl] option that is missing or falsy (zero, [null],
    [undefined], [false], [NaN], the empty string) stands for five
    minutes: a cached entry is then served by [fetchNow], without a call
    to the network, exactly when it is less than 300000 ms old.  In
    particular [ttl: 0] does not switch the cache off. *)
Theorem falsy_ttl_is_five_minutes :
  forall (now : Z) (p : Props) (w : World) (k : string) (entry : CacheEntry),
    key (url p) (options p) = Some k ->
    cache w !! k = Some entry ->
    toBoolean (getProp "ttl" (options p)) = false ->
    ttl (options p) = Fin 300000 /\
    ((fetchNow now p w).2 = None <-> (now - timestamp entry < 300000)%Z).
Proof.
  intros now p w k entry Hk Hc Hf.
  assert (ttl (options p) = Fin 300000) as Ht.
  { unfold ttl. rewrite Hf. reflexivity. }
  split; [exact Ht|]. unfold fetchNow. rewrite Hk. simpl. rewrite Hc, Ht. simpl.
  destruct (Z.ltb_spec (now - timestamp entry) 300000); simpl.
  - split; [intros _; assumption | reflexivity].
  - split; [discriminate | lia].
Qed.

Lemma falsy_ttl_is_five_minutes_witness :
  let p := {| url := "u"; options := [("ttl", JNum (Fin 0))]; optionsRef := 0; deps := [] |} in
  let k := default "" (key (url p) (options p)) in
  let w := {| cache := {[ k := {| entry_data := JStr "old"; timestamp := 1000 |} ]};
              session := newSession |} in
  ttl (options p) = Fin 300000 /\
  ((fetchNow 2000 p w).2 = None <-> (2000 - 1000 < 300000)%Z).
Proof.
  intros p k w.
  apply (falsy_ttl_is_five_minutes 2000 p w k
           {| entry_data := JStr "old"; timestamp := 1000 |}).
  - reflexivity.
  - vm_compute. reflexivity.
  - reflexivity.
Defined.

(** X25.  The cache is changed in two places only: a successful answer
    replaces the entry of its own key, and [refetch] deletes the entry of
    the current key.  Every other entry stays; failures, renders and
    [fetchNow] itself leave the whole cache as it is. *)
Theorem cache_changes_one_key :
  forall (now : Z) (c : Call) (out : FetchOutcome) (p : Props) (w : World) (k : string),
    (k <> call_key c -> cache (fetchNow_settled now c out w) !! k = cache w !! k) /\
    (forall err, tryResult out = inr err -> cache (fetchNow_settled now c out w) = cache w) /\
    (key (url p) (options p) <> Some k -> cache (refetch p w) !! k = cache w !! k) /\
    cache (fetchNow now p w).1 = cache w /\
    cache (render now p w).1 = cache w.
Proof.
  intros now c out p w k.
  assert (cache (fetchNow now p w).1 = cache w) as Hf.
  { unfold fetchNow. destruct (key (url p) (options p)) as [k'|]; [|reflexivity].
    simpl. destruct (cache w !! k') as [entry|]; [|reflexivity].
    destruct (ltNum _ _); reflexivity. }
  split; [|split; [|split; [|split]]].
  - intros Hk. unfold fetchNow_settled. destruct (tryResult out) as [json|err].
    + destruct (decide _); simpl; destruct (decide _); simpl;
        apply lookup_insert_ne; congruence.
    + destruct (bool_decide _); simpl; destruct (decide _); reflexivity.
  - intros err Ht. unfold fetchNow_settled. rewrite Ht.
    destruct (bool_decide _); simpl; destruct (decide _); reflexivity.
  - intros Hk. unfold refetch. destruct (key (url p) (options p)) as [k'|]; [|reflexivity].
    simpl. apply lookup_delete_ne. congruence.
  - exact Hf.
  - unfold render. destruct (decide _); [reflexivity|].
    destruct (bool_decide (url p = "")); [reflexivity|].
    unfold fetchNow. simpl. destruct (key (url p) (options p)) as [k'|]; [|reflexivity].
    simpl. destruct (cache w !! k') as [entry|]; [|reflexivity].
    destruct (ltNum _ _); reflexivity.
Qed.

(** ** The effect *)

Lemma fetchNow_keeps_deps now p w :
  effectDeps (session (fetchNow now p w).1) = effectDeps (session w) /\
  refetchIndex (session (fetchNow now p w).1) = refetchIndex (session w).
Proof.
  unfold fetchNow. destruct (key (url p) (options p)) as [k|]; [|auto].
  simpl. destruct (cache w !! k) as [entry|]; [|auto].
  destruct (ltNum _ _); auto.
Qed.

Lemma render_commits_deps now p w :
  effectDeps (session (render now p w).1) = Some (depsOf p (session w)) /\
  refetchIndex (session (render now p w).1) = refetchIndex (session w).
Proof.
  unfold render. destruct (decide _) as [He|Hne]; [simpl; auto|].
  destruct (bool_decide (url p = "")); [simpl; auto|].
  destruct (fetchNow_keeps_deps now p (onSession (commitDeps (depsOf p (session w))) w))
    as [-> ->]. simpl. auto.
Qed.

(** X26.  After a render, rendering again with the same url, the same
    [options] object and the same [deps] runs no effect: no call, and
    [data], [loading], [error], the generation counter and the cache stay.
    Rendering with another [options] object, even one of the same content
    (a caller that writes the object literal in its render), runs the
    effect and with it [fetchNow] again, which takes a new generation
    number. *)
Theorem effect_reruns_on_new_options_object :
  forall (now now' : Z) (p : Props) (w : World) (ref : nat),
    url p <> "" ->
    ref <> optionsRef p ->
    let w1 := (render now p w).1 in
    ((render now' p w1).2 = None /\
     data (session (render now' p w1).1) = data (session w1) /\
     loading (session (render now' p w1).1) = loading (session w1) /\
     error (session (render now' p w1).1) = error (session w1) /\
     fetchToken (session (render now' p w1).1) = fetchToken (session w1) /\
     cache (render now' p w1).1 = cache w1) /\
    render now' (withOptionsRef ref p) w1 =
      fetchNow now' (withOptionsRef ref p)
        (onSession (commitDeps (depsOf (withOptionsRef ref p) (session w1))) w1) /\
    fetchToken (session (render now' (withOptionsRef ref p) w1).1) = S (fetchToken (session w1)).
Proof.
  intros now now' p w ref Hu Href w1.
  destruct (render_commits_deps now p w) as [Hd Hr]. fold w1 in Hd, Hr.
  assert (effectDeps (session w1) = Some (depsOf p (session w1))) as Hsame.
  { rewrite Hd. unfold depsOf. rewrite Hr. reflexivity. }
  split.
  - unfold render. rewrite decide_True by exact Hsame. simpl. auto 10.
  - assert (render now' (withOptionsRef ref p) w1 =
            fetchNow now' (withOptionsRef ref p)
              (onSession (commitDeps (depsOf (withOptionsRef ref p) (session w1))) w1)) as Hrun.
    { unfold render. rewrite decide_False.
      - rewrite bool_decide_eq_false_2 by exact Hu. reflexivity.
      - rewrite Hsame. unfold depsOf, withOptionsRef. simpl. intros [=]. congruence. }
    split; [exact Hrun|]. rewrite Hrun.
    unfold fetchNow. unfold withOptionsRef at 1 2. cbn [url options].
    unfold key. rewrite bool_decide_eq_false_2 by exact Hu.
    cbv zeta. cbn [onSession cache session].
    destruct (_ !! _) as [entry|]; [|reflexivity].
    destruct (ltNum _ _); reflexivity.
Qed.

Lemma effect_reruns_on_new_options_object_witness :
  let p := Example.weather "Paris" in
  let w1 := (render 0 p Example.start).1 in
  (render 1 p w1).2 = None /\
  fetchToken (session (render 1 (withOptionsRef 1 p) w1).1) = S (fetchToken (session w1)).
Proof.
  intros p w1.
  assert (url p <> "") as Hu by (vm_compute; discriminate).
  assert (1 <> optionsRef p) as Href by (vm_compute; discriminate).
  destruct (effect_reruns_on_new_options_object 0 1 p Example.start 1 Hu Href)
    as ((H1 & _) & _ & H2).
  split; [exact H1 | exact H2].
Defined.

(** X27.  A call of [fetchNow] with a non-empty url asks the network
    exactly when the cache holds no fresh entry for the key.  When it
    asks, it sets [loading], clears [error] and keeps showing the data it
    had; whether it asks or not, it takes the next generation number and
    leaves the cache as it is. *)
Theorem fetchNow_asks_iff_not_fresh :
  forall (now : Z) (p : Props) (w : World) (k : string),
    key (url p) (options p) = Some k ->
    let fresh :=
      exists entry, cache w !! k = Some entry /\
                    ltNum (now - timestamp entry) (ttl (options p)) = true in
    let w' := (fetchNow now p w).1 in
    ((fetchNow now p w).2 = None <-> fresh) /\
    (~ fresh ->
       (fetchNow now p w).2 =
         Some {| currentToken := S (fetchToken (session w)); call_key := k;
                 call_url := url p |} /\
       loading (session w') = true /\ error (session w') = None /\
       data (session w') = data (session w)) /\
    fetchToken (session w') = S (fetchToken (session w)) /\
    cache w' = cache w.
Proof.
  intros now p w k Hk fresh w'. subst fresh w'. unfold fetchNow. rewrite Hk.
  cbv zeta. cbn [onSession cache session].
  destruct (cache w !! k) as [entry|] eqn:Hc.
  - destruct (ltNum (now - timestamp entry) (ttl (options p))) eqn:Hf; simpl.
    + split; [|split; [|auto]].
      * split; [intros _; exists entry; auto | reflexivity].
      * intros Hn. exfalso. apply Hn. exists entry. auto.
    + split; [|split; [|auto]].
      * split; [discriminate|]. intros (e & [= <-] & He). congruence.
      * intros _. auto.
  - simpl. split; [|split; [|auto]].
    + split; [discriminate|]. intros (e & [=] & _).
    + intros _. auto.
Qed.

Lemma fetchNow_asks_iff_not_fresh_witness :
  let p := Example.weather "Paris" in
  let k := default "" (key (url p) (options p)) in
  fetchToken (session (fetchNow 0 p Example.start).1) = 1 /\
  cache (fetchNow 0 p Example.start).1 = cache Example.start.
Proof.
  intros p k.
  assert (key (url p) (options p) = Some k) as Hk by reflexivity.
  destruct (fetchNow_asks_iff_not_fresh 0 p Example.start k Hk) as (_ & _ & H1 & H2).
  split; [exact H1 | exact H2].
Defined.

(** ** The selected suggestion after the list has changed *)

(** X28.  Typing does not reset the selected index, and the debounced
    effect replaces the list of suggestions without looking at it.  When
    the new list is not empty but ends at or before the selected index,
    Enter reads [suggestions[selectedSuggestionIndex].name] of a
    suggestion that does not exist, which throws a [TypeError]; no search
    is made. *)
Theorem stale_selection_throws :
  forall (value : string) (s : SmartSearchBar.State),
    let s' := SmartSearchBar.suggestEffect (SmartSearchBar.onChange value s) in
    SmartSearchBar.barSuggestions s' <> [] ->
    (Z.of_nat (length (SmartSearchBar.barSuggestions s'))
       <= SmartSearchBar.selectedSuggestionIndex s)%Z ->
    SmartSearchBar.selectedSuggestionIndex s' = SmartSearchBar.selectedSuggestionIndex s /\
    SmartSearchBar.showSuggestions s' = true /\
    SmartSearchBar.handleKeyDown "Enter" s' = (s', SmartSearchBar.TypeError).
Proof.
  intros value s s' Hne Hlen.
  assert (SmartSearchBar.selectedSuggestionIndex s'
          = SmartSearchBar.selectedSuggestionIndex s) as Hsel.
  { subst s'. unfold SmartSearchBar.suggestEffect. destruct (_ <=? _); reflexivity. }
  assert (SmartSearchBar.showSuggestions s' = true) as Hshow.
  { subst s'. unfold SmartSearchBar.suggestEffect in *.
    destruct (_ <=? _); simpl in *; [|congruence].
    apply Nat.ltb_lt. destruct (getDestinationSuggestions _ _); [congruence|simpl; lia]. }
  split; [exact Hsel|]. split; [exact Hshow|].
  unfold SmartSearchBar.handleKeyDown. rewrite Hshow. simpl negb.
  destruct (length (SmartSearchBar.barSuggestions s')) as [|n] eqn:Hl.
  { destruct (SmartSearchBar.barSuggestions s'); [congruence|discriminate]. }
  cbn [Nat.eqb orb]. cbv zeta.
  rewrite bool_decide_eq_false_2 by discriminate.
  rewrite bool_decide_eq_false_2 by discriminate.
  rewrite bool_decide_eq_true_2 by reflexivity.
  rewrite Hsel.
  destruct (Z.leb_spec 0 (SmartSearchBar.selectedSuggestionIndex s)) as [_|Hneg]; [|lia].
  rewrite lookup_ge_None_2; [reflexivity|]. rewrite Hl. lia.
Qed.

Lemma stale_selection_throws_witness :
  let typed_lo := SmartSearchBar.suggestEffect
                    (SmartSearchBar.onChange "lo" SmartSearchBar.initial) in
  let down s := (SmartSearchBar.handleKeyDown "ArrowDown" s).1 in
  let s := down (down (down typed_lo)) in
  let s' := SmartSearchBar.suggestEffect (SmartSearchBar.onChange "lon" s) in
  sname <$> SmartSearchBar.barSuggestions s = ["London"; "Barcelona"; "Los Angeles"] /\
  SmartSearchBar.selectedSuggestionIndex s = 2%Z /\
  sname <$> SmartSearchBar.barSuggestions s' = ["London"; "Barcelona"] /\
  SmartSearchBar.handleKeyDown "Enter" s' = (s', SmartSearchBar.TypeError).
Proof.
  intros typed_lo down s s'.
  split; [vm_compute; reflexivity|]. split; [vm_compute; reflexivity|].
  split; [vm_compute; reflexivity|].
  refine (proj2 (proj2 (stale_selection_throws "lon" s _ _))).
  - vm_compute. discriminate.
  - vm_compute. discriminate.
Defined.

(** ** Overlapping calls *)












